(** * The VA combined-rating engine of [va_math_gui.py]

    A shallow embedding of [va_combined_rating_detailed] and the properties
    of its result and of its step trace.

    The function computes on Python [float]s (IEEE-754 binary64) and Python
    [int]s.  Floats are modelled with their exact values, and every
    arithmetic operation is the exact operation followed by one rounding to
    the nearest binary64 number, ties to the even significand; integers are
    [Z].  The operations of this model are proved to be those of [SpecFloat],
    the reference implementation of binary64 in the Standard Library, and so
    those of the primitive floats.

    The elements of the argument [ratings] are Python numbers: floats, NaN
    and the infinities included, on which [float(r)] is the identity, and
    ints, on which [float(r)] rounds and raises [OverflowError] when the int
    is too large for a float.  [combine] is the function on a list of
    floats.

    The handlers of the window [VaMathApp] are embedded as functions on the
    state they read and write: the two input fields, the rows of the table,
    the result label and the details box.  [str.strip], [float] on a string,
    [str] on a float and the [sorted] of the details are arguments of the
    handlers, and what is proved of the handlers holds for all of them. *)

From Stdlib Require Import ZArith NArith Bool List Lia Permutation Sorted.
From Stdlib Require Import Floats.
From Stdlib Require String Ascii DecimalString DecimalN.
Import ListNotations.

(** ** Errors of the Python run time

    The built-ins used by the function can raise: [round] on a NaN or an
    infinity, the conversion of a huge [int] to [float], a float division by
    zero.  A computation is a value or the exception raised. *)

Inductive exn := ValueError | OverflowError | ZeroDivisionError.

Inductive result (A : Type) :=
| Ok (a : A)
| Raise (e : exn).

Arguments Ok {A} a.
Arguments Raise {A} e.

Definition bind {A B : Type} (c : result A) (k : A -> result B) : result B :=
  match c with
  | Ok a => k a
  | Raise e => Raise e
  end.

Notation "x <- c ;; k" := (bind c (fun x => k))
  (at level 61, c at next level, right associativity).
Notation "' p <- c ;; k" := (bind c (fun x => let p := x in k))
  (at level 61, p pattern, c at next level, right associativity).

(** ** Binary64 numbers *)

Module Binary64.

(** Every finite binary64 number is an integer multiple of [2^-1074], the
    least positive subnormal.  A finite float is kept as its sign and its
    magnitude counted in that unit, so that equal values are equal terms
    (up to the sign of zero, which the format has too). *)

Definition ulps : N := 2 ^ 1074.

Inductive pyfloat :=
| NaN
| Inf (neg : bool)
| Fin (neg : bool) (k : N).

Definition signed (neg : bool) (k : N) : Z :=
  if neg then (- Z.of_N k)%Z else Z.of_N k.

(** The integer nearest to [n / d], the even one of the two at a tie. *)
Definition rne_div (n d : N) : N :=
  let q := (n / d)%N in
  match (2 * (n mod d) ?= d)%N with
  | Lt => q
  | Gt => (q + 1)%N
  | Eq => if N.even q then q else (q + 1)%N
  end.

(** Rounding of the magnitude [n / d] (in units) to a binary64 magnitude:
    below [2^53] units the representable numbers are the integers; from
    [2^(52+j)] to [2^(53+j)] they are the multiples of [2^j].  [None] is
    overflow: the rounded magnitude is [2^1024] or more. *)
Definition round_mag (n d : N) : option N :=
  let j := (N.log2 (n / d) - 52)%N in
  let k := (rne_div n (d * 2 ^ j) * 2 ^ j)%N in
  if (k <? 2 ^ 2098)%N then Some k else None.

Definition of_mag (neg : bool) (n d : N) : pyfloat :=
  match round_mag n d with
  | Some k => Fin neg k
  | None => Inf neg
  end.

(** The magnitudes of binary64: a significand below [2^53] and an exponent
    within range. *)
Definition representable (k : N) : Prop :=
  exists m e : N, (m < 2 ^ 53)%N /\ (e <= 2045)%N /\ k = (m * 2 ^ e)%N.

Definition fneg (x : pyfloat) : pyfloat :=
  match x with
  | NaN => NaN
  | Inf s => Inf (negb s)
  | Fin s k => Fin (negb s) k
  end.

Definition fadd (x y : pyfloat) : pyfloat :=
  match x, y with
  | NaN, _ | _, NaN => NaN
  | Inf a, Inf b => if Bool.eqb a b then x else NaN
  | Inf _, _ => x
  | _, Inf _ => y
  | Fin a j, Fin b k =>
      let z := (signed a j + signed b k)%Z in
      if (z =? 0)%Z then Fin (a && b) 0
      else of_mag (z <? 0)%Z (Z.abs_N z) 1
  end.

Definition fsub (x y : pyfloat) : pyfloat := fadd x (fneg y).

Definition fmul (x y : pyfloat) : pyfloat :=
  match x, y with
  | NaN, _ | _, NaN => NaN
  | Inf a, Inf b => Inf (xorb a b)
  | Inf a, Fin b k | Fin b k, Inf a =>
      if (k =? 0)%N then NaN else Inf (xorb a b)
  | Fin a j, Fin b k => of_mag (xorb a b) (j * k) ulps
  end.

(** Python's [/] on floats raises on a zero divisor, whatever the dividend. *)
Definition fdiv (x y : pyfloat) : result pyfloat :=
  match x, y with
  | _, Fin _ 0%N => Raise ZeroDivisionError
  | NaN, _ | _, NaN => Ok NaN
  | Inf _, Inf _ => Ok NaN
  | Inf a, Fin b _ => Ok (Inf (xorb a b))
  | Fin a _, Inf b => Ok (Fin (xorb a b) 0)
  | Fin a j, Fin b k => Ok (of_mag (xorb a b) (j * ulps) k)
  end.

(** Comparisons: false as soon as one side is a NaN; the two zeros are
    equal. *)
Definition fltb (x y : pyfloat) : bool :=
  match x, y with
  | NaN, _ | _, NaN => false
  | Inf true, Inf true => false
  | Inf true, _ => true
  | _, Inf true => false
  | Inf false, _ => false
  | _, Inf false => true
  | Fin a j, Fin b k => (signed a j <? signed b k)%Z
  end.

Definition fleb (x y : pyfloat) : bool :=
  match x, y with
  | NaN, _ | _, NaN => false
  | Inf true, _ => true
  | _, Inf false => true
  | _, Inf true => false
  | Inf false, _ => false
  | Fin a j, Fin b k => (signed a j <=? signed b k)%Z
  end.

(** [float(z)] for a Python [int]: correctly rounded, [OverflowError] when
    out of range. *)
Definition of_int (z : Z) : result pyfloat :=
  match round_mag (Z.abs_N z * ulps) 1 with
  | Some k => Ok (Fin (z <? 0)%Z k)
  | None => Raise OverflowError
  end.

(** [round(x)] with one argument: the nearest [int], ties to even. *)
Definition py_round (x : pyfloat) : result Z :=
  match x with
  | NaN => Raise ValueError
  | Inf _ => Raise OverflowError
  | Fin s k => Ok (signed s (rne_div k ulps))
  end.

(** The float with value [n / d], for the literals of the source and of the
    examples ([n / d] must be a binary64 number: the division is exact). *)
Definition lit (n d : N) : pyfloat := Fin false (n * ulps / d).

(** The float with the value of a small natural number. *)
Definition nat_float (n : N) : pyfloat := Fin false (n * ulps).

End Binary64.

Import Binary64.

(** ** The engine: [va_combined_rating_detailed] *)

(** One entry of [steps]: the dict appended at each iteration. *)
Record step := {
  rating : pyfloat;
  remaining_before : pyfloat;
  added : pyfloat;
  combined_before_round : pyfloat;
  combined_after_round : Z
}.

(** A Python number, an [int] or a [float]: the elements of [ratings] are
    numbers, and the variable [combined] holds the float [0.0] at first and
    the [int] returned by [round] afterwards. *)
Inductive number :=
| PyInt (z : Z)
| PyFloat (x : pyfloat).

(** [float(r)], which is also the conversion Python applies to [combined]
    in [100.0 - combined] and in [combined + added]. *)
Definition as_float (c : number) : result pyfloat :=
  match c with
  | PyInt z => of_int z
  | PyFloat x => Ok x
  end.

(** [round(combined)]: an [int] is its own rounding. *)
Definition round_number (c : number) : result Z :=
  match c with
  | PyInt z => Ok z
  | PyFloat x => py_round x
  end.

Definition zero : pyfloat := nat_float 0.
Definition hundred : pyfloat := nat_float 100.

(** The test [0 < float(r) <= 100] of the list comprehension. *)
Definition in_range (r : pyfloat) : bool := fltb zero r && fleb r hundred.

(** [sorted(..., reverse=True)]: a stable sort into descending order, which
    compares with [<] only.  The list sorted has no NaN, so that every stable
    sort returns the same list; it is written here as an insertion sort. *)
Fixpoint insert_desc (x : pyfloat) (l : list pyfloat) : list pyfloat :=
  match l with
  | [] => [x]
  | y :: l' => if fltb x y then y :: insert_desc x l' else x :: l
  end.

Fixpoint sorted_desc (l : list pyfloat) : list pyfloat :=
  match l with
  | [] => []
  | x :: l' => insert_desc x (sorted_desc l')
  end.

(** The body of the [for] loop: the new value of [combined] and the dict
    appended to [steps]. *)
Definition loop_body (combined : number) (r : pyfloat) : result (number * step) :=
  c <- as_float combined ;;
  let remaining := fsub hundred c in
  q <- fdiv r hundred ;;
  let added := fmul remaining q in
  let before_round_combined := fadd c added in
  after <- py_round before_round_combined ;;
  Ok (PyInt after,
      {| rating := r;
         remaining_before := remaining;
         added := added;
         combined_before_round := before_round_combined;
         combined_after_round := after |}).

(** The [for] loop over [clean_ratings]: the final [combined] and the steps
    in the order they are appended. *)
Fixpoint loop (combined : number) (clean_ratings : list pyfloat)
  : result (number * list step) :=
  match clean_ratings with
  | [] => Ok (combined, [])
  | r :: rest =>
      '(combined', s) <- loop_body combined r ;;
      '(final, steps) <- loop combined' rest ;;
      Ok (final, s :: steps)
  end.

(** The clamp and the rounding to a multiple of 10 after the loop, on the
    [int] that [int(round(combined))] gives. *)
Definition final_rounding (c : Z) : Z :=
  let combined := Z.min 100 (Z.max 0 c) in
  let remainder := (combined mod 10)%Z in
  if (5 <=? remainder)%Z
  then (combined + (10 - remainder))%Z
  else (combined - remainder)%Z.

(** The list comprehension [[float(r) for r in ratings if 0 < float(r) <= 100]]:
    for each element [float(r)] is evaluated for the test and, when the test
    holds, once more for the element kept. *)
Fixpoint comprehension (ratings : list number) : result (list pyfloat) :=
  match ratings with
  | [] => Ok []
  | r :: rest =>
      x <- as_float r ;;
      if in_range x
      then y <- as_float r ;;
           kept <- comprehension rest ;;
           Ok (y :: kept)
      else comprehension rest
  end.

Definition va_combined_rating_detailed (ratings : list number)
  : result (Z * list step) :=
  match ratings with
  | [] => Ok (0%Z, [])
  | _ =>
      kept <- comprehension ratings ;;
      let clean_ratings := sorted_desc kept in
      match clean_ratings with
      | [] => Ok (0%Z, [])
      | _ =>
          '(combined, steps) <- loop (PyFloat zero) clean_ratings ;;
          c <- round_number combined ;;
          Ok (final_rounding c, steps)
      end
  end.

(** [combine], the name the specification gives to the function, is here
    the function on a list of floats. *)
Definition combine (ratings : list pyfloat) : result (Z * list step) :=
  va_combined_rating_detailed (map PyFloat ratings).

(** ** The vocabulary of the properties *)

Section Vocabulary.

Local Open Scope N_scope.

(** The ratings the filter keeps: the floats with a value in (0, 100]. *)
Definition valid_rating (r : pyfloat) : Prop :=
  exists k, r = Fin false k /\ 0 < k <= 100 * ulps.

(** A number with a value in (0, 100], and the float with the value of such
    a number. *)
Definition in_range_number (r : number) : bool :=
  match r with
  | PyInt z => (0 <? z)%Z && (z <=? 100)%Z
  | PyFloat x => in_range x
  end.

Definition value_of (r : number) : pyfloat :=
  match r with
  | PyInt z => nat_float (Z.to_N z)
  | PyFloat x => x
  end.

(** A number that [float] converts: every float, and every [int] that is
    not too large. *)
Definition converts (r : number) : Prop := exists x, as_float r = Ok x.

(** No element is below a later one. *)
Definition descending (l : list pyfloat) : Prop :=
  StronglySorted (fun x y => fltb x y = false) l.

(** [combined] holds the natural number [n]: as the [int] left by [round],
    or as the initial [0.0]. *)
Definition holds (combined : number) (n : N) : Prop :=
  combined = PyInt (Z.of_N n) \/ (combined = PyFloat zero /\ n = 0).

(** What an iteration that starts from the total [n] records. *)
Record step_from (n : N) (s : step) : Prop := {
  sf_rating : valid_rating (rating s);
  sf_remaining : remaining_before s = nat_float (100 - n);
  sf_added : exists a, added s = Fin false a /\ a <= (100 - n) * ulps;
  sf_before : exists b, combined_before_round s = Fin false b
                        /\ n * ulps <= b <= 100 * ulps;
  sf_round : py_round (combined_before_round s) = Ok (combined_after_round s);
  sf_after : (Z.of_N n <= combined_after_round s <= 100)%Z
}.

(** A trace whose first iteration starts from [n] and whose every further
    iteration starts from the rounded total of the one before. *)
Fixpoint trace_from (n : N) (steps : list step) : Prop :=
  match steps with
  | [] => True
  | s :: rest => step_from n s /\ trace_from (Z.to_N (combined_after_round s)) rest
  end.

(** The value of [combined] when the loop ends. *)
Fixpoint total_after (c : Z) (steps : list step) : Z :=
  match steps with
  | [] => c
  | s :: rest => total_after (combined_after_round s) rest
  end.

(** The rule of the specification for the end of the computation: clamp to
    [0, 100], then move to a multiple of 10 by the remainder. *)
Definition spec_clamp (combined : Z) : Z :=
  if (combined <? 0)%Z then 0%Z
  else if (100 <? combined)%Z then 100%Z
  else combined.

Definition spec_final (combined : Z) : Z :=
  let clamped := spec_clamp combined in
  let remainder := (clamped mod 10)%Z in
  if (remainder >=? 5)%Z then (clamped + (10 - remainder))%Z
  else (clamped - remainder)%Z.

(** The steps of the worked examples of the specification. *)
Definition step_50 : step :=
  {| rating := nat_float 50;
     remaining_before := nat_float 100;
     added := nat_float 50;
     combined_before_round := nat_float 50;
     combined_after_round := 50 |}.

Definition step_30 : step :=
  {| rating := nat_float 30;
     remaining_before := nat_float 50;
     added := nat_float 15;
     combined_before_round := nat_float 65;
     combined_after_round := 65 |}.

(** The third step of [50, 30, 10]: 35 * 0.1 = 3.5 and 65 + 3.5 = 68.5,
    which [round] takes to 68. *)
Definition step_10 : step :=
  {| rating := nat_float 10;
     remaining_before := nat_float 35;
     added := lit 7 2;
     combined_before_round := lit 137 2;
     combined_after_round := 68 |}.

End Vocabulary.

(** ** The reference arithmetic of the Standard Library

    [SpecFloat] is the executable specification of IEEE 754 binary64 against
    which Rocq's primitive floats are axiomatised.  The model above is shown
    below to compute what [SpecFloat] computes; these definitions say how the
    two representations correspond. *)

Section Reference.

Local Open Scope Z_scope.

(** The float of the model that a float of [SpecFloat] stands for. *)
Definition of_spec (x : spec_float) : pyfloat :=
  match x with
  | S754_zero s => Fin s 0
  | S754_infinity s => Inf s
  | S754_nan => NaN
  | S754_finite s m e => Fin s (Z.to_N (Z.pos m * 2 ^ (e + 1074)))
  end.

(** The float of the model that a primitive (hardware) float stands for. *)
Definition of_machine (x : float) : pyfloat := of_spec (Prim2SF x).

(** The magnitude, in units, of the finite float with significand [m] and
    exponent [e]. *)
Definition mag (m : positive) (e : Z) : N := (N.pos m * 2 ^ Z.to_N (e + 1074))%N.

(** The location of [a / b] between the integers [a / b] and [a / b + 1],
    and the shift record that [SpecFloat] keeps for it. *)
Definition loc_of (a b : Z) : location :=
  if a mod b =? 0 then loc_Exact else loc_Inexact (2 * (a mod b) ?= b).

Definition rec_of (a b : Z) : shr_record := shr_record_of_loc (a / b) (loc_of a b).

(** The two last steps of [binary_round_aux]: the renormalisation after the
    rounding and the overflow test. *)
Definition finish (s : bool) (m : Z) (e : Z) : spec_float :=
  let '(mrs, e') := shr_fexp prec emax m e loc_Exact in
  match shr_m mrs with
  | Z0 => S754_zero s
  | Zpos p => if e' <=? emax - prec then S754_finite s p e' else S754_infinity s
  | Zneg _ => S754_nan
  end.

End Reference.

(** ** The vocabulary of the bounds on the totals *)

Section Bounds.

Local Open Scope N_scope.

(** Two binary64 magnitudes around [n / 100]: the multiples of [2^-34] next
    below and next above it. *)
Definition below_hundredth (n : N) : N := n * 2 ^ 34 / 100 * 2 ^ 1040.
Definition above_hundredth (n : N) : N := (n * 2 ^ 34 / 100 + 1) * 2 ^ 1040.

(** The whole part of a rating, and the rating rounded up to a whole
    number. *)
Definition whole_part (r : pyfloat) : N :=
  match r with
  | Fin false k => k / ulps
  | _ => 0
  end.

Definition rounded_up (r : pyfloat) : N :=
  match r with
  | Fin false k => (k + (ulps - 1)) / ulps
  | _ => 0
  end.

(** The sum of a list of natural numbers. *)
Definition total_of (l : list N) : N := fold_right N.add 0 l.

(** The increments of a trace that starts from the total [c]. *)
Fixpoint increments (c : Z) (steps : list step) : Prop :=
  match steps with
  | [] => True
  | s :: rest =>
      (combined_after_round s <= c + Z.of_N (rounded_up (rating s)))%Z
      /\ increments (combined_after_round s) rest
  end.

End Bounds.

(** ** The window *)

(** The state of [VaMathApp] that its handlers read and write: the texts of
    the two input fields, the rows of the table (the items of the two
    columns of each row, [None] where a cell has no item), the text of the
    result label and the text of the details box. *)
Record VaMathApp := {
  condition_input : String.string;
  rating_input : String.string;
  table : list (option String.string * option String.string);
  result_label : String.string;
  details_box : String.string
}.

(** The message boxes the handlers open. *)
Inductive QMessageBox :=
| warning (title text : String.string)
| information (title text : String.string).

Section Handlers.

Import String.
Local Open Scope string_scope.

(** [str.strip], [float] on a string ([None] for [ValueError]), [str] on a
    float and [sorted(conditions, key=lambda x: x[1], reverse=True)] are
    those of Python: the handlers are given for any four such functions. *)
Variable strip : string -> string.
Variable float_of_text : string -> option pyfloat.
Variable str_of_float : pyfloat -> string.
Variable sorted_by_rating : list (string * pyfloat) -> list (string * pyfloat).

(** [str] on a natural number and on an [int], as the f-strings apply it. *)
Definition str_of_nat (n : nat) : string :=
  DecimalString.NilZero.string_of_uint (Nat.to_uint n).

Definition str_of_N (n : N) : string :=
  DecimalString.NilZero.string_of_uint (N.to_uint n).

Definition str_of_int (z : Z) : string :=
  DecimalString.NilZero.string_of_int (Z.to_int z).

(** The last [digits] decimal digits of [n]. *)
Fixpoint fixed_digits (digits : nat) (n : N) : string :=
  match digits with
  | O => ""
  | S d => fixed_digits d (n / 10) ++ str_of_N (n mod 10)
  end.

(** The format [:.{digits}f] of a float: the value rounded to [digits]
    decimals, to nearest with ties to even, a decimal point when [digits]
    is not 0. *)
Definition format_fixed (digits : nat) (x : pyfloat) : string :=
  match x with
  | NaN => "nan"
  | Inf false => "inf"
  | Inf true => "-inf"
  | Fin neg k =>
      let scale := (10 ^ N.of_nat digits)%N in
      let q := rne_div (k * scale) ulps in
      (if neg then "-" else "")
      ++ str_of_N (q / scale)
      ++ match digits with
         | O => ""
         | _ => "." ++ fixed_digits digits (q mod scale)
         end
  end.

(** The test [rating <= 0 or rating > 100] of both handlers. *)
Definition out_of_range (rating : pyfloat) : bool :=
  fleb rating zero || fltb hundred rating.

(** The state of the window when [_build_ui] returns. *)
Definition _build_ui : VaMathApp :=
  {| condition_input := "";
     rating_input := "";
     table := [];
     result_label := "Combined Rating: -- %";
     details_box := "" |}.

(** [add_condition]: the new state and the message box opened, if any. *)
Definition add_condition (self : VaMathApp) : VaMathApp * option QMessageBox :=
  let name := strip (condition_input self) in
  let rating_text := strip (rating_input self) in
  match rating_text with
  | "" => (self, Some (warning "Input Error" "Please enter a rating percentage."))
  | _ =>
      match float_of_text rating_text with
      | None => (self, Some (warning "Input Error" "Rating must be a number."))
      | Some rating =>
          if out_of_range rating
          then (self, Some (warning "Input Error" "Rating must be between 0 and 100."))
          else
            let name :=
              match name with
              | "" => "Condition " ++ str_of_nat (List.length (table self) + 1)
              | _ => name
              end in
            ({| condition_input := "";
                rating_input := "";
                table := (table self ++ [(Some name, Some (str_of_float rating))])%list;
                result_label := result_label self;
                details_box := details_box self |},
             None)
      end
  end.

(** [sorted(rows, reverse=True)] on row numbers. *)
Fixpoint insert_row (r : nat) (l : list nat) : list nat :=
  match l with
  | [] => [r]
  | x :: l' => if (r <? x)%nat then x :: insert_row r l' else r :: l
  end.

Fixpoint sorted_rows (l : list nat) : list nat :=
  match l with
  | [] => []
  | r :: l' => insert_row r (sorted_rows l')
  end.

(** [QTableWidget.removeRow]: a row number past the end removes nothing. *)
Definition removeRow (row : nat) (t : list (option string * option string))
  : list (option string * option string) :=
  (firstn row t ++ skipn (S row) t)%list.

(** [remove_selected], for the model indexes (row, column) that
    [selectedIndexes] returns: the set of their rows, in descending order,
    removed one after the other. *)
Definition remove_selected (selectedIndexes : list (nat * nat)) (self : VaMathApp)
  : VaMathApp * option QMessageBox :=
  let rows := sorted_rows (nodup Nat.eq_dec (map fst selectedIndexes)) in
  match rows with
  | [] => (self, Some (information "Remove Selected" "No row selected."))
  | _ =>
      ({| condition_input := condition_input self;
          rating_input := rating_input self;
          table := fold_left (fun t row => removeRow row t) rows (table self);
          result_label := result_label self;
          details_box := details_box self |},
       None)
  end.

Definition clear_all (self : VaMathApp) : VaMathApp :=
  {| condition_input := condition_input self;
     rating_input := rating_input self;
     table := [];
     result_label := "Combined Rating: -- %";
     details_box := "" |}.

(** The loop of [calculate_rating] over the rows from [row] on: the message
    box of the first row it rejects, or the two lists it builds. *)
Fixpoint read_rows (row : nat) (rows : list (option string * option string))
         (ratings : list pyfloat) (conditions : list (string * pyfloat))
  : QMessageBox + list pyfloat * list (string * pyfloat) :=
  match rows with
  | [] => inr (ratings, conditions)
  | (condition_item, rating_item) :: rest =>
      match rating_item with
      | None => read_rows (S row) rest ratings conditions
      | Some rating_item_text =>
          let condition_name :=
            match condition_item with
            | Some text => text
            | None => "Condition " ++ str_of_nat (row + 1)
            end in
          let rating_text := strip rating_item_text in
          match float_of_text rating_text with
          | None =>
              inl (warning "Data Error"
                     ("Invalid rating in row " ++ str_of_nat (row + 1)
                      ++ ": '" ++ rating_text ++ "'"))
          | Some rating =>
              if out_of_range rating
              then inl (warning "Data Error"
                          ("Rating in row " ++ str_of_nat (row + 1)
                           ++ " must be between 0 and 100."))
              else read_rows (S row) rest
                             (ratings ++ [rating])%list
                             (conditions ++ [(condition_name, rating)])%list
          end
      end
  end.

(** The six lines of the details for the step numbered [idx]. *)
Definition step_lines (idx : nat) (s : step) : list string :=
  [ "Step " ++ str_of_nat idx ++ ": " ++ format_fixed 0 (rating s) ++ "% condition";
    "  Remaining before: " ++ format_fixed 2 (remaining_before s) ++ "%";
    "  Added: " ++ format_fixed 2 (added s) ++ "%";
    "  Combined before round: " ++ format_fixed 2 (combined_before_round s) ++ "%";
    "  Combined after round: " ++ str_of_int (combined_after_round s) ++ "%";
    "" ].

(** The loop over [enumerate(steps, start=idx)]. *)
Fixpoint steps_lines (idx : nat) (steps : list step) : list string :=
  match steps with
  | [] => []
  | s :: rest => (step_lines idx s ++ steps_lines (S idx) rest)%list
  end.

Definition details_lines (final_rating : Z) (conditions : list (string * pyfloat))
           (steps : list step) : list string :=
  let condition_line (c : string * pyfloat) :=
    "  - " ++ fst c ++ ": " ++ format_fixed 0 (snd c) ++ "%" in
  let final_line :=
    "Final VA combined rating (rounded to nearest 10): "
    ++ str_of_int final_rating ++ "%" in
  List.app ["Conditions (sorted by rating):"]
    (List.app (map condition_line (sorted_by_rating conditions))
       (List.app [""]
          (List.app ["Calculation Steps:"]
             (List.app (steps_lines 1 steps) [final_line])))).

(** [calculate_rating]: the new state and the message box opened, if any. *)
Definition calculate_rating (self : VaMathApp) : result (VaMathApp * option QMessageBox) :=
  match read_rows 0 (table self) [] [] with
  | inl box => Ok (self, Some box)
  | inr (ratings, conditions) =>
      match ratings with
      | [] => Ok (self, Some (information "No Data" "Please add at least one condition."))
      | _ =>
          '(final_rating, steps) <-
            va_combined_rating_detailed (map PyFloat ratings) ;;
          Ok ({| condition_input := condition_input self;
                 rating_input := rating_input self;
                 table := table self;
                 result_label := "Combined Rating: " ++ str_of_int final_rating ++ " %";
                 details_box :=
                   concat (String (Ascii.ascii_of_nat 10) "")
                          (details_lines final_rating conditions steps) |},
              None)
      end
  end.

End Handlers.

(** ** The vocabulary of the properties of the window *)

Section WindowVocabulary.

Import String.
Local Open Scope string_scope.

Variable strip : string -> string.
Variable float_of_text : string -> option pyfloat.
Variable str_of_float : pyfloat -> string.
Variable sorted_by_rating : list (string * pyfloat) -> list (string * pyfloat).

(** The rating [calculate_rating] reads in a row that has a rating item. *)
Definition rating_of (row : option string * option string) : option pyfloat :=
  match snd row with
  | None => None
  | Some text => float_of_text (strip text)
  end.

(** A row that [calculate_rating] does not reject: it has no rating item, or
    the text of the item is a number that passes the range test. *)
Definition readable (row : option string * option string) : Prop :=
  match snd row with
  | None => True
  | Some text =>
      exists rating, float_of_text (strip text) = Some rating
                     /\ out_of_range rating = false
  end.

(** The ratings of the rows that have a rating item, and the names they are
    shown with, the first row numbered [row]. *)
Fixpoint ratings_of (rows : list (option string * option string)) : list pyfloat :=
  match rows with
  | [] => []
  | r :: rest =>
      match rating_of r with
      | Some rating => rating :: ratings_of rest
      | None => ratings_of rest
      end
  end.

Fixpoint conditions_of (row : nat) (rows : list (option string * option string))
  : list (string * pyfloat) :=
  match rows with
  | [] => []
  | r :: rest =>
      match rating_of r with
      | Some rating =>
          (match fst r with
           | Some text => text
           | None => "Condition " ++ str_of_nat (row + 1)
           end, rating) :: conditions_of (S row) rest
      | None => conditions_of (S row) rest
      end
  end.

(** The stable sort of the conditions into descending order of rating:
    what [sorted] with the rating as key and [reverse=True] returns when no
    rating is a NaN. *)
Fixpoint insert_condition (c : string * pyfloat) (l : list (string * pyfloat))
  : list (string * pyfloat) :=
  match l with
  | [] => [c]
  | d :: l' => if fltb (snd c) (snd d) then d :: insert_condition c l' else c :: l
  end.

Fixpoint sorted_conditions (l : list (string * pyfloat)) : list (string * pyfloat) :=
  match l with
  | [] => []
  | c :: l' => insert_condition c (sorted_conditions l')
  end.

(** The elements of [t] whose number, counted from [first], is not
    selected. *)
Definition unselected {A : Type} (selected : nat -> bool) (first : nat) (t : list A)
  : list A :=
  map snd (filter (fun p => negb (selected (fst p)))
                  (List.combine (seq first (List.length t)) t)).

(** The texts of the two message boxes of [calculate_rating] for the row
    with the number [row] (counted from 0). *)
Definition rejection (row : nat) (text : string) : Prop :=
  (exists rating_text,
      text = "Invalid rating in row " ++ str_of_nat (row + 1)
             ++ ": '" ++ rating_text ++ "'")
  \/ text = "Rating in row " ++ str_of_nat (row + 1) ++ " must be between 0 and 100.".

(** The states the window reaches from its first one by typing into the two
    input fields and by the four handlers, the cells of the table not being
    edited by hand. *)
Inductive reachable : VaMathApp -> Prop :=
| reach_build : reachable _build_ui
| reach_type (self : VaMathApp) (name rating : string) :
    reachable self ->
    reachable {| condition_input := name;
                 rating_input := rating;
                 table := table self;
                 result_label := result_label self;
                 details_box := details_box self |}
| reach_add (self : VaMathApp) :
    reachable self ->
    reachable (fst (add_condition strip float_of_text str_of_float self))
| reach_remove (self : VaMathApp) (selectedIndexes : list (nat * nat)) :
    reachable self ->
    reachable (fst (remove_selected selectedIndexes self))
| reach_clear (self : VaMathApp) :
    reachable self -> reachable (clear_all self)
| reach_calculate (self self' : VaMathApp) (box : option QMessageBox) :
    reachable self ->
    calculate_rating strip float_of_text sorted_by_rating self = Ok (self', box) ->
    reachable self'.

End WindowVocabulary.

(** ** A text form of the floats *)

(** A way of writing floats that can be read back: a letter for NaN and for
    the two infinities, and for a finite float its sign and its magnitude in
    units of 2^-1074, in decimal.  It stands for [str] and [float] where a
    property of the window is instantiated. *)
Section TextForm.

Import String Ascii.
Local Open Scope string_scope.

Definition write_float (x : pyfloat) : string :=
  match x with
  | NaN => "n"
  | Inf false => "p"
  | Inf true => "m"
  | Fin false k => String "+"%char (DecimalString.NilEmpty.string_of_uint (N.to_uint k))
  | Fin true k => String "-"%char (DecimalString.NilEmpty.string_of_uint (N.to_uint k))
  end.

Definition read_magnitude (neg : bool) (digits : string) : option pyfloat :=
  match DecimalString.NilEmpty.uint_of_string digits with
  | Some d => Some (Fin neg (N.of_uint d))
  | None => None
  end.

Definition read_float (text : string) : option pyfloat :=
  match text with
  | "n" => Some NaN
  | "p" => Some (Inf false)
  | "m" => Some (Inf true)
  | String "+"%char digits => read_magnitude false digits
  | String "-"%char digits => read_magnitude true digits
  | _ => None
  end.

End TextForm.

(** ** Rounding does not cross a binary64 number

    The two facts about rounding that the engine's invariants rest on: a
    quotient at most (at least) a representable bound is rounded to a float
    at most (at least) that bound. *)

Section Rounding.

Local Open Scope N_scope.

Lemma rne_div_le (n d b : N) : d <> 0 -> n <= b * d -> rne_div n d <= b.
Proof.
  intros Hd Hn. unfold rne_div.
  pose proof (N.div_mod n d Hd) as E.
  pose proof (N.mod_lt n d Hd) as L.
  assert (Q : n / d <= b) by (apply N.Div0.div_le_upper_bound; lia).
  assert (Q' : 0 < n mod d -> n / d + 1 <= b) by (intros; nia).
  destruct (N.compare_spec (2 * (n mod d)) d) as [C|C|C].
  - destruct (N.even (n / d)); [assumption | apply Q'; lia].
  - assumption.
  - apply Q'; lia.
Qed.

Lemma rne_div_ge (n d b : N) : d <> 0 -> b * d <= n -> b <= rne_div n d.
Proof.
  intros Hd Hn. unfold rne_div.
  assert (Q : b <= n / d) by (apply N.div_le_lower_bound; [assumption | lia]).
  destruct (2 * (n mod d) ?= d); [destruct (N.even (n / d)) | |]; lia.
Qed.

(** Rounding to an integer moves by at most one half. *)
Lemma rne_div_near (n d : N) :
  d <> 0 -> 2 * rne_div n d * d <= 2 * n + d /\ 2 * n <= 2 * rne_div n d * d + d.
Proof.
  intros Hd. unfold rne_div.
  pose proof (N.div_mod n d Hd) as E.
  pose proof (N.mod_lt n d Hd) as L.
  revert E L. generalize (n / d) (n mod d). intros q r E L. subst n.
  destruct (N.compare_spec (2 * r) d) as [C|C|C];
    [destruct (N.even q) | |]; split; nia.
Qed.

(** At a tie the even neighbour is chosen. *)
Lemma rne_div_tie (n d q : N) :
  d <> 0 -> 2 * n = (2 * q + 1) * d ->
  rne_div n d = if N.even q then q else q + 1.
Proof.
  intros Hd Hn.
  assert (Hr : 2 * (n - q * d) = d) by nia.
  assert (Hq : n = q * d + (n - q * d)) by nia.
  assert (Hdiv : n / d = q).
  { symmetry. apply (N.div_unique n d q (n - q * d)); lia. }
  assert (Hmod : n mod d = n - q * d).
  { symmetry. apply (N.mod_unique n d q (n - q * d)); lia. }
  unfold rne_div. rewrite Hdiv, Hmod, Hr, N.compare_refl. reflexivity.
Qed.

Lemma exponent_of_bound (t j m e : N) :
  j = N.log2 t - 52 -> j <> 0 -> t <= m * 2 ^ e -> m < 2 ^ 53 -> j <= e.
Proof.
  intros Hj Hj0 Ht Hm.
  assert (Ht0 : 0 < t).
  { destruct t; [|lia]. simpl in Hj. lia. }
  destruct (N.log2_spec t Ht0) as [Hlo _].
  assert (Hlog : N.log2 t = j + 52) by lia.
  rewrite Hlog in Hlo.
  assert (H1 : 2 ^ (j + 52) < 2 ^ (53 + e)).
  { rewrite (N.pow_add_r 2 53 e).
    assert (0 < 2 ^ e) by (apply N.neq_0_lt_0, N.pow_nonzero; lia).
    nia. }
  apply N.pow_lt_mono_r_iff in H1; lia.
Qed.

Lemma round_mag_le (n d b : N) :
  d <> 0 -> representable b -> n <= b * d ->
  exists k, round_mag n d = Some k /\ k <= b.
Proof.
  intros Hd (m & e & Hm & He & Hb) Hn.
  unfold round_mag.
  set (j := N.log2 (n / d) - 52).
  assert (Hpj : 2 ^ j <> 0) by (apply N.pow_nonzero; lia).
  assert (Hk : rne_div n (d * 2 ^ j) * 2 ^ j <= b).
  { destruct (N.eq_dec j 0) as [J0|J0].
    - rewrite J0, N.pow_0_r, !N.mul_1_r. now apply rne_div_le.
    - assert (Hje : j <= e).
      { apply (exponent_of_bound (n / d) j m e); auto.
        rewrite <- Hb. apply N.Div0.div_le_upper_bound; lia. }
      assert (Hsplit : b = m * 2 ^ (e - j) * 2 ^ j).
      { rewrite <- N.mul_assoc, <- N.pow_add_r, N.sub_add; assumption. }
      rewrite Hsplit. apply N.mul_le_mono_r. apply rne_div_le; [lia|].
      rewrite Hsplit in Hn. lia. }
  assert (Hmax : b < 2 ^ 2098).
  { rewrite Hb.
    assert (E1 : 2 ^ e <= 2 ^ 2045) by (apply N.pow_le_mono_r; lia).
    assert (E2 : (2 : N) ^ 2098 = 2 ^ 53 * 2 ^ 2045)
      by (rewrite <- N.pow_add_r; reflexivity).
    assert (0 < 2 ^ e) by (apply N.neq_0_lt_0, N.pow_nonzero; lia).
    rewrite E2. nia. }
  eexists. split; [|exact Hk].
  destruct (N.ltb_spec (rne_div n (d * 2 ^ j) * 2 ^ j) (2 ^ 2098)); [reflexivity | lia].
Qed.

Lemma round_mag_ge (n d b k : N) :
  d <> 0 -> representable b -> b * d <= n -> round_mag n d = Some k -> b <= k.
Proof.
  intros Hd (m & e & Hm & He & Hb) Hn.
  unfold round_mag.
  set (j := N.log2 (n / d) - 52).
  assert (Hpj : 2 ^ j <> 0) by (apply N.pow_nonzero; lia).
  assert (Hk : b <= rne_div n (d * 2 ^ j) * 2 ^ j).
  { destruct (N.eq_dec j 0) as [J0|J0].
    - rewrite J0, N.pow_0_r, !N.mul_1_r. now apply rne_div_ge.
    - destruct (N.le_gt_cases j e) as [Hje|Hje].
      + assert (Hsplit : b = m * 2 ^ (e - j) * 2 ^ j).
        { rewrite <- N.mul_assoc, <- N.pow_add_r, N.sub_add; assumption. }
        rewrite Hsplit. apply N.mul_le_mono_r. apply rne_div_ge; [lia|].
        rewrite Hsplit in Hn. lia.
      + assert (Ht0 : 0 < n / d).
        { destruct (n / d); [|lia]. subst j. simpl in J0. lia. }
        destruct (N.log2_spec _ Ht0) as [Hlo _].
        assert (Hlog : N.log2 (n / d) = 52 + j) by lia.
        rewrite Hlog, N.pow_add_r in Hlo.
        assert (Hq : 2 ^ 52 <= rne_div n (d * 2 ^ j)).
        { apply rne_div_ge; [lia|].
          pose proof (N.Div0.mul_div_le n d). nia. }
        assert (Hb' : b < 2 ^ 52 * 2 ^ j).
        { assert (E1 : 2 ^ (53 + e) <= 2 ^ (52 + j)) by (apply N.pow_le_mono_r; lia).
          rewrite !N.pow_add_r in E1.
          assert (0 < 2 ^ e) by (apply N.neq_0_lt_0, N.pow_nonzero; lia).
          nia. }
        nia. }
  destruct (N.ltb_spec (rne_div n (d * 2 ^ j) * 2 ^ j) (2 ^ 2098));
    intros E; inversion E; subst; exact Hk.
Qed.

(** A representable quotient is not changed. *)
Lemma round_mag_exact (d b : N) :
  d <> 0 -> representable b -> round_mag (b * d) d = Some b.
Proof.
  intros Hd Hb.
  destruct (round_mag_le (b * d) d b Hd Hb (N.le_refl _)) as (k & E & Hle).
  pose proof (round_mag_ge (b * d) d b k Hd Hb (N.le_refl _) E).
  rewrite E. f_equal. lia.
Qed.

Lemma round_mag_integral (b : N) : representable b -> round_mag b 1 = Some b.
Proof.
  intros Hb. rewrite <- (N.mul_1_r b) at 1. apply round_mag_exact; [lia | assumption].
Qed.

End Rounding.

(** ** Agreement with the reference arithmetic

    Addition, subtraction, multiplication, division and the comparisons of
    the model are those of [SpecFloat] on valid floats, hence those of the
    machine. *)

(** *** Rounding depends on the quotient only *)
Section Scaling.
Local Open Scope N_scope.

Lemma mul_compare_l (c x y : N) : c <> 0 -> (c * x ?= c * y) = (x ?= y).
Proof.
  intros Hc. destruct (N.compare_spec x y) as [->|H|H].
  - apply N.compare_refl.
  - apply N.compare_lt_iff. nia.
  - apply N.compare_gt_iff. nia.
Qed.

Lemma rne_div_scale (c n d : N) :
  c <> 0 -> d <> 0 -> rne_div (c * n) (c * d) = rne_div n d.
Proof.
  intros Hc Hd. unfold rne_div.
  rewrite N.Div0.div_mul_cancel_l by assumption.
  rewrite N.Div0.mul_mod_distr_l.
  rewrite N.mul_assoc, (N.mul_comm 2 c), <- N.mul_assoc.
  rewrite mul_compare_l by assumption. reflexivity.
Qed.

Lemma round_mag_scale (c n d : N) :
  c <> 0 -> d <> 0 -> round_mag (c * n) (c * d) = round_mag n d.
Proof.
  intros Hc Hd. unfold round_mag.
  rewrite N.Div0.div_mul_cancel_l by assumption.
  rewrite <- N.mul_assoc, rne_div_scale; auto.
  apply N.neq_mul_0. split; [assumption | apply N.pow_nonzero; lia].
Qed.

(** Two fractions with the same value round alike. *)
Lemma round_mag_ratio (n1 d1 n2 d2 : N) :
  d1 <> 0 -> d2 <> 0 -> n1 * d2 = n2 * d1 -> round_mag n1 d1 = round_mag n2 d2.
Proof.
  intros H1 H2 E.
  rewrite <- (round_mag_scale d2 n1 d1) by assumption.
  rewrite <- (round_mag_scale d1 n2 d2) by assumption.
  now rewrite (N.mul_comm d2 n1), E, (N.mul_comm d1 n2), (N.mul_comm d2 d1).
Qed.

End Scaling.

(** *** The shift to the right of [SpecFloat]

    A shift record with round and sticky bits stands for a quotient [a / b];
    shifting it once stands for [a / (2 * b)]. *)
Section Shifting.
Local Open Scope Z_scope.

Lemma shr_m_of_loc (m : Z) (l : location) : shr_m (shr_record_of_loc m l) = m.
Proof. destruct l as [|[]]; reflexivity. Qed.

Lemma loc_of_of_loc (m : Z) (l : location) :
  loc_of_shr_record (shr_record_of_loc m l) = l.
Proof. destruct l as [|[]]; reflexivity. Qed.

Lemma shr_1_rec (a b : Z) : 0 <= a -> 0 < b -> shr_1 (rec_of a b) = rec_of a (b * 2).
Proof.
  intros Ha Hb. unfold rec_of, loc_of.
  rewrite <- (Z.div_div a b 2) by lia.
  rewrite (Z.rem_mul_r a b 2) by lia.
  pose proof (Z.mod_pos_bound a b Hb) as Hr.
  assert (Hq : 0 <= a / b) by (apply Z.div_pos; lia).
  revert Hr Hq. generalize (a mod b) (a / b). intros r q Hr Hq.
  destruct q as [|[p|p|]|p]; try lia.
  - change (0 / 2) with 0. change (0 mod 2) with 0.
    replace (r + b * 0) with r by lia.
    destruct (Z.eqb_spec r 0) as [->|R0]; [reflexivity|].
    replace (2 * r ?= b * 2) with Lt by (symmetry; apply Z.compare_lt_iff; lia).
    destruct (2 * r ?= b); reflexivity.
  - assert (E : Z.pos p~1 / 2 = Z.pos p /\ Z.pos p~1 mod 2 = 1)
      by (rewrite Pos2Z.inj_xI; Z.div_mod_to_equations; lia).
    destruct E as [-> ->].
    destruct (Z.eqb_spec r 0) as [->|R0].
    + replace (0 + b * 1) with b by lia.
      destruct (Z.eqb_spec b 0); [lia|].
      replace (2 * b ?= b * 2) with Eq by (symmetry; apply Z.compare_eq_iff; lia).
      reflexivity.
    + destruct (Z.eqb_spec (r + b * 1) 0); [lia|].
      replace (2 * (r + b * 1) ?= b * 2) with Gt by (symmetry; apply Z.compare_gt_iff; lia).
      destruct (2 * r ?= b); reflexivity.
  - assert (E : Z.pos p~0 / 2 = Z.pos p /\ Z.pos p~0 mod 2 = 0)
      by (rewrite Pos2Z.inj_xO; Z.div_mod_to_equations; lia).
    destruct E as [-> ->].
    replace (r + b * 0) with r by lia.
    destruct (Z.eqb_spec r 0) as [->|R0]; [reflexivity|].
    replace (2 * r ?= b * 2) with Lt by (symmetry; apply Z.compare_lt_iff; lia).
    destruct (2 * r ?= b); reflexivity.
  - change (1 / 2) with 0. change (1 mod 2) with 1.
    destruct (Z.eqb_spec r 0) as [->|R0].
    + replace (0 + b * 1) with b by lia.
      destruct (Z.eqb_spec b 0); [lia|].
      replace (2 * b ?= b * 2) with Eq by (symmetry; apply Z.compare_eq_iff; lia).
      reflexivity.
    + destruct (Z.eqb_spec (r + b * 1) 0); [lia|].
      replace (2 * (r + b * 1) ?= b * 2) with Gt by (symmetry; apply Z.compare_gt_iff; lia).
      destruct (2 * r ?= b); reflexivity.
Qed.

Lemma pow2_double (n : Z) : 0 <= n -> 2 ^ (2 * n) = 2 ^ n * 2 ^ n.
Proof.
  intros Hn. replace (2 * n) with (n + n) by lia. apply Z.pow_add_r; lia.
Qed.

Lemma pow2_double_succ (n : Z) : 0 <= n -> 2 ^ (2 * n + 1) = 2 * (2 ^ n * 2 ^ n).
Proof.
  intros Hn. rewrite Z.pow_add_r, pow2_double by lia. ring.
Qed.

Lemma iter_pos_shr (p : positive) :
  forall a b, 0 <= a -> 0 < b ->
              iter_pos shr_1 p (rec_of a b) = rec_of a (b * 2 ^ Z.pos p).
Proof.
  induction p as [p IH|p IH|]; intros a b Ha Hb; cbn [iter_pos].
  - rewrite shr_1_rec, IH, IH by (try apply Z.mul_pos_pos; try apply Z.pow_pos_nonneg; lia).
    f_equal. rewrite (Pos2Z.inj_xI p).
    rewrite pow2_double_succ by lia. ring.
  - rewrite IH, IH by (try apply Z.mul_pos_pos; try apply Z.pow_pos_nonneg; lia).
    f_equal. rewrite (Pos2Z.inj_xO p).
    rewrite pow2_double by lia. ring.
  - rewrite shr_1_rec by assumption. reflexivity.
Qed.

(** Shifting [n] times divides by [2 ^ n]. *)
Lemma shr_rec (a b e n : Z) :
  0 <= a -> 0 < b -> 0 <= n ->
  shr (rec_of a b) e n = (rec_of a (b * 2 ^ n), e + n).
Proof.
  intros Ha Hb Hn. unfold shr. destruct n as [|p|p]; try lia.
  - now rewrite Z.pow_0_r, Z.mul_1_r, Z.add_0_r.
  - now rewrite iter_pos_shr.
Qed.

End Shifting.

(** *** Digits and the rounding decision *)
Section Digits.
Local Open Scope Z_scope.

Lemma fexp64 (x : Z) : fexp prec emax x = Z.max (x - 53) (-1074).
Proof. reflexivity. Qed.

Lemma digits2_pos_size (p : positive) : digits2_pos p = Pos.size p.
Proof. induction p; cbn; congruence. Qed.

Lemma Zdigits2_log2 (m : Z) : 0 < m -> Zdigits2 m = Z.log2 m + 1.
Proof.
  destruct m as [|p|p]; try lia. intros _. cbn [Zdigits2].
  rewrite digits2_pos_size. destruct p; cbn [Pos.size Z.log2]; lia.
Qed.

(** [Zdigits2] is the number of binary digits. *)
Lemma Zdigits2_bounds (m : Z) :
  0 < m -> 0 < Zdigits2 m /\ 2 ^ (Zdigits2 m - 1) <= m < 2 ^ Zdigits2 m.
Proof.
  intros Hm. rewrite Zdigits2_log2 by assumption.
  pose proof (Z.log2_spec m Hm). pose proof (Z.log2_nonneg m).
  replace (Z.log2 m + 1 - 1) with (Z.log2 m) by lia.
  replace (Z.log2 m + 1) with (Z.succ (Z.log2 m)) by lia. lia.
Qed.

Lemma Zdigits2_unique (m d : Z) : 2 ^ (d - 1) <= m < 2 ^ d -> 0 < m -> Zdigits2 m = d.
Proof.
  intros H Hm. rewrite Zdigits2_log2 by assumption.
  assert (Hd : 0 < d).
  { destruct (Z.lt_ge_cases 0 d); [assumption|].
    destruct (Z.eq_dec d 0) as [->|]; [cbn in H; lia|].
    rewrite (Z.pow_neg_r 2 d) in H by lia. lia. }
  rewrite (Z.log2_unique m (d - 1)); [lia | lia |].
  now replace (Z.succ (d - 1)) with d by lia.
Qed.

Lemma even_of_N (n : N) : Z.even (Z.of_N n) = N.even n.
Proof. destruct n as [|[p|p|]]; reflexivity. Qed.

(** The decision [round_nearest_even] takes from a location is [rne_div]. *)
Lemma rne_of_rec (a b : N) :
  b <> 0%N ->
  round_nearest_even (Z.of_N a / Z.of_N b) (loc_of (Z.of_N a) (Z.of_N b))
  = Z.of_N (rne_div a b).
Proof.
  intros Hb. unfold rne_div, loc_of, round_nearest_even.
  rewrite <- N2Z.inj_div, <- N2Z.inj_mod.
  change 2 with (Z.of_N 2). rewrite <- N2Z.inj_mul, N2Z.inj_compare.
  change 0 with (Z.of_N 0). rewrite even_of_N.
  pose proof (N.mod_lt a b Hb) as L.
  destruct (Z.eqb_spec (Z.of_N (a mod b)) (Z.of_N 0)) as [E|E].
  - apply N2Z.inj in E. rewrite E.
    replace (2 * 0 ?= b)%N with Lt by (symmetry; apply N.compare_lt_iff; lia).
    reflexivity.
  - destruct (2 * (a mod b) ?= b)%N; [destruct (N.even (a / b))| |];
      rewrite ?N2Z.inj_add; reflexivity.
Qed.

End Digits.

(** *** The steps of [binary_round_aux] *)
Section RoundAux.
Local Open Scope Z_scope.

Lemma rec_of_exact (m : Z) : shr_record_of_loc m loc_Exact = rec_of m 1.
Proof.
  unfold rec_of, loc_of. now rewrite Z.div_1_r, Z.mod_1_r.
Qed.

(** The first shift and the rounding leave [rne_div] of the quotient at the
    exponent [fexp] chooses. *)
Lemma binary_round_aux_steps (s : bool) (a b : N) (e : Z) :
  b <> 0%N ->
  let m := Z.of_N a / Z.of_N b in
  let e1 := fexp prec emax (Zdigits2 m + e) in
  e <= e1 ->
  binary_round_aux prec emax s m e (loc_of (Z.of_N a) (Z.of_N b))
  = finish s (Z.of_N (rne_div a (b * 2 ^ Z.to_N (e1 - e)))) e1.
Proof.
  intros Hb m e1 He. unfold binary_round_aux, finish, shr_fexp at 1.
  fold m. fold e1.
  change (shr_record_of_loc m (loc_of (Z.of_N a) (Z.of_N b)))
    with (rec_of (Z.of_N a) (Z.of_N b)).
  rewrite shr_rec by lia.
  replace (e + (e1 - e)) with e1 by lia.
  unfold rec_of at 1 2. rewrite shr_m_of_loc, loc_of_of_loc.
  replace (Z.of_N b * 2 ^ (e1 - e)) with (Z.of_N (b * 2 ^ Z.to_N (e1 - e))).
  - rewrite rne_of_rec; [reflexivity|].
    apply N.neq_mul_0. split; [assumption | apply N.pow_nonzero; lia].
  - rewrite N2Z.inj_mul, N2Z.inj_pow, Z2N.id by lia. reflexivity.
Qed.

Lemma pow2_pos (n : Z) : 0 <= n -> 0 < 2 ^ n.
Proof. intros. apply Z.pow_pos_nonneg; lia. Qed.

Lemma below_overflow (m k : Z) :
  0 < m < 2 ^ 53 -> 0 <= k <= 2045 -> m * 2 ^ k < 2 ^ 2098.
Proof.
  intros Hm Hk. apply Z.lt_le_trans with (2 ^ 53 * 2 ^ k).
  - apply Z.mul_lt_mono_pos_r; [apply pow2_pos|]; lia.
  - rewrite <- Z.pow_add_r by lia. apply Z.pow_le_mono_r; lia.
Qed.

Lemma above_overflow (m k : Z) :
  2 ^ 52 <= m -> 2045 < k -> 2 ^ 2098 <= m * 2 ^ k.
Proof.
  intros Hm Hk. apply Z.le_trans with (2 ^ 52 * 2 ^ k).
  - rewrite <- Z.pow_add_r by lia. apply Z.pow_le_mono_r; lia.
  - apply Z.mul_le_mono_nonneg_r; [apply Z.pow_nonneg; lia | assumption].
Qed.

Lemma carry_overflow (k : Z) :
  0 <= k -> (2 ^ 53 * 2 ^ k <? 2 ^ 2098) = (k <=? 2044).
Proof.
  intros Hk. rewrite <- Z.pow_add_r by lia.
  destruct (Z.leb_spec k 2044).
  - apply Z.ltb_lt, Z.pow_lt_mono_r; lia.
  - apply Z.ltb_ge, Z.pow_le_mono_r; lia.
Qed.

(** The end of [binary_round_aux]: a rounded significand up to [2 ^ 53] at
    an exponent within range is renormalised and tested for overflow as the
    model does. *)
Lemma finish_correct (s : bool) (m e : Z) :
  0 <= m <= 2 ^ 53 -> -1074 <= e -> (e = -1074 \/ 2 ^ 52 <= m) ->
  of_spec (finish s m e)
  = if m * 2 ^ (e + 1074) <? 2 ^ 2098
    then Fin s (Z.to_N (m * 2 ^ (e + 1074)))
    else Inf s.
Proof.
  intros Hm He Hn. unfold finish, shr_fexp.
  rewrite rec_of_exact, fexp64. change (emax - prec) with 971.
  destruct (Z.eq_dec m 0) as [->|Hm0].
  - (* the rounding gave zero *)
    cbn [Zdigits2]. unfold shr.
    destruct (Z.max (0 + e - 53) (-1074) - e) eqn:E; try lia;
      unfold rec_of; rewrite shr_m_of_loc; reflexivity.
  - destruct (Z.eq_dec m (2 ^ 53)) as [->|Hm53].
    + (* the rounding carried into a new binade *)
      replace (Zdigits2 (2 ^ 53)) with 54 by reflexivity.
      replace (Z.max (54 + e - 53) (-1074) - e) with 1 by lia.
      rewrite shr_rec by lia.
      unfold rec_of. rewrite shr_m_of_loc.
      replace (2 ^ 53 / (1 * 2 ^ 1)) with (2 ^ 52) by reflexivity.
      change (2 ^ 52) with (Z.pos (2 ^ 52)) at 1. cbv iota.
      assert (Hv : Z.pos (2 ^ 52) * 2 ^ (e + 1 + 1074) = 2 ^ 53 * 2 ^ (e + 1074)).
      { replace (e + 1 + 1074) with (1 + (e + 1074)) by lia.
        rewrite Z.pow_add_r by lia.
        change (Z.pos (2 ^ 52)) with (2 ^ 52). change (2 ^ 53) with (2 ^ 52 * 2 ^ 1). ring. }
      rewrite carry_overflow by lia.
      destruct (Z.leb_spec (e + 1) 971), (Z.leb_spec (e + 1074) 2044);
        try lia; cbn [of_spec]; rewrite ?Hv; reflexivity.
    + (* no renormalisation is needed *)
      assert (Hpos : 0 < m) by lia.
      destruct (Zdigits2_bounds m Hpos) as [Hd0 Hd].
      assert (Hd53 : Zdigits2 m <= 53).
      { destruct (Z.le_gt_cases (Zdigits2 m) 53); [assumption|].
        assert (2 ^ 53 <= 2 ^ (Zdigits2 m - 1)) by (apply Z.pow_le_mono_r; lia). lia. }
      assert (Hsh : Z.max (Zdigits2 m + e - 53) (-1074) - e <= 0) by lia.
      unfold shr.
      destruct (Z.max (Zdigits2 m + e - 53) (-1074) - e) eqn:E; try lia;
        unfold rec_of; rewrite shr_m_of_loc, Z.div_1_r;
        destruct m as [|q|q]; try lia;
        destruct (Z.leb_spec e 971) as [L|G].
      all: first
        [ rewrite (proj2 (Z.ltb_lt _ _)) by (apply below_overflow; lia); reflexivity
        | rewrite (proj2 (Z.ltb_ge _ _)) by (apply above_overflow; lia); reflexivity ].
Qed.

End RoundAux.

(** *** The exponent the model chooses *)
Section Exponent.
Local Open Scope N_scope.

Lemma rne_div_ratio (n1 d1 n2 d2 : N) :
  d1 <> 0 -> d2 <> 0 -> n1 * d2 = n2 * d1 -> rne_div n1 d1 = rne_div n2 d2.
Proof.
  intros H1 H2 E.
  rewrite <- (rne_div_scale d2 n1 d1) by assumption.
  rewrite <- (rne_div_scale d1 n2 d2) by assumption.
  now rewrite (N.mul_comm d2 n1), E, (N.mul_comm d1 n2), (N.mul_comm d2 d1).
Qed.

(** [round_mag] rounds to the multiples of [2 ^ j] when the quotient is in
    the binade of exponent [j] (or below [2 ^ 53] units, for [j = 0]). *)
Lemma round_mag_with (n d j : N) :
  d <> 0 ->
  (j = 0 /\ n < 2 ^ 53 * d) \/ (2 ^ (52 + j) * d <= n < 2 ^ (53 + j) * d) ->
  round_mag n d
  = if rne_div n (d * 2 ^ j) * 2 ^ j <? 2 ^ 2098
    then Some (rne_div n (d * 2 ^ j) * 2 ^ j) else None.
Proof.
  intros Hd H. unfold round_mag.
  assert (E : N.log2 (n / d) - 52 = j).
  { destruct H as [[-> H]|[Hlo Hhi]].
    - assert (T : n / d < 2 ^ 53)
        by (apply N.Div0.div_lt_upper_bound; now rewrite N.mul_comm).
      revert T. generalize (n / d). intros t T.
      destruct (N.eq_dec t 0) as [->|T0]; [reflexivity|].
      assert (T1 : 0 < t) by lia.
      pose proof (proj1 (N.log2_lt_pow2 t 53 T1) T). lia.
    - rewrite (N.log2_unique (n / d) (52 + j)); [lia | lia |]. split.
      + apply N.div_le_lower_bound; [assumption | now rewrite N.mul_comm].
      + replace (N.succ (52 + j)) with (53 + j) by lia.
        apply N.Div0.div_lt_upper_bound. now rewrite N.mul_comm. }
  rewrite E. reflexivity.
Qed.

End Exponent.

(** *** The arithmetic that relates the two choices of exponent

    [a / b] has [d] digits; it is scaled by [2 ^ ep / 2 ^ em]; [j] is the
    exponent of the model and [sh] the shift of [SpecFloat]. *)
Section Heart.
Local Open Scope N_scope.

Variables a b d ep em sh j : N.
Hypothesis Hb : b <> 0.
Hypothesis Hup : a < 2 ^ d * b.
Hypothesis Hlo : d <> 0 -> 2 ^ (d - 1) * b <= a.
Hypothesis Hj : j = d + ep - (53 + em).
Hypothesis Hsh : sh + ep = j + em.

Lemma heart_cross : a * 2 ^ ep * (b * 2 ^ sh) = a * (b * 2 ^ em * 2 ^ j).
Proof.
  assert (E : 2 ^ ep * 2 ^ sh = 2 ^ em * 2 ^ j).
  { rewrite <- !N.pow_add_r. f_equal. lia. }
  nia.
Qed.

Lemma heart_upper : a <= 2 ^ 53 * (b * 2 ^ sh).
Proof.
  assert (E : 2 ^ d <= 2 ^ (53 + sh)) by (apply N.pow_le_mono_r; lia).
  rewrite N.pow_add_r in E. nia.
Qed.

Lemma heart_normal : j <> 0 -> 2 ^ 52 * (b * 2 ^ sh) <= a.
Proof.
  intros J0. assert (D : d <> 0) by lia. specialize (Hlo D).
  replace (d - 1) with (52 + sh) in Hlo by lia.
  rewrite N.pow_add_r in Hlo. nia.
Qed.

Lemma heart_binade :
  (j = 0 /\ a * 2 ^ ep < 2 ^ 53 * (b * 2 ^ em))
  \/ (2 ^ (52 + j) * (b * 2 ^ em) <= a * 2 ^ ep < 2 ^ (53 + j) * (b * 2 ^ em)).
Proof.
  assert (P : 0 < 2 ^ ep) by (apply N.neq_0_lt_0, N.pow_nonzero; lia).
  destruct (N.eq_dec j 0) as [J0|J0].
  - left. split; [assumption|].
    assert (E : 2 ^ (d + ep) <= 2 ^ (53 + em)) by (apply N.pow_le_mono_r; lia).
    rewrite !N.pow_add_r in E. nia.
  - right. assert (D : d <> 0) by lia. specialize (Hlo D). split.
    + replace (52 + j) with (d - 1 + ep - em) by lia.
      assert (E : 2 ^ (d - 1 + ep - em) * 2 ^ em = 2 ^ (d - 1) * 2 ^ ep).
      { rewrite <- !N.pow_add_r. f_equal. lia. }
      nia.
    + assert (E : 2 ^ (53 + j) * 2 ^ em = 2 ^ d * 2 ^ ep).
      { rewrite <- !N.pow_add_r. f_equal. lia. }
      nia.
Qed.

End Heart.

(** *** [binary_round_aux] rounds as the model does *)
Section RoundAuxCorrect.
Local Open Scope Z_scope.

Lemma ltb_of_N (x y : N) : (Z.of_N x <? Z.of_N y) = (x <? y)%N.
Proof. unfold Z.ltb, N.ltb. now rewrite N2Z.inj_compare. Qed.

Lemma floor_bounds (a b : N) :
  b <> 0%N ->
  let m := Z.of_N a / Z.of_N b in
  let d := Z.to_N (Zdigits2 m) in
  (a < 2 ^ d * b)%N /\ (d <> 0%N -> 2 ^ (d - 1) * b <= a)%N.
Proof.
  intros Hb m d.
  assert (Hzb : 0 < Z.of_N b) by lia.
  pose proof (Z.div_mod (Z.of_N a) (Z.of_N b) ltac:(lia)) as E.
  pose proof (Z.mod_pos_bound (Z.of_N a) (Z.of_N b) Hzb) as R.
  fold m in E.
  assert (Hm : 0 <= m) by (apply Z.div_pos; lia).
  destruct (Z.eq_dec m 0) as [M0|M0].
  - subst d. rewrite M0 in *. cbn [Zdigits2 Z.to_N]. split; [|congruence].
    rewrite N.pow_0_r. lia.
  - destruct (Zdigits2_bounds m ltac:(lia)) as [D0 [Dlo Dhi]].
    assert (Ed : Z.of_N d = Zdigits2 m) by (subst d; rewrite Z2N.id; lia).
    split.
    + apply N2Z.inj_lt. rewrite N2Z.inj_mul, N2Z.inj_pow, Ed.
      change (Z.of_N 2) with 2. nia.
    + intros _. apply N2Z.inj_le. rewrite N2Z.inj_mul, N2Z.inj_pow, N2Z.inj_sub by lia.
      rewrite Ed. change (Z.of_N 2) with 2. change (Z.of_N 1) with 1. nia.
Qed.

(** The rounding of [SpecFloat], from a quotient [a / b] given by its floor
    and its location, at an exponent [e] not above the one [fexp] chooses, is
    [of_mag] of that quotient scaled by [2 ^ (e + 1074)]. *)
Lemma binary_round_aux_correct (s : bool) (a b : N) (e : Z) :
  b <> 0%N ->
  e <= fexp prec emax (Zdigits2 (Z.of_N a / Z.of_N b) + e) ->
  of_spec (binary_round_aux prec emax s (Z.of_N a / Z.of_N b) e
             (loc_of (Z.of_N a) (Z.of_N b)))
  = of_mag s (a * 2 ^ Z.to_N (e + 1074)) (b * 2 ^ Z.to_N (- (e + 1074))).
Proof.
  intros Hb He.
  rewrite (binary_round_aux_steps s a b e Hb He).
  destruct (floor_bounds a b Hb) as [Hup Hlo].
  set (m := Z.of_N a / Z.of_N b) in *.
  assert (Hm : 0 <= m) by (apply Z.div_pos; lia).
  assert (Hd : 0 <= Zdigits2 m).
  { destruct m as [|p|p]; cbn; lia. }
  set (d := Z.to_N (Zdigits2 m)) in *.
  rewrite fexp64 in *.
  set (e1 := Z.max (Zdigits2 m + e - 53) (-1074)) in *.
  set (ep := Z.to_N (e + 1074)).
  set (em := Z.to_N (- (e + 1074))).
  set (sh := Z.to_N (e1 - e)).
  set (j := Z.to_N (e1 + 1074)).
  assert (Hj : (j = d + ep - (53 + em))%N) by lia.
  assert (Hsh : (sh + ep = j + em)%N) by lia.
  assert (Hden : (b * 2 ^ sh)%N <> 0%N).
  { apply N.neq_mul_0. split; [assumption | apply N.pow_nonzero; lia]. }
  assert (Hden' : (b * 2 ^ em)%N <> 0%N).
  { apply N.neq_mul_0. split; [assumption | apply N.pow_nonzero; lia]. }
  set (m2 := rne_div a (b * 2 ^ sh)).
  assert (Hm2 : (m2 <= 2 ^ 53)%N).
  { apply rne_div_le; [assumption|]. apply (heart_upper a b d ep em sh j); assumption. }
  assert (Hnorm : j <> 0%N -> (2 ^ 52 <= m2)%N).
  { intros J0. apply rne_div_ge; [assumption|].
    apply (heart_normal a b d ep em sh j); assumption. }
  rewrite finish_correct.
  - unfold of_mag.
    rewrite (round_mag_with (a * 2 ^ ep) (b * 2 ^ em) j Hden')
      by (apply (heart_binade a b d ep em sh j); assumption).
    assert (Hden'' : (b * 2 ^ em * 2 ^ j)%N <> 0%N).
    { apply N.neq_mul_0. split; [assumption | apply N.pow_nonzero; lia]. }
    rewrite (rne_div_ratio (a * 2 ^ ep) (b * 2 ^ em * 2 ^ j) a (b * 2 ^ sh) Hden'' Hden)
      by (apply (heart_cross a b d ep em sh j); assumption).
    fold m2.
    assert (Ek : Z.of_N m2 * 2 ^ (e1 + 1074) = Z.of_N (m2 * 2 ^ j)).
    { rewrite N2Z.inj_mul, N2Z.inj_pow. subst j. rewrite Z2N.id by lia. reflexivity. }
    rewrite Ek.
    change (2 ^ 2098) with (Z.of_N (2 ^ 2098)). rewrite ltb_of_N.
    destruct (m2 * 2 ^ j <? 2 ^ 2098)%N; [now rewrite N2Z.id | reflexivity].
  - split; [lia|]. change (2 ^ 53) with (Z.of_N (2 ^ 53)). lia.
  - lia.
  - destruct (Z.eq_dec e1 (-1074)) as [E|E]; [now left | right].
    change (2 ^ 52) with (Z.of_N (2 ^ 52)). apply N2Z.inj_le, Hnorm. lia.
Qed.

End RoundAuxCorrect.

(** *** Valid floats *)
Section Valid.
Local Open Scope Z_scope.

Lemma of_spec_finite (s : bool) (m : positive) (e : Z) :
  -1074 <= e -> of_spec (S754_finite s m e) = Fin s (mag m e).
Proof.
  intros He. unfold of_spec, mag. f_equal.
  rewrite Z2N.inj_mul, Z2N.inj_pow by (try apply Z.pow_nonneg; lia). reflexivity.
Qed.

Lemma mag_pos (m : positive) (e : Z) : mag m e <> 0%N.
Proof.
  unfold mag. apply N.neq_mul_0. split; [discriminate | apply N.pow_nonzero; lia].
Qed.

(** What [bounded] says of a significand and an exponent. *)
Lemma bounded_inv (m : positive) (e : Z) :
  bounded prec emax m e = true ->
  -1074 <= e <= 971
  /\ Zdigits2 (Z.pos m) <= 53
  /\ (e = -1074 \/ 2 ^ 52 <= Z.pos m).
Proof.
  unfold bounded, canonical_mantissa. rewrite andb_true_iff, Z.eqb_eq, Z.leb_le, fexp64.
  change (emax - prec) with 971. change (Z.pos (digits2_pos m)) with (Zdigits2 (Z.pos m)).
  intros [E L].
  destruct (Zdigits2_bounds (Z.pos m) ltac:(lia)) as (D0 & Dlo & Dhi).
  repeat split; try lia.
  destruct (Z.eq_dec e (-1074)) as [|N]; [now left | right].
  replace (Zdigits2 (Z.pos m) - 1) with 52 in Dlo by lia. assumption.
Qed.

Lemma digits_ge_53 (m : Z) : 2 ^ 52 <= m -> 53 <= Zdigits2 m.
Proof.
  intros H. destruct (Zdigits2_bounds m ltac:(lia)) as (D0 & Dlo & Dhi).
  destruct (Z.le_gt_cases 53 (Zdigits2 m)); [assumption|].
  assert (2 ^ Zdigits2 m <= 2 ^ 52) by (apply Z.pow_le_mono_r; lia). lia.
Qed.

Lemma mag_representable (m : positive) (e : Z) :
  bounded prec emax m e = true -> representable (mag m e).
Proof.
  intros B. destruct (bounded_inv m e B) as (He & Hd & _).
  exists (N.pos m), (Z.to_N (e + 1074)). split; [|split; [lia | reflexivity]].
  destruct (Zdigits2_bounds (Z.pos m) ltac:(lia)) as (D0 & Dlo & Dhi).
  assert (2 ^ Zdigits2 (Z.pos m) <= 2 ^ 53) by (apply Z.pow_le_mono_r; lia).
  apply N2Z.inj_lt. change (Z.of_N (2 ^ 53)) with (2 ^ 53). cbn [Z.of_N]. lia.
Qed.

(** [binary_round_aux] on an exact integer significand. *)
Lemma binary_round_aux_exact (s : bool) (m : N) (e : Z) :
  e <= fexp prec emax (Zdigits2 (Z.of_N m) + e) ->
  of_spec (binary_round_aux prec emax s (Z.of_N m) e loc_Exact)
  = of_mag s (m * 2 ^ Z.to_N (e + 1074)) (2 ^ Z.to_N (- (e + 1074))).
Proof.
  intros He.
  pose proof (binary_round_aux_correct s m 1 e ltac:(discriminate)) as H.
  change (Z.of_N 1) with 1 in H. rewrite Z.div_1_r in H.
  unfold loc_of in H. rewrite Z.mod_1_r in H. cbn [Z.eqb] in H.
  rewrite N.mul_1_l in H. now apply H.
Qed.

End Valid.

(** *** Multiplication *)
Section Multiplication.
Local Open Scope Z_scope.

Lemma round_mag_zero (d : N) : d <> 0%N -> round_mag 0 d = Some 0%N.
Proof.
  intros Hd. rewrite <- (N.mul_0_l d).
  apply round_mag_exact; [assumption|].
  exists 0%N, 0%N. repeat split; discriminate.
Qed.

Lemma of_mag_ratio (s : bool) (n1 d1 n2 d2 : N) :
  d1 <> 0%N -> d2 <> 0%N -> (n1 * d2 = n2 * d1)%N -> of_mag s n1 d1 = of_mag s n2 d2.
Proof.
  intros H1 H2 E. unfold of_mag. now rewrite (round_mag_ratio n1 d1 n2 d2).
Qed.

Lemma ulps_nonzero : ulps <> 0%N.
Proof. discriminate. Qed.

Lemma fmul_finite (sx sy : bool) (mx my : positive) (ex ey : Z) :
  bounded prec emax mx ex = true -> bounded prec emax my ey = true ->
  of_spec (SF64mul (S754_finite sx mx ex) (S754_finite sy my ey))
  = fmul (Fin sx (mag mx ex)) (Fin sy (mag my ey)).
Proof.
  intros Bx By.
  destruct (bounded_inv mx ex Bx) as (Hex & Hdx & Hnx).
  destruct (bounded_inv my ey By) as (Hey & Hdy & Hny).
  unfold SF64mul, SFmul, fmul.
  change (Z.pos (mx * my)) with (Z.of_N (N.pos (mx * my))).
  rewrite binary_round_aux_exact.
  - apply of_mag_ratio; [apply N.pow_nonzero; lia | apply ulps_nonzero |].
    unfold mag, ulps.
    set (ep := Z.to_N (ex + ey + 1074)). set (em := Z.to_N (- (ex + ey + 1074))).
    set (px := Z.to_N (ex + 1074)). set (py := Z.to_N (ey + 1074)).
    assert (E : (2 ^ ep * 2 ^ 1074 = 2 ^ px * 2 ^ py * 2 ^ em)%N).
    { rewrite <- !N.pow_add_r. f_equal. lia. }
    change (N.pos (mx * my)) with (N.pos mx * N.pos my)%N. nia.
  - rewrite fexp64. cbn [Z.of_N].
    destruct Hnx as [Ex|Nx]; [destruct Hny as [Ey|Ny]|]; [lia | |].
    + assert (53 <= Zdigits2 (Z.pos (mx * my))); [|lia].
      apply digits_ge_53. rewrite Pos2Z.inj_mul. nia.
    + assert (53 <= Zdigits2 (Z.pos (mx * my))); [|lia].
      apply digits_ge_53. rewrite Pos2Z.inj_mul. nia.
Qed.

End Multiplication.

(** *** Normalisation of an integer significand *)
Section Addition.
Local Open Scope Z_scope.

Lemma iter_xO (m d : positive) : Z.pos (Pos.iter xO m d) = Z.pos m * 2 ^ Z.pos d.
Proof.
  induction d as [|d IH] using Pos.peano_ind.
  - cbn [Pos.iter]. rewrite Pos2Z.inj_xO, Z.pow_1_r. lia.
  - rewrite Pos.iter_succ, Pos2Z.inj_xO, IH, Pos2Z.inj_succ, Z.pow_succ_r by lia. ring.
Qed.

Lemma shl_align_spec (m : positive) (e e' : Z) :
  e' <= e ->
  shl_align m e e' = (fst (shl_align m e e'), e')
  /\ Z.pos (fst (shl_align m e e')) = Z.pos m * 2 ^ (e - e').
Proof.
  intros H. unfold shl_align. destruct (e' - e) as [|p|p] eqn:E; try lia; cbn [fst].
  - assert (e' = e) by lia. subst e'. rewrite Z.sub_diag, Z.pow_0_r. split; [reflexivity | lia].
  - split; [reflexivity|]. rewrite iter_xO. f_equal. f_equal. lia.
Qed.

Lemma Zdigits2_shift (m : Z) (k : Z) :
  0 < m -> 0 <= k -> Zdigits2 (m * 2 ^ k) = Zdigits2 m + k.
Proof.
  intros Hm Hk. destruct (Zdigits2_bounds m Hm) as (D0 & Dlo & Dhi).
  assert (P : 0 < 2 ^ k) by (apply Z.pow_pos_nonneg; lia).
  apply Zdigits2_unique; [|nia].
  replace (Zdigits2 m + k - 1) with (Zdigits2 m - 1 + k) by lia.
  rewrite !Z.pow_add_r by lia. nia.
Qed.

Lemma binary_round_correct (s : bool) (m : positive) (e : Z) :
  of_spec (binary_round prec emax s m e)
  = of_mag s (N.pos m * 2 ^ Z.to_N (e + 1074)) (2 ^ Z.to_N (- (e + 1074))).
Proof.
  unfold binary_round.
  change (Z.pos (digits2_pos m)) with (Zdigits2 (Z.pos m)).
  set (f := fexp prec emax (Zdigits2 (Z.pos m) + e)).
  destruct (Z.le_gt_cases e f) as [L|G].
  - (* nothing to shift *)
    assert (E : shl_align m e f = (m, e)).
    { unfold shl_align. destruct (f - e) eqn:E'; try lia; reflexivity. }
    rewrite E. change (Z.pos m) with (Z.of_N (N.pos m)).
    apply binary_round_aux_exact. exact L.
  - destruct (shl_align_spec m e f ltac:(lia)) as [E V].
    rewrite E. set (mz := fst (shl_align m e f)) in *.
    change (Z.pos mz) with (Z.of_N (N.pos mz)).
    rewrite binary_round_aux_exact.
    + apply of_mag_ratio; try (apply N.pow_nonzero; lia).
      assert (Vn : N.pos mz = (N.pos m * 2 ^ Z.to_N (e - f))%N).
      { apply N2Z.inj. rewrite N2Z.inj_mul, N2Z.inj_pow, Z2N.id by lia. exact V. }
      rewrite Vn.
      assert (Hf : -1074 <= f) by (subst f; rewrite fexp64; lia).
      assert (P : (2 ^ Z.to_N (e - f) * 2 ^ Z.to_N (f + 1074) * 2 ^ Z.to_N (- (e + 1074))
                   = 2 ^ Z.to_N (e + 1074) * 2 ^ Z.to_N (- (f + 1074)))%N).
      { rewrite <- !N.pow_add_r. f_equal. lia. }
      nia.
    + cbn [Z.of_N]. rewrite V, Zdigits2_shift by lia.
      replace (Zdigits2 (Z.pos m) + (e - f) + f) with (Zdigits2 (Z.pos m) + e) by lia.
      fold f. lia.
Qed.

Lemma binary_normalize_correct (z e : Z) (s0 : bool) :
  -1074 <= e -> z <> 0 ->
  of_spec (binary_normalize prec emax z e s0)
  = of_mag (z <? 0) (Z.abs_N z * 2 ^ Z.to_N (e + 1074)) 1.
Proof.
  intros He Hz. unfold binary_normalize.
  replace (Z.to_N (- (e + 1074))) with 0%N in * by lia.
  destruct z as [|p|p]; [congruence | |];
    rewrite binary_round_correct;
    replace (Z.to_N (- (e + 1074))) with 0%N by lia; reflexivity.
Qed.

End Addition.

(** *** Addition, subtraction and the multiplication theorem *)
Section AdditionOps.
Local Open Scope Z_scope.

Lemma signed_mag (s : bool) (m : positive) (e ez : Z) :
  -1074 <= ez <= e ->
  signed s (mag m e) = cond_Zopp s (Z.pos m * 2 ^ (e - ez)) * 2 ^ (ez + 1074).
Proof.
  intros H. unfold signed, mag, cond_Zopp.
  rewrite N2Z.inj_mul, N2Z.inj_pow, Z2N.id by lia. cbn [Z.of_N].
  replace (e + 1074) with ((e - ez) + (ez + 1074)) by lia.
  rewrite Z.pow_add_r by lia. destruct s; ring.
Qed.

Lemma fadd_finite (sx sy : bool) (mx my : positive) (ex ey : Z) :
  -1074 <= ex -> -1074 <= ey ->
  of_spec (SF64add (S754_finite sx mx ex) (S754_finite sy my ey))
  = fadd (Fin sx (mag mx ex)) (Fin sy (mag my ey)).
Proof.
  intros Hex Hey. unfold SF64add, SFadd, fadd.
  set (ez := Z.min ex ey).
  destruct (shl_align_spec mx ex ez ltac:(lia)) as [_ Vx].
  destruct (shl_align_spec my ey ez ltac:(lia)) as [_ Vy].
  rewrite Vx, Vy.
  rewrite (signed_mag sx mx ex ez), (signed_mag sy my ey ez) by lia.
  set (ax := Z.pos mx * 2 ^ (ex - ez)). set (ay := Z.pos my * 2 ^ (ey - ez)).
  assert (Hax : 0 < ax) by (apply Z.mul_pos_pos; [lia | apply Z.pow_pos_nonneg; lia]).
  assert (Hay : 0 < ay) by (apply Z.mul_pos_pos; [lia | apply Z.pow_pos_nonneg; lia]).
  set (z := cond_Zopp sx ax + cond_Zopp sy ay).
  assert (P : 0 < 2 ^ (ez + 1074)) by (apply Z.pow_pos_nonneg; lia).
  replace (cond_Zopp sx ax * 2 ^ (ez + 1074) + cond_Zopp sy ay * 2 ^ (ez + 1074))
    with (z * 2 ^ (ez + 1074)) by (subst z; ring).
  destruct (Z.eq_dec z 0) as [Z0|Z0].
  - rewrite Z0. cbn [Z.mul Z.eqb binary_normalize of_spec]. f_equal.
    subst z. destruct sx, sy; cbn [cond_Zopp andb] in *; try reflexivity; lia.
  - rewrite binary_normalize_correct by lia.
    destruct (Z.eqb_spec (z * 2 ^ (ez + 1074)) 0) as [E|E]; [nia|].
    f_equal.
    + destruct (Z.ltb_spec z 0), (Z.ltb_spec (z * 2 ^ (ez + 1074)) 0); try reflexivity; nia.
    + apply N2Z.inj. rewrite N2Z.inj_mul, N2Z.inj_pow, !N2Z.inj_abs_N, Z2N.id by lia.
      change (Z.of_N 2) with 2. rewrite Z.abs_mul. f_equal. lia.
Qed.

Lemma fadd_zero_l (s s' : bool) (k : N) :
  k <> 0%N -> representable k -> fadd (Fin s 0) (Fin s' k) = Fin s' k.
Proof.
  intros Hk R. unfold fadd, signed.
  replace (if s then - Z.of_N 0 else Z.of_N 0) with 0 by (destruct s; reflexivity).
  rewrite Z.add_0_l.
  destruct (Z.eqb_spec (if s' then - Z.of_N k else Z.of_N k) 0) as [E|E];
    [destruct s'; lia|].
  unfold of_mag.
  replace (Z.abs_N (if s' then - Z.of_N k else Z.of_N k)) with k
    by (apply N2Z.inj; rewrite N2Z.inj_abs_N; destruct s'; lia).
  rewrite round_mag_integral by assumption.
  f_equal. destruct s'; [apply Z.ltb_lt | apply Z.ltb_ge]; lia.
Qed.

Lemma fadd_zero_r (s s' : bool) (k : N) :
  k <> 0%N -> representable k -> fadd (Fin s' k) (Fin s 0) = Fin s' k.
Proof.
  intros Hk R. rewrite <- (fadd_zero_l s s' k Hk R) at 2.
  unfold fadd. rewrite Z.add_comm, andb_comm. reflexivity.
Qed.

Lemma of_spec_valid_finite (s : bool) (m : positive) (e : Z) :
  valid_binary (S754_finite s m e) = true ->
  of_spec (S754_finite s m e) = Fin s (mag m e)
  /\ -1074 <= e /\ representable (mag m e).
Proof.
  cbn [SpecFloat.valid_binary]. intros B.
  destruct (bounded_inv m e B) as (He & _).
  split; [apply of_spec_finite; lia | split; [lia | now apply mag_representable]].
Qed.

(** The addition of the model is [SF64add]. *)
Theorem fadd_SF64add (x y : spec_float) :
  valid_binary x = true -> valid_binary y = true ->
  of_spec (SF64add x y) = fadd (of_spec x) (of_spec y).
Proof.
  intros Vx Vy.
  destruct x as [sx|sx| |sx mx ex], y as [sy|sy| |sy my ey];
    try (destruct (of_spec_valid_finite _ _ _ Vx) as (-> & Hex & Rx));
    try (destruct (of_spec_valid_finite _ _ _ Vy) as (-> & Hey & Ry));
    try reflexivity.
  - destruct sx, sy; reflexivity.
  - cbn [of_spec]. rewrite fadd_zero_l by (try apply mag_pos; assumption).
    cbn [SF64add SFadd]. now apply of_spec_finite.
  - destruct sx, sy; reflexivity.
  - cbn [of_spec]. rewrite fadd_zero_r by (try apply mag_pos; assumption).
    cbn [SF64add SFadd]. now apply of_spec_finite.
  - now rewrite fadd_finite.
Qed.

Lemma SFsub_add (x y : spec_float) :
  SF64sub x y = SF64add x (SFopp y).
Proof.
  destruct x as [sx|sx| |sx mx ex], y as [sy|sy| |sy my ey]; try reflexivity;
    destruct sx, sy; reflexivity.
Qed.

Lemma of_spec_opp (y : spec_float) : of_spec (SFopp y) = fneg (of_spec y).
Proof. destruct y; reflexivity. Qed.

Lemma valid_opp (y : spec_float) : valid_binary (SFopp y) = valid_binary y.
Proof. destruct y; reflexivity. Qed.

(** The subtraction of the model is [SF64sub]. *)
Theorem fsub_SF64sub (x y : spec_float) :
  valid_binary x = true -> valid_binary y = true ->
  of_spec (SF64sub x y) = fsub (of_spec x) (of_spec y).
Proof.
  intros Vx Vy. unfold fsub.
  rewrite SFsub_add, fadd_SF64add, of_spec_opp; auto.
  now rewrite valid_opp.
Qed.

(** The multiplication of the model is [SF64mul]. *)
Theorem fmul_SF64mul (x y : spec_float) :
  valid_binary x = true -> valid_binary y = true ->
  of_spec (SF64mul x y) = fmul (of_spec x) (of_spec y).
Proof.
  intros Vx Vy.
  destruct x as [sx|sx| |sx mx ex], y as [sy|sy| |sy my ey];
    try (destruct (of_spec_valid_finite _ _ _ Vx) as (Ex & Hex & Rx));
    try (destruct (of_spec_valid_finite _ _ _ Vy) as (Ey & Hey & Ry));
    try reflexivity.
  - rewrite Ey. cbn [of_spec fmul SF64mul SFmul].
    destruct (N.eqb_spec (mag my ey) 0) as [E|E]; [now apply mag_pos in E | reflexivity].
  - rewrite Ex. cbn [of_spec fmul SF64mul SFmul]. unfold of_mag.
    rewrite N.mul_0_r. now rewrite round_mag_zero by apply ulps_nonzero.
  - rewrite Ex. cbn [of_spec fmul SF64mul SFmul].
    destruct (N.eqb_spec (mag mx ex) 0) as [E|E]; [now apply mag_pos in E|].
    now rewrite xorb_comm.
  - rewrite Ex, Ey. now apply fmul_finite.
Qed.

End AdditionOps.

(** *** Division *)
Section Division.
Local Open Scope Z_scope.

(** The location [SFdiv] computes from the remainder. *)
Lemma new_location_loc (nb k : Z) :
  0 < nb -> 0 <= k < nb ->
  new_location nb k = if k =? 0 then loc_Exact else loc_Inexact (2 * k ?= nb).
Proof.
  intros Hnb Hk. unfold new_location, new_location_even, new_location_odd.
  destruct (Z.even nb) eqn:Ev; [reflexivity|].
  destruct (Z.eqb_spec k 0) as [K|K]; [reflexivity|]. f_equal.
  assert (Od : Z.odd nb = true) by (rewrite <- Z.negb_even, Ev; reflexivity).
  apply Z.odd_spec in Od. destruct Od as [c Hc].
  destruct (Z.compare_spec (2 * k + 1) nb), (Z.compare_spec (2 * k) nb);
    try reflexivity; lia.
Qed.

Lemma shift_match (m s : Z) :
  0 <= s ->
  match s with Z.pos _ => Z.shiftl m s | 0 => m | Z.neg _ => 0 end = m * 2 ^ s.
Proof.
  intros Hs. destruct s as [|p|p]; try lia.
  now rewrite Z.shiftl_mul_pow2 by lia.
Qed.

Lemma fdiv_nonzero (a b : bool) (j k : N) :
  k <> 0%N -> fdiv (Fin a j) (Fin b k) = Ok (of_mag (xorb a b) (j * ulps) k).
Proof. intros Hk. destruct k; [congruence | reflexivity]. Qed.

Lemma fdiv_finite (sx sy : bool) (mx my : positive) (ex ey : Z) :
  bounded prec emax mx ex = true -> bounded prec emax my ey = true ->
  fdiv (Fin sx (mag mx ex)) (Fin sy (mag my ey))
  = Ok (of_spec (SF64div (S754_finite sx mx ex) (S754_finite sy my ey))).
Proof.
  intros Bx By.
  destruct (bounded_inv mx ex Bx) as (Hex & Hdx & Hnx).
  destruct (bounded_inv my ey By) as (Hey & Hdy & Hny).
  destruct (Zdigits2_bounds (Z.pos mx) ltac:(lia)) as (Dx0 & Dxlo & Dxhi).
  destruct (Zdigits2_bounds (Z.pos my) ltac:(lia)) as (Dy0 & Dylo & Dyhi).
  rewrite fdiv_nonzero by apply mag_pos.
  f_equal.
  unfold SF64div, SFdiv, SFdiv_core_binary.
  set (d1 := Zdigits2 (Z.pos mx)) in *. set (d2 := Zdigits2 (Z.pos my)) in *.
  rewrite fexp64.
  set (e' := Z.min (Z.max (d1 + ex - (d2 + ey) - 53) (-1074)) (ex - ey)).
  set (s := ex - ey - e').
  assert (Hs : 0 <= s) by lia.
  set (m' := match s with Z.pos _ => Z.shiftl (Z.pos mx) s | 0 => Z.pos mx | Z.neg _ => 0 end).
  assert (Hm' : m' = Z.of_N (N.pos mx * 2 ^ Z.to_N s)).
  { rewrite N2Z.inj_mul, N2Z.inj_pow, Z2N.id by lia. cbn [Z.of_N].
    subst m'. now apply shift_match. }
  set (a := (N.pos mx * 2 ^ Z.to_N s)%N) in *.
  assert (Hq : Z.div_eucl m' (Z.pos my) = (m' / Z.pos my, m' mod Z.pos my)).
  { unfold Z.div, Z.modulo. now destruct (Z.div_eucl m' (Z.pos my)). }
  rewrite Hq, Hm'.
  assert (Ha : 0 <= Z.of_N a) by lia.
  rewrite new_location_loc by (try apply Z.mod_pos_bound; lia).
  change (Z.pos my) with (Z.of_N (N.pos my)).
  fold (loc_of (Z.of_N a) (Z.of_N (N.pos my))).
  rewrite binary_round_aux_correct.
  - apply of_mag_ratio.
    + apply mag_pos.
    + apply N.neq_mul_0. split; [discriminate | apply N.pow_nonzero; lia].
    + unfold mag. subst a.
      assert (P : (2 ^ Z.to_N (ex + 1074) * ulps * 2 ^ Z.to_N (- (e' + 1074))
                   = 2 ^ Z.to_N s * 2 ^ Z.to_N (e' + 1074) * 2 ^ Z.to_N (ey + 1074))%N).
      { unfold ulps. rewrite <- !N.pow_add_r. f_equal. lia. }
      revert P.
      generalize (2 ^ Z.to_N (ex + 1074))%N (2 ^ Z.to_N (- (e' + 1074)))%N
                 (2 ^ Z.to_N s)%N (2 ^ Z.to_N (e' + 1074))%N
                 (2 ^ Z.to_N (ey + 1074))%N ulps.
      intros px qm qs qp py u P.
      transitivity (N.pos mx * N.pos my * (px * u * qm))%N; [ring|].
      rewrite P. ring.
  - discriminate.
  - rewrite fexp64.
    destruct (Z.le_gt_cases e' (-1074)) as [L|G]; [lia|].
    assert (Es : s = 53 - d1 + d2) by lia.
    assert (53 <= Zdigits2 (Z.of_N a / Z.of_N (N.pos my))); [|lia].
    apply digits_ge_53. apply Z.div_le_lower_bound; [lia|].
    subst a. rewrite N2Z.inj_mul, N2Z.inj_pow, Z2N.id by lia. cbn [Z.of_N].
    change (Z.of_N 2) with 2.
    assert (P : 2 ^ (d1 - 1) * 2 ^ s = 2 ^ d2 * 2 ^ 52).
    { rewrite <- !Z.pow_add_r by lia. f_equal. lia. }
    apply Z.le_trans with (2 ^ d2 * 2 ^ 52).
    + apply Z.mul_le_mono_nonneg_r; lia.
    + rewrite <- P. apply Z.mul_le_mono_nonneg_r; [apply Z.pow_nonneg|]; lia.
Qed.

(** The division of the model is [SF64div], except that Python raises on a
    zero divisor where IEEE 754 returns an infinity or a NaN. *)
Theorem fdiv_SF64div (x y : spec_float) :
  valid_binary x = true -> valid_binary y = true ->
  fdiv (of_spec x) (of_spec y)
  = match y with
    | S754_zero _ => Raise ZeroDivisionError
    | _ => Ok (of_spec (SF64div x y))
    end.
Proof.
  intros Vx Vy.
  destruct x as [sx|sx| |sx mx ex], y as [sy|sy| |sy my ey];
    try (destruct (of_spec_valid_finite _ _ _ Vx) as (Ex & Hex & Rx));
    try (destruct (of_spec_valid_finite _ _ _ Vy) as (Ey & Hey & Ry));
    try reflexivity.
  - rewrite Ey. cbn [of_spec SF64div SFdiv].
    rewrite fdiv_nonzero by apply mag_pos.
    unfold of_mag. cbn [N.mul]. now rewrite round_mag_zero by apply mag_pos.
  - rewrite Ey. cbn [of_spec SF64div SFdiv]. unfold fdiv.
    pose proof (mag_pos my ey) as Hy.
    destruct (mag my ey) as [|py] eqn:E; [congruence | reflexivity].
  - rewrite Ey. cbn [of_spec SF64div SFdiv]. unfold fdiv.
    pose proof (mag_pos my ey) as Hy.
    destruct (mag my ey) as [|py] eqn:E; [congruence | reflexivity].
  - rewrite Ex, Ey. now apply fdiv_finite.
Qed.

End Division.

(** *** Comparisons *)
Section Comparison.
Local Open Scope Z_scope.

Lemma mag_lt (m1 m2 : positive) (e1 e2 : Z) :
  bounded prec emax m1 e1 = true -> bounded prec emax m2 e2 = true ->
  e1 < e2 -> (mag m1 e1 < mag m2 e2)%N.
Proof.
  intros B1 B2 L.
  destruct (bounded_inv m1 e1 B1) as (He1 & Hd1 & _).
  destruct (bounded_inv m2 e2 B2) as (He2 & _ & Hn2).
  destruct (Zdigits2_bounds (Z.pos m1) ltac:(lia)) as (_ & _ & Dhi).
  assert (H53 : Z.pos m1 < 2 ^ 53).
  { assert (2 ^ Zdigits2 (Z.pos m1) <= 2 ^ 53) by (apply Z.pow_le_mono_r; lia). lia. }
  destruct Hn2 as [|H52]; [lia|].
  apply N2Z.inj_lt. unfold mag.
  rewrite !N2Z.inj_mul, !N2Z.inj_pow, !Z2N.id by lia. cbn [Z.of_N].
  assert (P : 2 ^ 53 * 2 ^ (e1 + 1074) <= 2 ^ 52 * 2 ^ (e2 + 1074)).
  { rewrite <- !Z.pow_add_r by lia. apply Z.pow_le_mono_r; lia. }
  assert (0 < 2 ^ (e1 + 1074)) by (apply Z.pow_pos_nonneg; lia).
  assert (0 < 2 ^ (e2 + 1074)) by (apply Z.pow_pos_nonneg; lia).
  nia.
Qed.

(** Valid floats compare by exponent, then by significand. *)
Lemma mag_compare (m1 m2 : positive) (e1 e2 : Z) :
  bounded prec emax m1 e1 = true -> bounded prec emax m2 e2 = true ->
  (mag m1 e1 ?= mag m2 e2)%N
  = match e1 ?= e2 with
    | Lt => Lt
    | Gt => Gt
    | Eq => Pos.compare_cont Eq m1 m2
    end.
Proof.
  intros B1 B2. destruct (Z.compare_spec e1 e2) as [->|L|L].
  - unfold mag. rewrite !(N.mul_comm _ (2 ^ _)%N).
    rewrite mul_compare_l by (apply N.pow_nonzero; lia). reflexivity.
  - apply N.compare_lt_iff. now apply mag_lt.
  - apply N.compare_gt_iff. now apply mag_lt.
Qed.

Lemma compare_finite (s1 s2 : bool) (m1 m2 : positive) (e1 e2 : Z) :
  bounded prec emax m1 e1 = true -> bounded prec emax m2 e2 = true ->
  SFcompare (S754_finite s1 m1 e1) (S754_finite s2 m2 e2)
  = Some (signed s1 (mag m1 e1) ?= signed s2 (mag m2 e2)).
Proof.
  intros B1 B2. pose proof (mag_pos m1 e1). pose proof (mag_pos m2 e2).
  unfold SFcompare, signed. f_equal. destruct s1, s2.
  - rewrite Z.compare_opp, N2Z.inj_compare, N.compare_antisym, mag_compare by assumption.
    destruct (e1 ?= e2); reflexivity.
  - symmetry. apply Z.compare_lt_iff. lia.
  - symmetry. apply Z.compare_gt_iff. lia.
  - rewrite N2Z.inj_compare, mag_compare by assumption. reflexivity.
Qed.

Lemma ltb_compare (a b : Z) : (a <? b) = match a ?= b with Lt => true | _ => false end.
Proof. reflexivity. Qed.

Lemma leb_compare (a b : Z) : (a <=? b) = match a ?= b with Gt => false | _ => true end.
Proof. reflexivity. Qed.

(** [<] of the model is [SFltb]. *)
Theorem fltb_SFltb (x y : spec_float) :
  valid_binary x = true -> valid_binary y = true ->
  fltb (of_spec x) (of_spec y) = SFltb x y.
Proof.
  intros Vx Vy.
  destruct x as [sx|sx| |sx mx ex], y as [sy|sy| |sy my ey];
    try (destruct (of_spec_valid_finite _ _ _ Vx) as (Ex & Hex & Rx); rewrite Ex);
    try (destruct (of_spec_valid_finite _ _ _ Vy) as (Ey & Hey & Ry); rewrite Ey);
    try reflexivity;
    try (destruct sx, sy; reflexivity); try (destruct sx; reflexivity);
    try (destruct sy; reflexivity).
  - pose proof (mag_pos my ey). cbn [of_spec fltb]. unfold SFltb, SFcompare, signed.
    destruct sx, sy; first [apply Z.ltb_lt | apply Z.ltb_ge]; lia.
  - pose proof (mag_pos mx ex). cbn [of_spec fltb]. unfold SFltb, SFcompare, signed.
    destruct sx, sy; first [apply Z.ltb_lt | apply Z.ltb_ge]; lia.
  - unfold SFltb. rewrite compare_finite by assumption.
    cbn [fltb]. apply ltb_compare.
Qed.

(** [<=] of the model is [SFleb]. *)
Theorem fleb_SFleb (x y : spec_float) :
  valid_binary x = true -> valid_binary y = true ->
  fleb (of_spec x) (of_spec y) = SFleb x y.
Proof.
  intros Vx Vy.
  destruct x as [sx|sx| |sx mx ex], y as [sy|sy| |sy my ey];
    try (destruct (of_spec_valid_finite _ _ _ Vx) as (Ex & Hex & Rx); rewrite Ex);
    try (destruct (of_spec_valid_finite _ _ _ Vy) as (Ey & Hey & Ry); rewrite Ey);
    try reflexivity;
    try (destruct sx, sy; reflexivity); try (destruct sx; reflexivity);
    try (destruct sy; reflexivity).
  - pose proof (mag_pos my ey). cbn [of_spec fleb]. unfold SFleb, SFcompare, signed.
    destruct sx, sy; first [apply Z.leb_le | apply Z.leb_gt]; lia.
  - pose proof (mag_pos mx ex). cbn [of_spec fleb]. unfold SFleb, SFcompare, signed.
    destruct sx, sy; first [apply Z.leb_le | apply Z.leb_gt]; lia.
  - unfold SFleb. rewrite compare_finite by assumption.
    cbn [fleb]. rewrite leb_compare.
    destruct (signed sx (mag mx ex) ?= signed sy (mag my ey)); reflexivity.
Qed.

End Comparison.

(** *** The machine's floats

    With the axioms of [FloatAxioms], which state that the primitive floats
    compute as [SpecFloat] does, the model computes what the hardware
    computes. *)
Section Machine.
Local Open Scope Z_scope.

(** [float(z)] is the normalisation of the integer [z], an infinity being
    reported as [OverflowError]. *)
Theorem of_int_normalize (z : Z) :
  of_int z
  = match of_spec (binary_normalize prec emax z 0 false) with
    | Inf _ => Raise OverflowError
    | x => Ok x
    end.
Proof.
  destruct (Z.eq_dec z 0) as [->|Hz]; [reflexivity|].
  rewrite binary_normalize_correct by lia.
  unfold of_int, of_mag. change (2 ^ Z.to_N (0 + 1074))%N with ulps.
  destruct (round_mag (Z.abs_N z * ulps) 1); reflexivity.
Qed.

Theorem machine_add (x y : float) :
  of_machine (x + y) = fadd (of_machine x) (of_machine y).
Proof.
  unfold of_machine. rewrite add_spec. apply fadd_SF64add; apply Prim2SF_valid.
Qed.

Theorem machine_sub (x y : float) :
  of_machine (x - y) = fsub (of_machine x) (of_machine y).
Proof.
  unfold of_machine. rewrite sub_spec. apply fsub_SF64sub; apply Prim2SF_valid.
Qed.

Theorem machine_mul (x y : float) :
  of_machine (x * y) = fmul (of_machine x) (of_machine y).
Proof.
  unfold of_machine. rewrite mul_spec. apply fmul_SF64mul; apply Prim2SF_valid.
Qed.

Theorem machine_div (x y : float) :
  fdiv (of_machine x) (of_machine y)
  = match Prim2SF y with
    | S754_zero _ => Raise ZeroDivisionError
    | _ => Ok (of_machine (x / y))
    end.
Proof.
  unfold of_machine. rewrite div_spec. apply fdiv_SF64div; apply Prim2SF_valid.
Qed.

Theorem machine_ltb (x y : float) :
  fltb (of_machine x) (of_machine y) = (x <? y)%float.
Proof.
  unfold of_machine. rewrite ltb_spec. apply fltb_SFltb; apply Prim2SF_valid.
Qed.

Theorem machine_leb (x y : float) :
  fleb (of_machine x) (of_machine y) = (x <=? y)%float.
Proof.
  unfold of_machine. rewrite leb_spec. apply fleb_SFleb; apply Prim2SF_valid.
Qed.

(** The literals of the source and of the examples. *)
Example machine_literals :
  of_machine 100 = hundred /\ of_machine 0 = zero
  /\ of_machine 68.5 = lit 137 2 /\ of_machine 3.5 = lit 7 2.
Proof. repeat split; vm_compute; reflexivity. Qed.

End Machine.

(** ** The float operations on the values the loop meets *)

Section Operations.

Local Open Scope N_scope.
Local Opaque ulps.

Lemma ulps_pos : 0 < ulps.
Proof. reflexivity. Qed.

Lemma representable_nat (n : N) : n <= 100 -> representable (n * ulps).
Proof.
  intros Hn. exists n, 1074. split; [|split].
  - apply N.le_lt_trans with 100; [assumption | reflexivity].
  - discriminate.
  - reflexivity.
Qed.

Lemma representable_ulps : representable ulps.
Proof. rewrite <- (N.mul_1_l ulps). apply representable_nat. lia. Qed.

Lemma zero_float : zero = Fin false 0.
Proof. reflexivity. Qed.

Lemma in_range_valid (r : pyfloat) : in_range r = true <-> valid_rating r.
Proof.
  unfold in_range, valid_rating, hundred, nat_float. rewrite zero_float. split.
  - destruct r as [|[]|[] k]; cbn -[N.mul]; try discriminate;
      rewrite andb_true_iff, Z.ltb_lt, Z.leb_le; intros [H1 H2];
      [lia|]. exists k. split; [reflexivity | lia].
  - intros (k & -> & Hk). cbn -[N.mul].
    rewrite andb_true_iff, Z.ltb_lt, Z.leb_le. lia.
Qed.

Lemma of_int_small (n : N) : n <= 100 -> of_int (Z.of_N n) = Ok (nat_float n).
Proof.
  intros Hn. unfold of_int, nat_float.
  rewrite Zabs2N.id, round_mag_integral by now apply representable_nat.
  destruct (Z.ltb_spec (Z.of_N n) 0); [lia | reflexivity].
Qed.

Lemma fsub_hundred (n : N) :
  n <= 100 -> fsub hundred (nat_float n) = nat_float (100 - n).
Proof.
  intros Hn. unfold fsub, hundred, nat_float, fneg, fadd, signed. simpl negb. cbv iota.
  destruct (Z.eqb_spec (Z.of_N (100 * ulps) + - Z.of_N (n * ulps)) 0) as [E|E].
  - f_equal. pose proof ulps_pos. nia.
  - assert (A : Z.abs_N (Z.of_N (100 * ulps) + - Z.of_N (n * ulps)) = (100 - n) * ulps).
    { apply N2Z.inj. rewrite N2Z.inj_abs_N. nia. }
    unfold of_mag. rewrite A, round_mag_integral by (apply representable_nat; lia).
    destruct (Z.ltb_spec (Z.of_N (100 * ulps) + - Z.of_N (n * ulps)) 0); [nia | reflexivity].
Qed.

Lemma fdiv_hundred (k : N) :
  0 < k <= 100 * ulps ->
  exists q, fdiv (Fin false k) hundred = Ok (Fin false q) /\ q <= ulps.
Proof.
  intros Hk. unfold fdiv, hundred, nat_float.
  pose proof ulps_pos as U.
  destruct (100 * ulps) as [|p] eqn:E; [lia|]. rewrite <- E.
  destruct (round_mag_le (k * ulps) (100 * ulps) ulps)
    as (q & Hq & Hle); [lia | apply representable_ulps | nia |].
  exists q. unfold of_mag. rewrite Hq. auto.
Qed.


Lemma fmul_fraction (m q : N) :
  m <= 100 -> q <= ulps ->
  exists a, fmul (nat_float m) (Fin false q) = Fin false a /\ a <= m * ulps.
Proof.
  intros Hm Hq. unfold fmul, nat_float, of_mag.
  pose proof ulps_pos as U.
  destruct (round_mag_le (m * ulps * q) ulps (m * ulps))
    as (a & Ha & Hle); [lia | now apply representable_nat | nia |].
  exists a. rewrite Ha. auto.
Qed.


Lemma fadd_within (n m a : N) :
  n + m <= 100 -> a <= m * ulps ->
  exists b, fadd (nat_float n) (Fin false a) = Fin false b
            /\ n * ulps <= b <= (n + m) * ulps.
Proof.
  intros Hnm Ha. unfold fadd, nat_float, signed.
  destruct (Z.eqb_spec (Z.of_N (n * ulps) + Z.of_N a) 0) as [E|E].
  - exists 0. split; [reflexivity | lia].
  - assert (A : Z.abs_N (Z.of_N (n * ulps) + Z.of_N a) = n * ulps + a).
    { apply N2Z.inj. rewrite N2Z.inj_abs_N. lia. }
    unfold of_mag. rewrite A.
    destruct (round_mag_le (n * ulps + a) 1 ((n + m) * ulps))
      as (b & Hb & Hle); [lia | now apply representable_nat | lia |].
    assert (Hge : n * ulps <= b).
    { apply (round_mag_ge (n * ulps + a) 1); auto; try lia.
      apply representable_nat; lia. }
    exists b. rewrite Hb.
    destruct (Z.ltb_spec (Z.of_N (n * ulps) + Z.of_N a) 0); [lia | auto].
Qed.

Lemma py_round_within (n m b : N) :
  n * ulps <= b <= m * ulps ->
  exists c, py_round (Fin false b) = Ok (Z.of_N c) /\ n <= c <= m.
Proof.
  intros Hb. pose proof ulps_pos as U.
  exists (rne_div b ulps). split; [reflexivity|]. split.
  - apply rne_div_ge; lia.
  - apply rne_div_le; lia.
Qed.

End Operations.

(** ** The invariant of the loop *)

Section Invariant.

Local Open Scope N_scope.
Local Opaque ulps.

Lemma holds_as_float (combined : number) (n : N) :
  holds combined n -> n <= 100 -> as_float combined = Ok (nat_float n).
Proof.
  intros [-> | [-> ->]] Hn; [now apply of_int_small | reflexivity].
Qed.

Lemma holds_round (combined : number) (n : N) :
  holds combined n -> round_number combined = Ok (Z.of_N n).
Proof. intros [-> | [-> ->]]; reflexivity. Qed.

Lemma loop_body_valid (combined : number) (n : N) (r : pyfloat) :
  holds combined n -> n <= 100 -> valid_rating r ->
  exists c s, loop_body combined r = Ok (PyInt (Z.of_N c), s)
              /\ rating s = r /\ combined_after_round s = Z.of_N c
              /\ step_from n s.
Proof.
  intros Hc Hn Hr. unfold loop_body.
  rewrite (holds_as_float _ _ Hc Hn). cbn [bind].
  destruct (Hr) as (k & -> & Hk).
  destruct (fdiv_hundred _ Hk) as (q & -> & Hq). cbn [bind].
  rewrite (fsub_hundred _ Hn).
  destruct (fmul_fraction (100 - n) q) as (a & Ha & Hale); [lia | assumption |].
  rewrite Ha.
  destruct (fadd_within n (100 - n) a) as (b & Hb & Hble);
    [lia | assumption |].
  rewrite Hb.
  destruct (py_round_within n 100 b) as (c & Hround & Hcle).
  { replace (n + (100 - n)) with 100 in Hble by lia. assumption. }
  rewrite Hround. cbn [bind].
  eexists c, _. split; [reflexivity|]. cbn.
  split; [reflexivity|]. split; [reflexivity|].
  constructor; cbn; eauto.
  - exists b. split; [reflexivity|].
    replace (n + (100 - n)) with 100 in Hble by lia. assumption.
  - lia.
Qed.

Lemma loop_valid (clean : list pyfloat) :
  forall (combined : number) (n : N),
    holds combined n -> n <= 100 -> Forall valid_rating clean ->
    exists final steps,
      loop combined clean = Ok (final, steps)
      /\ map rating steps = clean
      /\ trace_from n steps
      /\ round_number final = Ok (total_after (Z.of_N n) steps).
Proof.
  induction clean as [|r rest IH]; intros combined n Hc Hn Hall.
  - exists combined, []. cbn. repeat split. now apply holds_round.
  - inversion Hall as [|? ? Hr Hrest]; subst.
    destruct (loop_body_valid _ _ _ Hc Hn Hr) as (c & s & Hbody & Hrat & Hafter & Hstep).
    assert (Hc100 : c <= 100).
    { pose proof (sf_after _ _ Hstep) as A. rewrite Hafter in A. lia. }
    destruct (IH (PyInt (Z.of_N c)) c (or_introl eq_refl) Hc100 Hrest)
      as (final & steps & Hloop & Hmap & Htrace & Hround).
    exists final, (s :: steps). cbn [loop]. rewrite Hbody. cbn [bind].
    rewrite Hloop. cbn [bind map trace_from total_after].
    rewrite Hrat, Hmap, Hafter, N2Z.id. auto.
Qed.

End Invariant.

(** ** The sort of the clean ratings *)

Section Sorting.

Local Opaque ulps.

Lemma fltb_asym (x y : pyfloat) : fltb x y = true -> fltb y x = false.
Proof.
  destruct x as [|[]|a j], y as [|[]|b k]; cbn; try reflexivity; try discriminate.
  rewrite Z.ltb_lt, Z.ltb_ge. lia.
Qed.

Lemma not_below_trans (x y z : pyfloat) :
  valid_rating y ->
  fltb x y = false -> fltb y z = false -> fltb x z = false.
Proof.
  intros (k & -> & _).
  destruct x as [|[]|a j], z as [|[]|c l]; cbn; try reflexivity; try discriminate.
  rewrite !Z.ltb_ge. lia.
Qed.

Lemma not_below_antisym (x y : pyfloat) :
  valid_rating x -> valid_rating y ->
  fltb x y = false -> fltb y x = false -> x = y.
Proof.
  intros (j & -> & _) (k & -> & _). cbn. rewrite !Z.ltb_ge. intros. f_equal. lia.
Qed.

Lemma insert_desc_perm (x : pyfloat) (l : list pyfloat) :
  Permutation (insert_desc x l) (x :: l).
Proof.
  induction l as [|y l IH]; cbn; [reflexivity|].
  destruct (fltb x y); [|reflexivity].
  rewrite IH. apply perm_swap.
Qed.

Lemma sorted_desc_perm (l : list pyfloat) : Permutation (sorted_desc l) l.
Proof.
  induction l as [|x l IH]; cbn; [reflexivity|].
  rewrite insert_desc_perm. now constructor.
Qed.

Lemma insert_desc_descending (x : pyfloat) (l : list pyfloat) :
  Forall valid_rating l -> descending l -> descending (insert_desc x l).
Proof.
  unfold descending. induction l as [|y l IH]; intros Hv Hs; cbn.
  - repeat constructor.
  - inversion Hv as [|? ? Hy Hl]; subst.
    inversion Hs as [|? ? Hs' Hall]; subst.
    destruct (fltb x y) eqn:E.
    + constructor; [now apply IH|].
      eapply Permutation_Forall; [symmetry; apply insert_desc_perm|].
      constructor; [now apply fltb_asym | assumption].
    + constructor; [assumption|]. constructor; [assumption|].
      eapply Forall_impl; [|exact Hall].
      intros z Hz. eapply not_below_trans; [exact Hy | exact E | exact Hz].
Qed.

Lemma sorted_desc_descending (l : list pyfloat) :
  Forall valid_rating l -> descending (sorted_desc l).
Proof.
  induction l as [|x l IH]; intros Hv; cbn; [constructor|].
  inversion Hv; subst.
  apply insert_desc_descending; [|now apply IH].
  eapply Permutation_Forall; [symmetry; apply sorted_desc_perm | assumption].
Qed.

(** A descending arrangement of valid ratings is unique. *)
Lemma descending_unique (l1 : list pyfloat) :
  forall l2, Forall valid_rating l1 -> descending l1 -> descending l2 ->
             Permutation l1 l2 -> l1 = l2.
Proof.
  unfold descending. induction l1 as [|a l1 IH]; intros l2 Hv H1 H2 P.
  - apply Permutation_nil in P. now subst.
  - destruct l2 as [|b l2]; [apply Permutation_sym, Permutation_nil in P; discriminate|].
    inversion Hv as [|? ? Ha Hv1]; subst.
    inversion H1 as [|? ? S1 A1]; subst.
    inversion H2 as [|? ? S2 A2]; subst.
    assert (Hb : valid_rating b).
    { eapply Forall_forall; [exact Hv|].
      eapply Permutation_in; [symmetry; exact P | now left]. }
    assert (E : a = b).
    { assert (Ia : In a (b :: l2)) by (eapply Permutation_in; [exact P | now left]).
      assert (Ib : In b (a :: l1))
        by (eapply Permutation_in; [symmetry; exact P | now left]).
      destruct Ia as [->|Ia]; [reflexivity|].
      destruct Ib as [->|Ib]; [reflexivity|].
      rewrite Forall_forall in A1, A2.
      apply not_below_antisym; auto. }
    subst b. f_equal. apply IH; auto.
    now apply Permutation_cons_inv in P.
Qed.

Lemma filter_perm (f : pyfloat -> bool) (l l' : list pyfloat) :
  Permutation l l' -> Permutation (filter f l) (filter f l').
Proof.
  induction 1 as [|x l l' _ IH|x y l|l l' l'' _ IH1 _ IH2]; cbn.
  - constructor.
  - destruct (f x); [now constructor | assumption].
  - destruct (f x), (f y); try reflexivity. apply perm_swap.
  - now transitivity (filter f l').
Qed.

Lemma filter_valid (l : list pyfloat) : Forall valid_rating (filter in_range l).
Proof.
  apply Forall_forall. intros r Hr. apply filter_In in Hr.
  now apply in_range_valid.
Qed.

Lemma clean_valid (l : list pyfloat) :
  Forall valid_rating (sorted_desc (filter in_range l)).
Proof.
  eapply Permutation_Forall; [symmetry; apply sorted_desc_perm | apply filter_valid].
Qed.

Lemma clean_perm (l l' : list pyfloat) :
  Permutation l l' ->
  sorted_desc (filter in_range l) = sorted_desc (filter in_range l').
Proof.
  intros P. apply descending_unique.
  - apply clean_valid.
  - apply sorted_desc_descending, filter_valid.
  - apply sorted_desc_descending, filter_valid.
  - rewrite !sorted_desc_perm. now apply filter_perm.
Qed.

End Sorting.

(** ** What [combine] returns *)

Section Result.

Local Open Scope N_scope.
Local Opaque ulps.

Lemma comprehension_floats (l : list pyfloat) :
  comprehension (map PyFloat l) = Ok (filter in_range l).
Proof.
  induction l as [|x l IH]; [reflexivity|].
  cbn [map comprehension as_float bind filter].
  destruct (in_range x); [|exact IH]. now rewrite IH.
Qed.

(** On a list of floats the conversions do nothing, and the comprehension
    is the filter. *)
Lemma combine_unfold (ratings : list pyfloat) :
  combine ratings
  = match ratings with
    | [] => Ok (0%Z, [])
    | _ =>
        let clean_ratings := sorted_desc (filter in_range ratings) in
        match clean_ratings with
        | [] => Ok (0%Z, [])
        | _ =>
            '(combined, steps) <- loop (PyFloat zero) clean_ratings ;;
            c <- round_number combined ;;
            Ok (final_rounding c, steps)
        end
    end.
Proof.
  unfold combine, va_combined_rating_detailed.
  destruct ratings as [|r l]; [reflexivity|].
  rewrite comprehension_floats. reflexivity.
Qed.

(** The function returns on every input; its trace has the clean ratings in
    descending order, starts from the total 0 and threads the rounded total
    through the iterations; the final rating is the rounding of the last
    total. *)
Lemma combine_returns (ratings : list pyfloat) :
  exists steps,
    combine ratings = Ok (final_rounding (total_after 0 steps), steps)
    /\ map rating steps = sorted_desc (filter in_range ratings)
    /\ trace_from 0 steps.
Proof.
  rewrite !combine_unfold; cbv zeta.
  destruct ratings as [|r0 ratings']; [exists []; now repeat split|].
  set (clean := sorted_desc (filter in_range (r0 :: ratings'))).
  assert (Hv : Forall valid_rating clean) by apply clean_valid.
  destruct (loop_valid clean (PyFloat zero) 0) as (final & steps & Hloop & Hmap & Htrace & Hround);
    [right; auto | lia | assumption |].
  exists steps. destruct clean as [|r clean'] eqn:E.
  - destruct steps; [now repeat split | discriminate].
  - rewrite Hloop. cbn [bind]. rewrite Hround. cbn [bind]. auto.
Qed.

Lemma last_default (l : list Z) (c d : Z) : l <> [] -> last l c = last l d.
Proof.
  induction l as [|x l IH]; intros H; [easy|].
  destruct l; [reflexivity|]. cbn [last] in *. apply IH. discriminate.
Qed.

Lemma total_after_last (steps : list step) (c : Z) :
  total_after c steps = last (map combined_after_round steps) c.
Proof.
  revert c. induction steps as [|s rest IH]; intros c; [reflexivity|].
  cbn [total_after map]. rewrite IH. destruct rest as [|s' rest]; [reflexivity|].
  change (last (map combined_after_round (s' :: rest)) (combined_after_round s)
          = last (map combined_after_round (s' :: rest)) c).
  apply last_default. discriminate.
Qed.

(** Every total of a trace lies between the starting total and 100. *)
Lemma trace_totals (steps : list step) :
  forall n, trace_from n steps ->
            Forall (fun s => (Z.of_N n <= combined_after_round s <= 100)%Z) steps.
Proof.
  induction steps as [|s rest IH]; intros n H; [constructor|].
  destruct H as [Hs Hrest]. pose proof (sf_after _ _ Hs) as A.
  constructor; [assumption|].
  eapply Forall_impl; [|apply (IH _ Hrest)].
  cbn beta. intros s' B. rewrite Z2N.id in B; lia.
Qed.

Lemma total_after_bounds (steps : list step) :
  forall n, n <= 100 -> trace_from n steps ->
            (Z.of_N n <= total_after (Z.of_N n) steps <= 100)%Z.
Proof.
  induction steps as [|s rest IH]; intros n Hn H; cbn [total_after]; [lia|].
  destruct H as [Hs Hrest]. pose proof (sf_after _ _ Hs) as A.
  specialize (IH (Z.to_N (combined_after_round s))).
  rewrite Z2N.id in IH by lia. specialize (IH ltac:(lia) Hrest). lia.
Qed.

(** Consecutive steps of a trace. *)
Lemma trace_consecutive (steps : list step) :
  forall n i s s',
    trace_from n steps ->
    nth_error steps i = Some s -> nth_error steps (S i) = Some s' ->
    step_from (Z.to_N (combined_after_round s)) s'
    /\ (0 <= combined_after_round s <= 100)%Z.
Proof.
  induction steps as [|s0 rest IH]; intros n i s s' H Hi Hi'.
  - destruct i; discriminate.
  - destruct H as [Hs Hrest]. destruct i as [|i]; cbn in Hi, Hi'.
    + injection Hi as ->. destruct rest as [|s1 rest']; [discriminate|].
      injection Hi' as ->. destruct Hrest as [Hs' _].
      pose proof (sf_after _ _ Hs). split; [assumption | lia].
    + eapply IH; eauto.
Qed.

Lemma final_rounding_range (c : Z) :
  (0 <= final_rounding c <= 100 /\ final_rounding c mod 10 = 0)%Z.
Proof.
  unfold final_rounding.
  assert (H : (0 <= Z.min 100 (Z.max 0 c) <= 100)%Z) by lia.
  revert H. generalize (Z.min 100 (Z.max 0 c)). intros k H.
  destruct (Z.leb_spec 5 (k mod 10)); Z.div_mod_to_equations; lia.
Qed.

End Result.

(** ** Worked examples *)

Example combine_50 : combine [nat_float 50] = Ok (50%Z, [step_50]).
Proof. vm_compute. reflexivity. Qed.

Example combine_50_30 :
  combine [nat_float 50; nat_float 30] = Ok (70%Z, [step_50; step_30]).
Proof. vm_compute. reflexivity. Qed.

Example combine_50_30_10 :
  combine [nat_float 50; nat_float 30; nat_float 10]
  = Ok (70%Z, [step_50; step_30; step_10]).
Proof. vm_compute. reflexivity. Qed.

(** ** The properties of the engine *)

Section Claims.

Local Opaque ulps.

Lemma combine_trace (ratings : list pyfloat) (final : Z) (steps : list step) :
  combine ratings = Ok (final, steps) ->
  final = final_rounding (total_after 0 steps)
  /\ map rating steps = sorted_desc (filter in_range ratings)
  /\ trace_from 0 steps.
Proof.
  intros H. destruct (combine_returns ratings) as (steps' & E & Hmap & Htrace).
  rewrite E in H. injection H as <- <-. auto.
Qed.

Lemma trace_step (steps : list step) :
  forall n s, trace_from n steps -> In s steps -> exists m, step_from m s.
Proof.
  induction steps as [|s0 rest IH]; intros n s H Hin; [easy|].
  destruct H as [Hs Hrest]. destruct Hin as [<-|Hin]; eauto.
Qed.

(** [float] raises [OverflowError] only. *)
Lemma as_float_raises (r : number) (e : exn) :
  as_float r = Raise e -> e = OverflowError.
Proof.
  destruct r as [z|x]; [|discriminate]. unfold as_float, of_int.
  destruct (round_mag _ _); [discriminate|]. now intros [= <-].
Qed.

Lemma converts_or_raises (r : number) :
  converts r \/ as_float r = Raise OverflowError.
Proof.
  unfold converts. destruct (as_float r) as [x|e] eqn:E; [left; now exists x|].
  right. now rewrite (as_float_raises _ _ E).
Qed.

(** The test of the comprehension on [float(r)] is the test on [r], and the
    float of a number with a value in (0, 100] has that value. *)
Lemma as_float_in_range (r : number) (x : pyfloat) :
  as_float r = Ok x ->
  in_range x = in_range_number r
  /\ (in_range_number r = true -> x = value_of r).
Proof.
  destruct r as [z|y]; cbn [as_float in_range_number value_of].
  - intros H. destruct (Z.ltb_spec 0 z) as [Hpos|Hneg]; cbn [andb].
    + destruct (Z.leb_spec z 100) as [Hle|Hgt].
      * rewrite <- (Z2N.id z), of_int_small in H by lia.
        injection H as <-. split; [|reflexivity].
        apply in_range_valid. exists (Z.to_N z * ulps)%N. split; [reflexivity|].
        pose proof ulps_pos. nia.
      * split; [|discriminate]. unfold of_int in H.
        destruct (round_mag (Z.abs_N z * ulps) 1) as [k|] eqn:R; [|discriminate].
        injection H as <-.
        assert (B : (101 * ulps <= k)%N).
        { apply (round_mag_ge (Z.abs_N z * ulps) 1 (101 * ulps) k);
            [discriminate | | | exact R].
          - exists 101%N, 1074%N. repeat split; discriminate.
          - rewrite N.mul_1_r. apply N.mul_le_mono_r. lia. }
        unfold in_range, hundred, nat_float. rewrite zero_float.
        destruct (Z.ltb_spec z 0); [lia|]. cbn -[N.mul].
        apply andb_false_iff. right. apply Z.leb_gt.
        pose proof ulps_pos. lia.
    + split; [|discriminate]. unfold of_int in H.
      destruct (round_mag (Z.abs_N z * ulps) 1) as [k|] eqn:R; [|discriminate].
      injection H as <-. unfold in_range. rewrite zero_float.
      destruct (Z.ltb_spec z 0) as [Hz|Hz]; cbn -[N.mul].
      * apply andb_false_iff. left. apply Z.ltb_ge. lia.
      * replace z with 0%Z in R by lia. cbn [Z.abs_N N.mul] in R.
        rewrite round_mag_zero in R by discriminate. injection R as <-.
        reflexivity.
  - intros [= <-]. split; reflexivity.
Qed.

(** On numbers that [float] converts, the comprehension keeps the numbers
    with a value in (0, 100], as floats. *)
Lemma comprehension_converts (ratings : list number) :
  Forall converts ratings ->
  comprehension ratings = Ok (map value_of (filter in_range_number ratings)).
Proof.
  induction 1 as [|r rest (x & Hx) _ IH]; [reflexivity|].
  destruct (as_float_in_range r x Hx) as [T V].
  cbn [comprehension filter]. rewrite Hx. cbn [bind]. rewrite T.
  destruct (in_range_number r); [|exact IH].
  cbn [bind]. rewrite IH. cbn [bind map]. now rewrite (V eq_refl).
Qed.

(** One number that [float] does not convert makes the comprehension
    raise. *)
Lemma comprehension_raises (ratings : list number) :
  Exists (fun r => as_float r = Raise OverflowError) ratings ->
  comprehension ratings = Raise OverflowError.
Proof.
  induction 1 as [r rest H|r rest _ IH]; cbn [comprehension].
  - now rewrite H.
  - destruct (converts_or_raises r) as [(x & Hx)|Hr]; [|now rewrite Hr].
    rewrite Hx. cbn [bind]. rewrite IH.
    destruct (in_range x); reflexivity.
Qed.

Lemma kept_valid (ratings : list number) :
  Forall valid_rating (map value_of (filter in_range_number ratings)).
Proof.
  apply Forall_forall. intros x Hx. apply in_map_iff in Hx.
  destruct Hx as (r & <- & Hr). apply filter_In in Hr. destruct Hr as [_ Hr].
  destruct r as [z|y]; cbn [in_range_number value_of] in *.
  - apply andb_true_iff in Hr. destruct Hr as [H0 H1].
    apply Z.ltb_lt in H0. apply Z.leb_le in H1.
    exists (Z.to_N z * ulps)%N. split; [reflexivity|].
    pose proof ulps_pos. nia.
  - now apply in_range_valid.
Qed.

Lemma filter_all (A : Type) (f : A -> bool) (l : list A) :
  Forall (fun x => f x = true) l -> filter f l = l.
Proof.
  induction 1 as [|x l Hx _ IH]; [reflexivity|]. cbn. now rewrite Hx, IH.
Qed.

(** On numbers that [float] converts, the function is [combine] on the
    floats of the numbers with a value in (0, 100]. *)
Lemma va_combined_rating_detailed_converts (ratings : list number) :
  Forall converts ratings ->
  va_combined_rating_detailed ratings
  = combine (map value_of (filter in_range_number ratings)).
Proof.
  intros H. rewrite combine_unfold. cbv zeta.
  rewrite (filter_all _ in_range (map value_of (filter in_range_number ratings))).
  - unfold va_combined_rating_detailed.
    rewrite (comprehension_converts _ H). cbn [bind].
    destruct ratings as [|r rest]; [reflexivity|].
    destruct (map value_of (filter in_range_number (r :: rest))); reflexivity.
  - eapply Forall_impl; [|apply kept_valid]. intros x. apply in_range_valid.
Qed.

Lemma va_combined_rating_detailed_raises (ratings : list number) :
  Exists (fun r => as_float r = Raise OverflowError) ratings ->
  va_combined_rating_detailed ratings = Raise OverflowError.
Proof.
  intros H. unfold va_combined_rating_detailed.
  destruct ratings as [|r rest]; [inversion H|].
  now rewrite (comprehension_raises _ H).
Qed.

(** The rounding of the loop: each step rounds the running total to a
    nearest integer, and when the total before rounding lies exactly half
    way between two integers the even one is taken.  For [50, 30, 10] the
    third step has 68.5 before rounding and 68 after it; the final rating is
    70. *)
Lemma step_rounds_half_to_even :
  (forall ratings final steps s,
      combine ratings = Ok (final, steps) -> In s steps ->
      exists b,
        combined_before_round s = Fin false b
        /\ (2 * Z.of_N b - Z.of_N ulps
            <= 2 * combined_after_round s * Z.of_N ulps
            <= 2 * Z.of_N b + Z.of_N ulps)%Z
        /\ forall q, (2 * b = (2 * q + 1) * ulps)%N ->
                     combined_after_round s = Z.of_N (if N.even q then q else q + 1))
  /\ combine [nat_float 50; nat_float 30; nat_float 10]
     = Ok (70%Z, [step_50; step_30; step_10])
  /\ combined_before_round step_10 = lit 137 2
  /\ combined_after_round step_10 = 68%Z.
Proof.
  split; [|split; [exact combine_50_30_10 | split; reflexivity]].
  intros ratings final steps s H Hin.
  destruct (combine_trace ratings final steps H) as (_ & _ & Htrace).
  destruct (trace_step steps 0%N s Htrace Hin) as (m & Hs).
  destruct (sf_before _ _ Hs) as (b & Hb & _).
  pose proof (sf_round _ _ Hs) as R. rewrite Hb in R. cbn in R. injection R as R.
  assert (U : ulps <> 0%N) by (pose proof ulps_pos; lia).
  exists b. split; [assumption|]. split.
  - destruct (rne_div_near b ulps U). rewrite <- R. lia.
  - intros q Hq. rewrite <- R. f_equal. now apply rne_div_tie.
Qed.

(** C1, a defect of the code: the loop rounds with [round], which takes a
    total half way between two integers to the even one, where the
    specification, and the rounding after the loop, take it upward.  On
    [50, 30, 10] the third step has 68.5 before rounding and 68 after it,
    not 69.  On [10, 5] the second step has 14.5 before rounding and 14
    after it, and the final rating is 10, where the total 15 gives 20. *)
Theorem per_step_rounding_is_half_to_even :
  (exists s1 s2 s3,
      va_combined_rating_detailed [PyInt 50; PyInt 30; PyInt 10]
      = Ok (70%Z, [s1; s2; s3])
      /\ combined_before_round s3 = lit 137 2
      /\ combined_after_round s3 = 68%Z)
  /\ (exists s1 s2,
         va_combined_rating_detailed [PyInt 10; PyInt 5] = Ok (10%Z, [s1; s2])
         /\ combined_before_round s2 = lit 29 2
         /\ combined_after_round s2 = 14%Z
         /\ final_rounding 14 = 10%Z
         /\ final_rounding 15 = 20%Z).
Proof.
  split.
  - exists step_50, step_30, step_10. split; [|split; reflexivity].
    rewrite va_combined_rating_detailed_converts.
    + exact combine_50_30_10.
    + repeat constructor; eexists; vm_compute; reflexivity.
  - assert (E : exists s1 s2,
               combine [nat_float 10; nat_float 5] = Ok (10%Z, [s1; s2])
               /\ combined_before_round s2 = lit 29 2
               /\ combined_after_round s2 = 14%Z).
    { eexists _, _. vm_compute. repeat split. }
    destruct E as (s1 & s2 & E & B & A).
    exists s1, s2. split; [|now repeat split].
    rewrite va_combined_rating_detailed_converts; [exact E|].
    repeat constructor; eexists; vm_compute; reflexivity.
Qed.

(** C2: on every input the function returns a final rating that is a
    multiple of 10 between 0 and 100. *)
Theorem final_rating_multiple_of_ten (ratings : list pyfloat) :
  exists final steps,
    combine ratings = Ok (final, steps)
    /\ (0 <= final <= 100)%Z /\ (final mod 10 = 0)%Z.
Proof.
  destruct (combine_returns ratings) as (steps & E & _).
  eexists _, steps. split; [exact E|]. apply final_rounding_range.
Qed.

Lemma final_rounding_spec (c : Z) : final_rounding c = spec_final c.
Proof.
  unfold final_rounding, spec_final, spec_clamp.
  replace (Z.min 100 (Z.max 0 c))
    with (if (c <? 0)%Z then 0%Z else if (100 <? c)%Z then 100%Z else c).
  - rewrite Z.geb_leb. reflexivity.
  - destruct (Z.ltb_spec c 0), (Z.ltb_spec 100 c); lia.
Qed.

(** C3: the final rating is the total accumulated by the loop (the rounded
    total of the last step, 0 when there is no step), clamped to [0, 100] and
    then rounded to a multiple of 10 by the remainder rule; the result is a
    nearest multiple of 10 of the clamped total. *)
Theorem final_is_clamp_then_round_to_ten (ratings : list pyfloat) :
  exists final steps,
    combine ratings = Ok (final, steps)
    /\ final = spec_final (last (map combined_after_round steps) 0%Z)
    /\ (final mod 10 = 0)%Z
    /\ (Z.abs (final - spec_clamp (last (map combined_after_round steps) 0%Z)) <= 5)%Z.
Proof.
  destruct (combine_returns ratings) as (steps & E & _).
  eexists _, steps. split; [exact E|].
  rewrite total_after_last, final_rounding_spec.
  generalize (last (map combined_after_round steps) 0%Z). intros c.
  repeat split.
  - rewrite <- final_rounding_spec. apply final_rounding_range.
  - unfold spec_final. generalize (spec_clamp c). intros k.
    destruct (Z.geb_spec (k mod 10) 5); Z.div_mod_to_equations; lia.
Qed.

Lemma filter_no_valid (ratings : list pyfloat) :
  Forall (fun r => ~ valid_rating r) ratings -> filter in_range ratings = [].
Proof.
  induction 1 as [|r l Hr _ IH]; [reflexivity|]. cbn.
  destruct (in_range r) eqn:E; [|assumption].
  apply in_range_valid in E. contradiction.
Qed.

(** C4, for the numbers [float] converts: when the input is empty, or every
    element is a float or an [int] that [float] converts and has no value
    in (0, 100], the function returns the final rating 0 and no step. *)
Theorem no_valid_rating_returns_zero (ratings : list number) :
  ratings = [] \/ Forall (fun r => converts r /\ in_range_number r = false) ratings ->
  va_combined_rating_detailed ratings = Ok (0%Z, []).
Proof.
  intros [->|H]; [reflexivity|].
  rewrite va_combined_rating_detailed_converts.
  - replace (filter in_range_number ratings) with (@nil number); [reflexivity|].
    induction H as [|r rest [_ Hr] _ IH]; [reflexivity|].
    cbn [filter]. now rewrite Hr.
  - eapply Forall_impl; [|exact H]. now intros r [C _].
Qed.

(** [no_valid_rating_returns_zero] at [[]] and at [[150, -5, 0]]. *)
Lemma no_valid_rating_returns_zero_witness :
  va_combined_rating_detailed [] = Ok (0%Z, [])
  /\ va_combined_rating_detailed [PyInt 150; PyInt (-5); PyInt 0] = Ok (0%Z, []).
Proof.
  split.
  - apply no_valid_rating_returns_zero. left. reflexivity.
  - apply no_valid_rating_returns_zero. right.
    repeat constructor; eexists; vm_compute; reflexivity.
Defined.

(** The [int] 10^400 has no value in (0, 100], and on the list that holds
    it alone the function raises [OverflowError]: it does not return the
    final rating 0 and no step. *)
Lemma huge_int_not_dropped :
  in_range_number (PyInt (10 ^ 400)) = false
  /\ va_combined_rating_detailed [PyInt (10 ^ 400)] = Raise OverflowError
  /\ va_combined_rating_detailed [PyInt (10 ^ 400)] <> Ok (0%Z, []).
Proof.
  assert (E : va_combined_rating_detailed [PyInt (10 ^ 400)] = Raise OverflowError)
    by (vm_compute; reflexivity).
  split; [vm_compute; reflexivity|]. split; [exact E|].
  rewrite E. discriminate.
Qed.

(** C5: the first step starts with 100 remaining, and every later step with
    100 minus the rounded total of the step before it. *)
Theorem remaining_before_chain (ratings : list pyfloat) :
  exists final steps,
    combine ratings = Ok (final, steps)
    /\ (forall s, nth_error steps 0 = Some s -> remaining_before s = hundred)
    /\ (forall i s s',
           nth_error steps i = Some s -> nth_error steps (S i) = Some s' ->
           exists c, combined_after_round s = Z.of_N c /\ (c <= 100)%N
                     /\ remaining_before s' = nat_float (100 - c)).
Proof.
  destruct (combine_returns ratings) as (steps & E & _ & Htrace).
  eexists _, steps. split; [exact E|]. split.
  - intros s Hs. destruct steps as [|s0 rest]; [discriminate|].
    injection Hs as <-. destruct Htrace as [Hs _]. exact (sf_remaining _ _ Hs).
  - intros i s s' Hi Hi'.
    destruct (trace_consecutive steps 0%N i s s' Htrace Hi Hi') as [Hs' Hb].
    exists (Z.to_N (combined_after_round s)).
    rewrite Z2N.id by lia. repeat split; [lia | exact (sf_remaining _ _ Hs')].
Qed.

(** C6: the result does not depend on the order of the input. *)
Theorem combine_permutation_invariant (ratings ratings' : list pyfloat) :
  Permutation ratings ratings' -> combine ratings = combine ratings'.
Proof.
  intros P. rewrite !combine_unfold; cbv zeta.
  rewrite (clean_perm _ _ P).
  destruct ratings, ratings'; try reflexivity.
  apply Permutation_nil in P. discriminate.
Qed.

(** [combine_permutation_invariant] at [[10, 50, 30]] and [[50, 30, 10]]. *)
Lemma combine_permutation_invariant_witness :
  Permutation [nat_float 10; nat_float 50; nat_float 30]
              [nat_float 50; nat_float 30; nat_float 10]
  /\ combine [nat_float 10; nat_float 50; nat_float 30]
     = combine [nat_float 50; nat_float 30; nat_float 10].
Proof.
  assert (P : Permutation [nat_float 10; nat_float 50; nat_float 30]
                          [nat_float 50; nat_float 30; nat_float 10]).
  { eapply perm_trans; [apply perm_swap|]. apply perm_skip, perm_swap. }
  exact (conj P (combine_permutation_invariant _ _ P)).
Defined.

(** On a list of floats exactly the elements with a value in (0, 100] are
    kept, with their multiplicities, one step for each. *)
Lemma combine_kept (ratings : list pyfloat) :
  exists final steps,
    combine ratings = Ok (final, steps)
    /\ Permutation (map rating steps) (filter in_range ratings).
Proof.
  destruct (combine_returns ratings) as (steps & E & Hmap & _).
  eexists _, steps. split; [exact E|]. rewrite Hmap. apply sorted_desc_perm.
Qed.

Lemma filter_filter (A : Type) (f : A -> bool) (l : list A) :
  filter f (filter f l) = filter f l.
Proof.
  induction l as [|x l IH]; [reflexivity|]. cbn.
  destruct (f x) eqn:E; [|assumption]. cbn. now rewrite E, IH.
Qed.

(** C7, for the numbers [float] converts: on a list of floats and of
    [int]s that [float] converts the function raises no error; exactly the
    elements with a value in (0, 100] are kept, with their multiplicities,
    one step for each, and the result is the result on the kept elements
    alone.  On a list that holds an [int] that [float] does not convert the
    function raises [OverflowError]. *)
Theorem combine_total_on_filtered (ratings : list number) :
  (Forall converts ratings ->
   exists final steps,
     va_combined_rating_detailed ratings = Ok (final, steps)
     /\ Permutation (map rating steps) (map value_of (filter in_range_number ratings))
     /\ length steps = length (filter in_range_number ratings)
     /\ (forall x, In x (map rating steps)
                   <-> exists r, In r ratings /\ in_range_number r = true
                                 /\ x = value_of r)
     /\ va_combined_rating_detailed (filter in_range_number ratings)
        = va_combined_rating_detailed ratings)
  /\ (Exists (fun r => ~ converts r) ratings ->
      va_combined_rating_detailed ratings = Raise OverflowError).
Proof.
  split.
  - intros H. rewrite (va_combined_rating_detailed_converts _ H).
    set (kept := map value_of (filter in_range_number ratings)).
    destruct (combine_kept kept) as (final & steps & E & P).
    assert (F : filter in_range kept = kept).
    { apply filter_all. eapply Forall_impl; [|apply kept_valid].
      intros x. apply in_range_valid. }
    rewrite F in P.
    exists final, steps. split; [exact E|]. split; [exact P|]. split; [|split].
    + rewrite <- (length_map rating), (Permutation_length P). apply length_map.
    + intros x. split.
      * intros Hx. apply (Permutation_in _ P), in_map_iff in Hx.
        destruct Hx as (r & <- & Hr). apply filter_In in Hr. now exists r.
      * intros (r & Hr & Hv & ->). apply (Permutation_in _ (Permutation_sym P)).
        apply in_map, filter_In. now split.
    + rewrite va_combined_rating_detailed_converts.
      * now rewrite filter_filter.
      * rewrite Forall_forall in *. intros r Hr. apply H.
        now apply filter_In in Hr.
  - intros H. apply va_combined_rating_detailed_raises.
    apply Exists_exists in H. destruct H as (r & Hr & Hn).
    apply Exists_exists. exists r. split; [assumption|].
    destruct (converts_or_raises r); [contradiction | assumption].
Qed.

(** [combine_total_on_filtered] at [[150, 50, 30.5]]: the 50 and the 30.5
    are kept. *)
Lemma combine_total_on_filtered_witness :
  Forall converts [PyInt 150; PyInt 50; PyFloat (lit 61 2)]
  /\ exists final steps,
       va_combined_rating_detailed [PyInt 150; PyInt 50; PyFloat (lit 61 2)]
       = Ok (final, steps)
       /\ Permutation (map rating steps) [nat_float 50; lit 61 2]
       /\ length steps = 2%nat.
Proof.
  assert (H : Forall converts [PyInt 150; PyInt 50; PyFloat (lit 61 2)])
    by (repeat constructor; eexists; vm_compute; reflexivity).
  split; [exact H|].
  destruct (proj1 (combine_total_on_filtered _) H) as (final & steps & E & P & L & _).
  exists final, steps. split; [exact E|]. split; [exact P | exact L].
Defined.

(** The [int] 10^400 is a real number, and on the list [[50, 10^400]] the
    function raises [OverflowError]. *)
Lemma huge_int_raises :
  va_combined_rating_detailed [PyInt 50; PyInt (10 ^ 400)] = Raise OverflowError.
Proof. vm_compute. reflexivity. Qed.

(** C8: every rounded total of the trace lies between 0 and 100; the loop
    keeps it there by itself, so that the clamp after the loop changes
    nothing. *)
Theorem after_round_within_bounds (ratings : list pyfloat) :
  exists final steps,
    combine ratings = Ok (final, steps)
    /\ Forall (fun s => (0 <= combined_after_round s <= 100)%Z) steps
    /\ spec_clamp (last (map combined_after_round steps) 0%Z)
       = last (map combined_after_round steps) 0%Z.
Proof.
  destruct (combine_returns ratings) as (steps & E & _ & Htrace).
  eexists _, steps. split; [exact E|]. split.
  - exact (trace_totals steps 0%N Htrace).
  - rewrite <- total_after_last.
    pose proof (total_after_bounds steps 0%N ltac:(lia) Htrace) as B.
    cbn [Z.of_N] in B. unfold spec_clamp.
    destruct (Z.ltb_spec (total_after 0 steps) 0); [lia|].
    destruct (Z.ltb_spec 100 (total_after 0 steps)); [lia | reflexivity].
Qed.

Lemma fleb_nat (a b : N) : (a <= b)%N -> fleb (nat_float a) (nat_float b) = true.
Proof.
  intros H. unfold nat_float. cbn -[N.mul]. apply Z.leb_le. nia.
Qed.

Lemma trace_monotone (steps : list step) :
  forall n, (n <= 100)%N -> trace_from n steps ->
    StronglySorted Z.le (map combined_after_round steps)
    /\ StronglySorted (fun x y => fleb y x = true) (map remaining_before steps)
    /\ Forall (fun s => exists m, (m <= 100 - n)%N
                                  /\ remaining_before s = nat_float m) steps.
Proof.
  induction steps as [|s rest IH]; intros n Hn H; cbn [map].
  - repeat constructor.
  - destruct H as [Hs Hrest]. pose proof (sf_after _ _ Hs) as A.
    destruct (IH (Z.to_N (combined_after_round s)) ltac:(lia) Hrest)
      as (IH1 & IH2 & IH3).
    assert (R : Forall (fun s' => exists m, (m <= 100 - n)%N
                                            /\ remaining_before s' = nat_float m) rest).
    { eapply Forall_impl; [|exact IH3]. cbn beta.
      intros s' (m & Hm & Em). exists m. split; [lia | assumption]. }
    split; [|split].
    + constructor; [assumption|]. apply Forall_map.
      eapply Forall_impl; [|exact (trace_totals rest _ Hrest)].
      cbn beta. intros s' B. rewrite Z2N.id in B; lia.
    + constructor; [assumption|]. apply Forall_map.
      eapply Forall_impl; [|exact R]. cbn beta.
      intros s' (m & Hm & ->). rewrite (sf_remaining _ _ Hs). now apply fleb_nat.
    + constructor; [|assumption].
      exists (100 - n)%N. split; [lia | exact (sf_remaining _ _ Hs)].
Qed.

(** C9: along the trace the rounded totals never decrease, and the
    remaining capacities never increase. *)
Theorem totals_never_decrease (ratings : list pyfloat) :
  exists final steps,
    combine ratings = Ok (final, steps)
    /\ StronglySorted Z.le (map combined_after_round steps)
    /\ StronglySorted (fun x y => fleb y x = true) (map remaining_before steps).
Proof.
  destruct (combine_returns ratings) as (steps & E & _ & Htrace).
  destruct (trace_monotone steps 0%N ltac:(lia) Htrace) as (H1 & H2 & _).
  eexists _, steps. split; [exact E|]. split; assumption.
Qed.







End Claims.

(** ** Bounds on the totals of the trace

    A step adds to the total at most its rating rounded up to a whole
    number, and the first step reaches the whole part of its rating. *)

Section Brackets.
Local Open Scope N_scope.

Lemma ulps_split : ulps = 2 ^ 34 * 2 ^ 1040.
Proof. unfold ulps. rewrite <- N.pow_add_r. reflexivity. Qed.

Lemma pow1040_pos : 0 < 2 ^ 1040.
Proof. apply N.neq_0_lt_0, N.pow_nonzero. discriminate. Qed.

Lemma hundredth_bracket (n : N) :
  100 * (n * 2 ^ 34 / 100) <= n * 2 ^ 34 < 100 * (n * 2 ^ 34 / 100 + 1).
Proof.
  split.
  - apply N.Div0.mul_div_le.
  - rewrite N.add_1_r. apply N.mul_succ_div_gt. discriminate.
Qed.

Lemma below_hundredth_le (n : N) : 100 * below_hundredth n <= n * ulps.
Proof.
  unfold below_hundredth. rewrite ulps_split.
  pose proof (hundredth_bracket n). pose proof pow1040_pos.
  revert H H0. generalize (n * 2 ^ 34 / 100) (2 ^ 1040). change (2 ^ 34) with 17179869184.
  intros g w H H0. nia.
Qed.

Lemma above_hundredth_ge (n : N) : n * ulps <= 100 * above_hundredth n.
Proof.
  unfold above_hundredth. rewrite ulps_split.
  pose proof (hundredth_bracket n). pose proof pow1040_pos.
  revert H H0. generalize (n * 2 ^ 34 / 100) (2 ^ 1040). change (2 ^ 34) with 17179869184.
  intros g w H H0. nia.
Qed.

(** Both are within a half of [n] once multiplied by 100. *)
Lemma below_hundredth_near (n : N) : 2 * (n * ulps) < 2 * (100 * below_hundredth n) + ulps.
Proof.
  unfold below_hundredth. rewrite ulps_split.
  pose proof (hundredth_bracket n). pose proof pow1040_pos.
  revert H H0. generalize (n * 2 ^ 34 / 100) (2 ^ 1040). change (2 ^ 34) with 17179869184.
  intros g w H H0. nia.
Qed.

Lemma above_hundredth_near (n : N) : 2 * (100 * above_hundredth n) < 2 * (n * ulps) + ulps.
Proof.
  unfold above_hundredth. rewrite ulps_split.
  pose proof (hundredth_bracket n). pose proof pow1040_pos.
  revert H H0. generalize (n * 2 ^ 34 / 100) (2 ^ 1040). change (2 ^ 34) with 17179869184.
  intros g w H H0. nia.
Qed.

Lemma representable_1040 (m : N) : m < 2 ^ 53 -> representable (m * 2 ^ 1040).
Proof. intros H. exists m, 1040. repeat split; [assumption | discriminate]. Qed.

Lemma hundredth_small (n : N) : n <= 100 -> n * 2 ^ 34 / 100 <= 2 ^ 34.
Proof.
  intros H. apply N.Div0.div_le_upper_bound.
  change (2 ^ 34) with 17179869184. lia.
Qed.

Lemma representable_below (n : N) : n <= 100 -> representable (below_hundredth n).
Proof.
  intros H. apply representable_1040. pose proof (hundredth_small n H) as S.
  revert S. generalize (n * 2 ^ 34 / 100). change (2 ^ 34) with 17179869184.
  change (2 ^ 53) with 9007199254740992. lia.
Qed.

Lemma representable_above (n : N) : n <= 100 -> representable (above_hundredth n).
Proof.
  intros H. apply representable_1040. pose proof (hundredth_small n H) as S.
  revert S. generalize (n * 2 ^ 34 / 100). change (2 ^ 34) with 17179869184.
  change (2 ^ 53) with 9007199254740992. lia.
Qed.

Lemma representable_hundred_below (n : N) :
  n <= 100 -> representable (100 * below_hundredth n).
Proof.
  intros H. unfold below_hundredth. rewrite N.mul_assoc.
  apply representable_1040. pose proof (hundredth_small n H) as S.
  revert S. generalize (n * 2 ^ 34 / 100). change (2 ^ 34) with 17179869184.
  change (2 ^ 53) with 9007199254740992. lia.
Qed.

Lemma representable_total_above (c n : N) :
  c <= 100 -> n <= 100 -> representable (c * ulps + 100 * above_hundredth n).
Proof.
  intros Hc H. unfold above_hundredth. rewrite ulps_split.
  replace (c * (2 ^ 34 * 2 ^ 1040) + 100 * ((n * 2 ^ 34 / 100 + 1) * 2 ^ 1040))
    with ((c * 2 ^ 34 + 100 * (n * 2 ^ 34 / 100 + 1)) * 2 ^ 1040) by ring.
  apply representable_1040. pose proof (hundredth_small n H) as S.
  revert S. generalize (n * 2 ^ 34 / 100). change (2 ^ 34) with 17179869184.
  change (2 ^ 53) with 9007199254740992. lia.
Qed.

End Brackets.

Section StepBounds.
Local Open Scope N_scope.

Lemma of_mag_le (n d b : N) :
  d <> 0 -> representable b -> n <= b * d ->
  exists k, of_mag false n d = Fin false k /\ k <= b.
Proof.
  intros Hd Hb Hn. destruct (round_mag_le n d b Hd Hb Hn) as (k & E & L).
  exists k. unfold of_mag. now rewrite E.
Qed.

Lemma of_mag_ge (n d b k : N) :
  d <> 0 -> representable b -> b * d <= n -> of_mag false n d = Fin false k -> b <= k.
Proof.
  intros Hd Hb Hn. unfold of_mag.
  destruct (round_mag n d) as [k'|] eqn:E; [|discriminate].
  intros [= <-]. exact (round_mag_ge n d b k' Hd Hb Hn E).
Qed.

Lemma fadd_nonneg (x y : N) : fadd (Fin false x) (Fin false y) = of_mag false (x + y) 1.
Proof.
  unfold fadd, signed.
  destruct (Z.eqb_spec (Z.of_N x + Z.of_N y) 0) as [E|E].
  - replace (x + y) with 0 by lia. unfold of_mag.
    now rewrite round_mag_zero by discriminate.
  - replace (Z.abs_N (Z.of_N x + Z.of_N y)) with (x + y)
      by (apply N2Z.inj; rewrite N2Z.inj_abs_N; lia).
    destruct (Z.ltb_spec (Z.of_N x + Z.of_N y) 0); [lia | reflexivity].
Qed.

Lemma fmul_nonneg (x y : N) : fmul (Fin false x) (Fin false y) = of_mag false (x * y) ulps.
Proof. reflexivity. Qed.

Lemma rne_div_below_half (n d b : N) :
  d <> 0 -> 2 * n < (2 * b + 1) * d -> rne_div n d <= b.
Proof.
  intros Hd H. destruct (rne_div_near n d Hd) as [L _].
  revert L. generalize (rne_div n d). intros r L. nia.
Qed.

Lemma rne_div_above_half (n d b : N) :
  d <> 0 -> 2 * b * d < 2 * n + d -> b <= rne_div n d.
Proof.
  intros Hd H. destruct (rne_div_near n d Hd) as [_ U].
  revert U. generalize (rne_div n d). intros r U. nia.
Qed.

(** The body of the loop, once [combined] is known to hold [c]. *)
Lemma loop_body_eval (combined : number) (c k : N) :
  holds combined c -> c <= 100 ->
  loop_body combined (Fin false k)
  = let q := of_mag false (k * ulps) (100 * ulps) in
    let added := fmul (nat_float (100 - c)) q in
    let before := fadd (nat_float c) added in
    bind (py_round before)
      (fun after =>
         Ok (PyInt after,
             {| rating := Fin false k;
                remaining_before := nat_float (100 - c);
                added := added;
                combined_before_round := before;
                combined_after_round := after |})).
Proof.
  intros Hc Hn. unfold loop_body.
  rewrite (holds_as_float _ _ Hc Hn). cbn [bind].
  rewrite (fsub_hundred _ Hn).
  unfold hundred at 1, nat_float at 1.
  rewrite fdiv_nonzero by (pose proof ulps_pos; lia).
  reflexivity.
Qed.

(** A step raises the total by at most an integer bound of its rating, and
    the first step reaches every integer its rating reaches. *)
Lemma loop_body_bounds (combined : number) (c k : N) (z : Z) (s : step) :
  holds combined c -> c <= 100 -> k <= 100 * ulps ->
  loop_body combined (Fin false k) = Ok (PyInt z, s) ->
  (forall m, m <= 100 -> k <= m * ulps -> (z <= Z.of_N (c + m))%Z)
  /\ (forall n, c = 0 -> n <= 100 -> n * ulps <= k -> (Z.of_N n <= z)%Z).
Proof.
  intros Hc Hn Hk. rewrite (loop_body_eval combined c k Hc Hn). cbv zeta.
  pose proof ulps_pos as U.
  assert (Hd : 100 * ulps <> 0) by lia.
  assert (Hu : ulps <> 0) by lia.
  (* the quotient *)
  assert (K1 : k * ulps <= ulps * (100 * ulps))
    by (rewrite (N.mul_comm ulps); now apply N.mul_le_mono_r).
  destruct (of_mag_le (k * ulps) (100 * ulps) ulps Hd representable_ulps K1)
    as (q & Eq & Hq1).
  rewrite Eq.
  (* the product *)
  unfold nat_float. rewrite fmul_nonneg.
  assert (K2 : (100 - c) * ulps * q <= (100 - c) * ulps * ulps)
    by now apply N.mul_le_mono_l.
  destruct (of_mag_le ((100 - c) * ulps * q) ulps ((100 - c) * ulps) Hu
              (representable_nat (100 - c) ltac:(lia)) K2) as (a & Ea & Ha1).
  rewrite Ea.
  (* the sum *)
  rewrite fadd_nonneg.
  assert (K3 : c * ulps + a <= 100 * ulps * 1) by nia.
  destruct (of_mag_le (c * ulps + a) 1 (100 * ulps) ltac:(lia)
              (representable_nat 100 ltac:(lia)) K3) as (b & Eb & Hb1).
  rewrite Eb. cbn [py_round bind signed]. intros [= <- _].
  split.
  - intros m Hm Hkm.
    pose proof (above_hundredth_ge m) as A1.
    pose proof (above_hundredth_near m) as A2.
    assert (Q : q <= above_hundredth m).
    { destruct (of_mag_le (k * ulps) (100 * ulps) (above_hundredth m) Hd
                  (representable_above m Hm) ltac:(nia)) as (q' & Eq' & Hq').
      congruence. }
    assert (A : a <= 100 * above_hundredth m).
    { destruct (of_mag_le ((100 - c) * ulps * q) ulps (100 * above_hundredth m) Hu)
        as (a' & Ea' & Ha').
      - replace (100 * above_hundredth m) with (0 * ulps + 100 * above_hundredth m) by lia.
        apply representable_total_above; lia.
      - assert ((100 - c) * q <= 100 * above_hundredth m) by nia. nia.
      - congruence. }
    assert (B : b <= c * ulps + 100 * above_hundredth m).
    { destruct (of_mag_le (c * ulps + a) 1 (c * ulps + 100 * above_hundredth m)
                  ltac:(lia) (representable_total_above c m Hn Hm) ltac:(lia))
        as (b' & Eb' & Hb').
      congruence. }
    apply N2Z.inj_le, rne_div_below_half; [assumption | nia].
  - intros n -> Hn' Hnk.
    pose proof (below_hundredth_le n) as A1.
    pose proof (below_hundredth_near n) as A2.
    assert (Q : below_hundredth n <= q).
    { apply (of_mag_ge (k * ulps) (100 * ulps) (below_hundredth n) q Hd
               (representable_below n Hn')); [nia | assumption]. }
    assert (A : 100 * below_hundredth n <= a).
    { apply (of_mag_ge ((100 - 0) * ulps * q) ulps (100 * below_hundredth n) a Hu
               (representable_hundred_below n Hn')); [|assumption].
      replace (100 - 0) with 100 by lia. nia. }
    assert (B : 100 * below_hundredth n <= b).
    { apply (of_mag_ge (0 * ulps + a) 1 (100 * below_hundredth n) b ltac:(lia)
               (representable_hundred_below n Hn')); [lia | assumption]. }
    apply N2Z.inj_le, rne_div_above_half; [assumption | nia].
Qed.

End StepBounds.

Section TraceBounds.
Local Open Scope N_scope.

Lemma rounded_up_spec (k : N) :
  k <= 100 * ulps ->
  k <= rounded_up (Fin false k) * ulps /\ rounded_up (Fin false k) <= 100.
Proof.
  intros Hk. cbn [rounded_up]. pose proof ulps_pos as U.
  assert (Hu : ulps <> 0) by lia. split.
  - pose proof (N.mul_succ_div_gt (k + (ulps - 1)) ulps Hu) as G.
    revert G. generalize ((k + (ulps - 1)) / ulps). intros m G. nia.
  - assert (L : (k + (ulps - 1)) / ulps < 101); [|lia].
    apply N.Div0.div_lt_upper_bound. lia.
Qed.

Lemma whole_part_spec (k : N) :
  k <= 100 * ulps ->
  whole_part (Fin false k) * ulps <= k /\ whole_part (Fin false k) <= 100.
Proof.
  intros Hk. cbn [whole_part]. pose proof ulps_pos as U. split.
  - rewrite N.mul_comm. apply N.Div0.mul_div_le.
  - apply N.Div0.div_le_upper_bound. lia.
Qed.

Lemma whole_part_nat (n : N) : whole_part (nat_float n) = n.
Proof.
  unfold nat_float. cbn [whole_part]. apply N.div_mul. discriminate.
Qed.

Lemma rounded_up_nat (n : N) : rounded_up (nat_float n) = n.
Proof.
  unfold nat_float. cbn [rounded_up]. pose proof ulps_pos as U.
  symmetry. apply (N.div_unique _ _ n (ulps - 1)); lia.
Qed.

Lemma loop_increments (clean : list pyfloat) :
  forall combined c final steps,
    holds combined c -> c <= 100 -> Forall valid_rating clean ->
    loop combined clean = Ok (final, steps) ->
    increments (Z.of_N c) steps
    /\ (c = 0 -> forall s, nth_error steps 0 = Some s ->
                           (Z.of_N (whole_part (rating s)) <= combined_after_round s)%Z).
Proof.
  induction clean as [|r rest IH]; intros combined c final steps Hc Hn Hall Hloop.
  - cbn in Hloop. injection Hloop as <- <-. split; [exact I | intros _ s H; discriminate].
  - inversion Hall as [|? ? Hr Hrest]; subst.
    destruct (loop_body_valid combined c r Hc Hn Hr) as (c' & s & Hbody & Hrat & Hafter & Hstep).
    pose proof (sf_after _ _ Hstep) as A. rewrite Hafter in A.
    cbn [loop] in Hloop. rewrite Hbody in Hloop. cbn [bind] in Hloop.
    destruct (loop (PyInt (Z.of_N c')) rest) as [[final' steps']|e] eqn:E; [|discriminate].
    cbn [bind] in Hloop. injection Hloop as <- <-.
    destruct (IH _ c' _ _ (or_introl eq_refl) ltac:(lia) Hrest E) as [IH1 _].
    destruct Hr as (k & -> & Hk).
    destruct (loop_body_bounds combined c k _ s Hc Hn (proj2 Hk) Hbody) as [Bup Blo].
    destruct (rounded_up_spec k (proj2 Hk)) as [R1 R2].
    destruct (whole_part_spec k (proj2 Hk)) as [W1 W2].
    cbn [increments]. rewrite Hrat, Hafter. split; [split|].
    + rewrite <- N2Z.inj_add. now apply Bup.
    + exact IH1.
    + intros C0 s0 [= <-]. rewrite Hrat, Hafter. now apply Blo.
Qed.

Lemma combine_loop (ratings : list pyfloat) (final : Z) (steps : list step) :
  combine ratings = Ok (final, steps) ->
  steps = []
  \/ exists last_combined,
       loop (PyFloat zero) (sorted_desc (filter in_range ratings))
       = Ok (last_combined, steps).
Proof.
  rewrite !combine_unfold; cbv zeta.
  destruct ratings as [|r0 l]; [intros [= <- <-]; now left|].
  destruct (sorted_desc (filter in_range (r0 :: l))) as [|r clean] eqn:E;
    [intros [= <- <-]; now left|].
  destruct (loop (PyFloat zero) (r :: clean)) as [[cf steps']|e] eqn:L; [|discriminate].
  cbn [bind]. destruct (round_number cf); [|discriminate].
  cbn [bind]. intros [= <- <-]. right. now exists cf.
Qed.

Lemma combine_increments (ratings : list pyfloat) (final : Z) (steps : list step) :
  combine ratings = Ok (final, steps) ->
  increments 0 steps
  /\ (forall s, nth_error steps 0 = Some s ->
                (Z.of_N (whole_part (rating s)) <= combined_after_round s)%Z).
Proof.
  intros H. destruct (combine_loop _ _ _ H) as [->|(cf & L)].
  - split; [exact I | intros s E; discriminate].
  - destruct (loop_increments _ (PyFloat zero) 0 cf steps
                (or_intror (conj eq_refl eq_refl)) ltac:(lia) (clean_valid ratings) L)
      as [I1 I2].
    split; [exact I1 | now apply I2].
Qed.

Lemma increments_consecutive (steps : list step) :
  forall c i s s',
    increments c steps ->
    nth_error steps i = Some s -> nth_error steps (S i) = Some s' ->
    (combined_after_round s'
     <= combined_after_round s + Z.of_N (rounded_up (rating s')))%Z.
Proof.
  induction steps as [|s0 rest IH]; intros c i s s' H Hi Hi'.
  - destruct i; discriminate.
  - destruct H as [_ Hrest]. destruct i as [|i]; cbn in Hi, Hi'.
    + injection Hi as <-. destruct rest as [|s1 rest']; [discriminate|].
      injection Hi' as <-. now destruct Hrest.
    + eapply IH; eauto.
Qed.

Lemma increments_total (steps : list step) :
  forall c, increments c steps ->
            (total_after c steps
             <= c + Z.of_N (total_of (map rounded_up (map rating steps))))%Z.
Proof.
  induction steps as [|s rest IH]; intros c H; cbn [total_after map total_of fold_right].
  - lia.
  - destruct H as [Hs Hrest]. specialize (IH _ Hrest).
    fold (total_of (map rounded_up (map rating rest))) in *.
    rewrite N2Z.inj_add. lia.
Qed.

Lemma total_of_perm (l l' : list N) : Permutation l l' -> total_of l = total_of l'.
Proof.
  induction 1; cbn [total_of fold_right] in *; try lia.
  fold (total_of l) in *. fold (total_of l') in *. lia.
Qed.

End TraceBounds.

Section EngineBounds.
Local Open Scope N_scope.

Lemma final_rounding_monotone (c c' : Z) :
  (c <= c')%Z -> (final_rounding c <= final_rounding c')%Z.
Proof.
  intros H. unfold final_rounding.
  assert (B : (0 <= Z.min 100 (Z.max 0 c) <= Z.min 100 (Z.max 0 c'))%Z) by lia.
  revert B. generalize (Z.min 100 (Z.max 0 c)) (Z.min 100 (Z.max 0 c')).
  intros k k' B.
  destruct (Z.leb_spec 5 (k mod 10)), (Z.leb_spec 5 (k' mod 10));
    Z.div_mod_to_equations; lia.
Qed.

Lemma final_rounding_fixed (c : Z) :
  (0 <= c <= 100)%Z -> (c mod 10 = 0)%Z -> final_rounding c = c.
Proof.
  intros B M. unfold final_rounding.
  replace (Z.min 100 (Z.max 0 c)) with c by lia.
  rewrite M. cbn. lia.
Qed.

(** Descending order puts the largest whole part first. *)
Lemma whole_part_le (r r' : pyfloat) :
  valid_rating r -> valid_rating r' -> fltb r r' = false ->
  whole_part r' <= whole_part r.
Proof.
  intros (k & -> & Hk) (k' & -> & Hk') H.
  cbn -[N.mul] in H. cbn [whole_part].
  apply N.Div0.div_le_mono. apply Z.ltb_ge in H. lia.
Qed.

Lemma strongly_sorted_nth (A : Type) (R : A -> A -> Prop) (l : list A) :
  StronglySorted R l ->
  forall i j a b, (i < j)%nat ->
                  nth_error l i = Some a -> nth_error l j = Some b -> R a b.
Proof.
  induction 1 as [|x l Hl IH Hx]; intros i j a b Hij Hi Hj.
  - destruct i; discriminate.
  - destruct j as [|j]; [lia|]. cbn in Hj. destruct i as [|i]; cbn in Hi.
    + injection Hi as <-. rewrite Forall_forall in Hx.
      apply Hx. eapply nth_error_In, Hj.
    + apply (IH i j); [lia | assumption | assumption].
Qed.

Lemma not_below_fleb (r r' : pyfloat) :
  valid_rating r -> valid_rating r' -> fltb r r' = false -> fleb r' r = true.
Proof.
  intros (k & -> & Hk) (k' & -> & Hk') H. cbn -[N.mul] in *.
  apply Z.ltb_ge in H. now apply Z.leb_le.
Qed.

Lemma total_after_ge (steps : list step) :
  forall n, n <= 100 -> trace_from n steps ->
            forall s, In s steps -> (combined_after_round s <= total_after (Z.of_N n) steps)%Z.
Proof.
  induction steps as [|s0 rest IH]; intros n Hn H s Hin; [destruct Hin|].
  destruct H as [Hs Hrest]. pose proof (sf_after _ _ Hs) as A.
  cbn [total_after].
  assert (E : combined_after_round s0 = Z.of_N (Z.to_N (combined_after_round s0)))
    by (rewrite Z2N.id; lia).
  assert (Hn' : Z.to_N (combined_after_round s0) <= 100) by lia.
  rewrite E. destruct Hin as [<-|Hin].
  - rewrite <- E at 1.
    pose proof (total_after_bounds rest _ Hn' Hrest) as B. rewrite <- E in *. lia.
  - now apply IH.
Qed.

Lemma combine_perm (l l' : list pyfloat) :
  Permutation l l' -> combine l = combine l'.
Proof.
  intros P. rewrite !combine_unfold; cbv zeta.
  rewrite (clean_perm _ _ P).
  destruct l, l'; try reflexivity.
  apply Permutation_nil in P. discriminate.
Qed.

Lemma combine_filter (l : list pyfloat) : combine (filter in_range l) = combine l.
Proof.
  rewrite !combine_unfold; cbv zeta.
  rewrite filter_filter.
  destruct l as [|r0 l]; [reflexivity|].
  destruct (filter in_range (r0 :: l)) eqn:F; reflexivity.
Qed.

(** X1: the steps are in descending order of rating: no step has a rating
    above the rating of an earlier step. *)
Theorem steps_in_descending_order (ratings : list pyfloat) :
  exists final steps,
    combine ratings = Ok (final, steps)
    /\ forall i j s s',
         (i < j)%nat -> nth_error steps i = Some s -> nth_error steps j = Some s' ->
         fleb (rating s') (rating s) = true.
Proof.
  destruct (combine_returns ratings) as (steps & E & Hmap & _).
  eexists _, steps. split; [exact E|]. intros i j s s' Hij Hi Hj.
  pose proof (clean_valid ratings) as V. rewrite <- Hmap in V.
  rewrite Forall_forall in V.
  apply not_below_fleb.
  - apply V, in_map. eapply nth_error_In, Hi.
  - apply V, in_map. eapply nth_error_In, Hj.
  - pose proof (sorted_desc_descending _ (filter_valid ratings)) as D.
    rewrite <- Hmap in D.
    apply (strongly_sorted_nth _ _ _ D i j); [assumption| |]; now apply map_nth_error.
Qed.

(** X2: a step raises the rounded total by at most its rating rounded up to
    a whole number: the first total is at most the first rating rounded up,
    and every later total at most the total before it plus the rating of the
    step rounded up. *)
Theorem step_adds_at_most_rating (ratings : list pyfloat) :
  exists final steps,
    combine ratings = Ok (final, steps)
    /\ (forall s, nth_error steps 0 = Some s ->
                  (combined_after_round s <= Z.of_N (rounded_up (rating s)))%Z)
    /\ (forall i s s',
           nth_error steps i = Some s -> nth_error steps (S i) = Some s' ->
           (combined_after_round s'
            <= combined_after_round s + Z.of_N (rounded_up (rating s')))%Z).
Proof.
  destruct (combine_returns ratings) as (steps & E & _).
  destruct (combine_increments _ _ _ E) as [I _].
  eexists _, steps. split; [exact E|]. split.
  - intros s Hs. destruct steps as [|s0 rest]; [discriminate|].
    injection Hs as <-. destruct I as [I _]. lia.
  - intros i s s' Hi Hi'. exact (increments_consecutive steps 0%Z i s s' I Hi Hi').
Qed.

(** X3: the total the loop ends with is at most the sum of the kept ratings,
    each rounded up to a whole number, and the final rating at most the
    final rounding of that sum. *)
Theorem total_at_most_sum (ratings : list pyfloat) :
  exists final steps,
    combine ratings = Ok (final, steps)
    /\ (last (map combined_after_round steps) 0
        <= Z.of_N (total_of (map rounded_up (filter in_range ratings))))%Z
    /\ (final
        <= final_rounding (Z.of_N (total_of (map rounded_up (filter in_range ratings)))))%Z.
Proof.
  destruct (combine_returns ratings) as (steps & E & Hmap & _).
  destruct (combine_increments _ _ _ E) as [I _].
  pose proof (increments_total steps 0%Z I) as T.
  rewrite (total_of_perm (map rounded_up (map rating steps))
                         (map rounded_up (filter in_range ratings))) in T.
  - eexists _, steps. split; [exact E|]. split.
    + rewrite <- total_after_last. lia.
    + apply final_rounding_monotone. lia.
  - apply Permutation_map. rewrite Hmap. apply sorted_desc_perm.
Qed.

(** X4: every rounded total of the trace is at least the whole part of every
    kept rating, and so the final rating is at least the final rounding of
    that whole part. *)
Theorem total_at_least_every_rating (ratings : list pyfloat) :
  exists final steps,
    combine ratings = Ok (final, steps)
    /\ forall r, In r ratings -> valid_rating r ->
         Forall (fun s => (Z.of_N (whole_part r) <= combined_after_round s)%Z) steps
         /\ (final_rounding (Z.of_N (whole_part r)) <= final)%Z.
Proof.
  destruct (combine_returns ratings) as (steps & E & Hmap & Htrace).
  destruct (combine_increments _ _ _ E) as [_ W].
  eexists _, steps. split; [exact E|]. intros r Hin Hr.
  assert (Hr' : In r (map rating steps)).
  { rewrite Hmap. eapply Permutation_in; [symmetry; apply sorted_desc_perm|].
    apply filter_In. split; [assumption | now apply in_range_valid]. }
  pose proof (clean_valid ratings) as V. rewrite <- Hmap in V.
  pose proof (sorted_desc_descending _ (filter_valid ratings)) as D.
  rewrite <- Hmap in D.
  destruct steps as [|s0 rest]; [destruct Hr'|].
  specialize (W s0 eq_refl).
  assert (L : whole_part r <= whole_part (rating s0)).
  { cbn [map] in Hr', V, D. inversion V as [|? ? V0 V1]; subst.
    inversion D as [|? ? D1 D0]; subst.
    destruct Hr' as [<-|Hr']; [lia|].
    rewrite Forall_forall in D0, V1.
    apply whole_part_le; [assumption | now apply V1 | now apply D0]. }
  destruct (trace_monotone (s0 :: rest) 0 ltac:(lia) Htrace) as (M & _).
  cbn [map] in M. inversion M as [|? ? M1 M0]; subst.
  assert (A : Forall (fun s => (Z.of_N (whole_part r) <= combined_after_round s)%Z)
                     (s0 :: rest)).
  { constructor; [lia|]. rewrite Forall_forall in *. intros s Hs.
    specialize (M0 _ (in_map combined_after_round _ _ Hs)). lia. }
  split; [exact A|].
  apply final_rounding_monotone.
  pose proof (total_after_ge (s0 :: rest) 0 ltac:(lia) Htrace s0 (or_introl eq_refl)) as G.
  cbn [Z.of_N] in G. lia.
Qed.

(** X5: when the rating of the first step, the largest kept rating, is a
    whole number, the rounded total of that step is that number. *)
Theorem first_total_of_whole_rating (ratings : list pyfloat) :
  exists final steps,
    combine ratings = Ok (final, steps)
    /\ forall s n, nth_error steps 0 = Some s -> rating s = nat_float n ->
                   combined_after_round s = Z.of_N n.
Proof.
  destruct (combine_returns ratings) as (steps & E & _).
  destruct (combine_increments _ _ _ E) as [I W].
  eexists _, steps. split; [exact E|]. intros s n Hs Hn.
  specialize (W s Hs). destruct steps as [|s0 rest]; [discriminate|].
  injection Hs as <-. destruct I as [I _].
  rewrite Hn, whole_part_nat in W. rewrite Hn, rounded_up_nat in I. lia.
Qed.

(** X6: a single whole-number rating between 1 and 100 gives one step, which
    starts with 100 remaining and ends with the rating as its total, and the
    final rating is the final rounding of the rating. *)
Theorem single_whole_rating (n : N) :
  0 < n <= 100 ->
  exists s,
    combine [nat_float n] = Ok (final_rounding (Z.of_N n), [s])
    /\ rating s = nat_float n
    /\ remaining_before s = hundred
    /\ combined_after_round s = Z.of_N n.
Proof.
  intros Hn.
  assert (V : in_range (nat_float n) = true).
  { apply in_range_valid. exists (n * ulps). split; [reflexivity|].
    pose proof ulps_pos. nia. }
  destruct (combine_returns [nat_float n]) as (steps & E & Hmap & Htrace).
  destruct (combine_increments _ _ _ E) as [I W].
  cbn [filter] in Hmap. rewrite V in Hmap. cbn in Hmap.
  destruct steps as [|s [|s' rest]]; try discriminate.
  injection Hmap as Hrat. specialize (W s eq_refl).
  destruct I as [I _]. destruct Htrace as [Hs _].
  rewrite Hrat, whole_part_nat in W. rewrite Hrat, rounded_up_nat in I.
  assert (A : combined_after_round s = Z.of_N n) by lia.
  exists s. cbn [total_after] in E. rewrite A in E.
  repeat split; try assumption. exact (sf_remaining _ _ Hs).
Qed.

(** [single_whole_rating] at the rating 45, which gives 50. *)
Lemma single_whole_rating_witness :
  0 < 45 <= 100
  /\ exists s,
       combine [nat_float 45] = Ok (50%Z, [s])
       /\ rating s = nat_float 45
       /\ remaining_before s = hundred
       /\ combined_after_round s = 45%Z.
Proof.
  assert (H : 0 < 45 <= 100) by lia.
  exact (conj H (single_whole_rating 45 H)).
Defined.

(** X7: the rounding after the loop is monotone, and applying it to its own
    result changes nothing. *)
Theorem final_rounding_monotone_idempotent (c c' : Z) :
  (c <= c')%Z ->
  (final_rounding c <= final_rounding c')%Z
  /\ final_rounding (final_rounding c) = final_rounding c.
Proof.
  intros H. split; [now apply final_rounding_monotone|].
  destruct (final_rounding_range c) as [B M].
  now apply final_rounding_fixed.
Qed.

(** [final_rounding_monotone_idempotent] at 44 and 45, which give 40 and 50. *)
Lemma final_rounding_monotone_idempotent_witness :
  (44 <= 45)%Z
  /\ (final_rounding 44 <= final_rounding 45)%Z
  /\ final_rounding (final_rounding 44) = final_rounding 44.
Proof.
  assert (H : (44 <= 45)%Z) by lia.
  exact (conj H (final_rounding_monotone_idempotent 44 45 H)).
Defined.

(** X8: in every step, [remaining_before] is a whole number between 0 and
    100, [added] is a finite float between 0 and [remaining_before], and
    [combined_before_round] lies between the total the step starts from and
    100. *)
Theorem added_within_remaining (ratings : list pyfloat) :
  exists final steps,
    combine ratings = Ok (final, steps)
    /\ Forall (fun s =>
                 exists m a b,
                   m <= 100
                   /\ remaining_before s = nat_float m
                   /\ added s = Fin false a /\ a <= m * ulps
                   /\ combined_before_round s = Fin false b
                   /\ (100 - m) * ulps <= b <= 100 * ulps) steps.
Proof.
  destruct (combine_returns ratings) as (steps & E & _ & Htrace).
  eexists _, steps. split; [exact E|].
  assert (G : forall n, n <= 100 -> trace_from n steps ->
              Forall (fun s =>
                 exists m a b,
                   m <= 100
                   /\ remaining_before s = nat_float m
                   /\ added s = Fin false a /\ a <= m * ulps
                   /\ combined_before_round s = Fin false b
                   /\ (100 - m) * ulps <= b <= 100 * ulps) steps).
  { clear E Htrace. induction steps as [|s rest IH]; intros n Hn H; [constructor|].
    destruct H as [Hs Hrest]. pose proof (sf_after _ _ Hs) as A. constructor.
    - destruct (sf_added _ _ Hs) as (a & Ha & La).
      destruct (sf_before _ _ Hs) as (b & Hb & Lb).
      exists (100 - n), a, b. repeat split; try assumption; try lia.
      + exact (sf_remaining _ _ Hs).
      + replace (100 - (100 - n)) with n by lia. lia.
    - apply (IH (Z.to_N (combined_after_round s))); [lia | assumption]. }
  exact (G 0 ltac:(lia) Htrace).
Qed.

(** X9: the ratings recorded in the steps, given back to the function, give
    the same final rating and the same steps. *)
Theorem combine_of_step_ratings (ratings : list pyfloat) :
  exists final steps,
    combine ratings = Ok (final, steps)
    /\ combine (map rating steps) = Ok (final, steps).
Proof.
  destruct (combine_returns ratings) as (steps & E & Hmap & _).
  eexists _, steps. split; [exact E|].
  rewrite Hmap, (combine_perm _ _ (sorted_desc_perm _)), combine_filter. exact E.
Qed.

End EngineBounds.

(** ** The handlers of the window *)

Section WindowRange.

Local Opaque ulps.

Lemma out_of_range_valid (r : pyfloat) :
  out_of_range r = false <-> valid_rating r \/ r = NaN.
Proof.
  unfold out_of_range, valid_rating, hundred, nat_float. rewrite zero_float. split.
  - destruct r as [|[]|[] k]; cbn -[N.mul]; try discriminate; [now right| |];
      rewrite orb_false_iff, Z.leb_gt, Z.ltb_ge; intros [H1 H2]; [lia|].
    left. exists k. split; [reflexivity | lia].
  - intros [(k & -> & Hk)| ->]; [|reflexivity]. cbn -[N.mul].
    rewrite orb_false_iff, Z.leb_gt, Z.ltb_ge. lia.
Qed.

Lemma accepted_in_range (r : pyfloat) :
  out_of_range r = false -> r <> NaN -> in_range r = true.
Proof.
  rewrite in_range_valid, out_of_range_valid. intros [V|E] N; [assumption | contradiction].
Qed.

(** X10: the range test of the window lets through the ratings the filter
    of the engine keeps and, besides them, NaN only: a NaN passes
    [rating <= 0 or rating > 100] and fails [0 < r <= 100]. *)
Theorem window_test_admits_nan (r : pyfloat) :
  (out_of_range r = false <-> valid_rating r \/ r = NaN)
  /\ (in_range r = true <-> out_of_range r = false /\ r <> NaN).
Proof.
  split; [apply out_of_range_valid|].
  rewrite in_range_valid, out_of_range_valid. split.
  - intros V. split; [now left|]. destruct V as (k & -> & _). discriminate.
  - intros [[V|E] N]; [assumption | contradiction].
Qed.

End WindowRange.

Section WindowTable.

Import String.
Local Open Scope string_scope.

Variable strip : string -> string.
Variable float_of_text : string -> option pyfloat.
Variable str_of_float : pyfloat -> string.

(** X11: [add_condition] either opens a warning and changes nothing, or
    opens no box, appends one row at the end of the table and empties the two
    input fields; the row holds a name that is not empty (the stripped text
    of the name field when that is not empty) and the text of a rating that
    passed the range test. *)
Theorem add_condition_outcome (self : VaMathApp) :
  (exists title text,
      add_condition strip float_of_text str_of_float self
      = (self, Some (warning title text)))
  \/ (exists name rating,
         float_of_text (strip (rating_input self)) = Some rating
         /\ out_of_range rating = false
         /\ name <> ""
         /\ (strip (condition_input self) <> "" -> name = strip (condition_input self))
         /\ add_condition strip float_of_text str_of_float self
            = ({| condition_input := "";
                  rating_input := "";
                  table := (table self ++ [(Some name, Some (str_of_float rating))])%list;
                  result_label := result_label self;
                  details_box := details_box self |}, None)).
Proof.
  unfold add_condition.
  destruct (strip (rating_input self)) as [|a text] eqn:Ht; [left; eauto|].
  destruct (float_of_text (String a text)) as [rating|] eqn:Hf; [|left; eauto].
  destruct (out_of_range rating) eqn:Hr; [left; eauto|].
  right. destruct (strip (condition_input self)) as [|b name] eqn:Hn.
  - exists ("Condition " ++ str_of_nat (List.length (table self) + 1)), rating.
    repeat split; try reflexivity; try assumption.
    + cbn [append]. discriminate.
    + intros H. now contradiction H.
  - exists (String b name), rating. repeat split; try reflexivity; try assumption.
    discriminate.
Qed.

Lemma unselected_cons (A : Type) (selected : nat -> bool) (i : nat) (x : A) (t : list A) :
  unselected selected i (x :: t)
  = if selected i then unselected selected (S i) t
    else x :: unselected selected (S i) t.
Proof. unfold unselected. cbn. now destruct (selected i). Qed.

Lemma unselected_nil (A : Type) (selected : nat -> bool) (i : nat) :
  unselected selected i (@nil A) = [].
Proof. reflexivity. Qed.

Lemma unselected_ext (A : Type) (selected selected' : nat -> bool) (t : list A) :
  forall i, (forall j, (i <= j)%nat -> selected j = selected' j) ->
            unselected selected i t = unselected selected' i t.
Proof.
  induction t as [|x t IH]; intros i H; [reflexivity|].
  rewrite !unselected_cons, (H i (Nat.le_refl i)), (IH (S i)); [reflexivity|].
  intros j Hj. apply H. lia.
Qed.

Lemma unselected_none (A : Type) (selected : nat -> bool) (t : list A) :
  forall i, (forall j, (i <= j)%nat -> selected j = false) ->
            unselected selected i t = t.
Proof.
  induction t as [|x t IH]; intros i H; [reflexivity|].
  rewrite unselected_cons, (H i (Nat.le_refl i)), (IH (S i)); [reflexivity|].
  intros j Hj. apply H. lia.
Qed.

Lemma removeRow_unselected (selected : nat -> bool) (r : nat) :
  forall (t : list (option string * option string)) (i : nat),
    (forall j, (i + r <= j)%nat -> selected j = false) ->
    unselected selected i (removeRow r t)
    = unselected (fun j => (j =? i + r)%nat || selected j) i t.
Proof.
  induction r as [|r IH]; intros t i H.
  - destruct t as [|x t]; [reflexivity|].
    change (removeRow 0 (x :: t)) with t.
    rewrite unselected_cons, Nat.add_0_r, Nat.eqb_refl. cbn [orb].
    rewrite !unselected_none; [reflexivity| |].
    + intros j Hj. rewrite (H j) by lia.
      destruct (Nat.eqb_spec j i); [lia | reflexivity].
    + intros j Hj. apply H. lia.
  - destruct t as [|x t]; [reflexivity|].
    change (removeRow (S r) (x :: t)) with (x :: removeRow r t).
    rewrite !unselected_cons.
    destruct (Nat.eqb_spec i (i + S r)) as [E|_]; [lia|]. cbn [orb].
    rewrite (IH t (S i)) by (intros j Hj; apply H; lia).
    rewrite (unselected_ext _ (fun j => (j =? S i + r)%nat || selected j)
                            (fun j => (j =? i + S r)%nat || selected j) t (S i));
      [reflexivity|].
    intros j _. now replace (S i + r)%nat with (i + S r)%nat by lia.
Qed.

Lemma remove_rows_unselected (rows : list nat) :
  StronglySorted (fun a b => (b < a)%nat) rows ->
  forall t : list (option string * option string),
    fold_left (fun t row => removeRow row t) rows t
    = unselected (fun j => existsb (Nat.eqb j) rows) 0 t.
Proof.
  induction 1 as [|r rows Hs IH Hr]; intros t; cbn [fold_left existsb].
  - symmetry. now apply unselected_none.
  - rewrite IH. rewrite (removeRow_unselected _ r t 0); [reflexivity|].
    intros j Hj. apply not_true_is_false. intros E.
    apply existsb_exists in E. destruct E as (x & Hx & E).
    apply Nat.eqb_eq in E. subst x. rewrite Forall_forall in Hr.
    specialize (Hr _ Hx). lia.
Qed.

Lemma insert_row_in (r x : nat) (l : list nat) :
  In x (insert_row r l) <-> x = r \/ In x l.
Proof.
  induction l as [|y l IH]; cbn [insert_row In].
  - split; [intros [H|[]]; now left | intros [H|[]]; now left].
  - destruct (r <? y)%nat; cbn [In]; [rewrite IH|]; split; intros H.
    + destruct H as [H|[H|H]]; auto.
    + destruct H as [H|[H|H]]; auto.
    + destruct H as [H|[H|H]]; auto.
    + destruct H as [H|[H|H]]; auto.
Qed.

Lemma sorted_rows_in (x : nat) (l : list nat) : In x (sorted_rows l) <-> In x l.
Proof.
  induction l as [|y l IH]; cbn [sorted_rows In]; [reflexivity|].
  rewrite insert_row_in, IH. split; intros [H|H]; auto.
Qed.

Lemma insert_row_sorted (r : nat) (l : list nat) :
  StronglySorted (fun a b => (b < a)%nat) l -> ~ In r l ->
  StronglySorted (fun a b => (b < a)%nat) (insert_row r l).
Proof.
  induction 1 as [|y l Hs IH Hy]; intros Hr; cbn [insert_row].
  - repeat constructor.
  - destruct (Nat.ltb_spec r y).
    + constructor.
      * apply IH. intros Hin. apply Hr. now right.
      * apply Forall_forall. intros x Hx. apply insert_row_in in Hx.
        rewrite Forall_forall in Hy. destruct Hx as [->|Hx]; [assumption | now apply Hy].
    + assert (r <> y) by (intros ->; apply Hr; now left).
      constructor; [now constructor|].
      constructor; [lia|]. rewrite Forall_forall in *. intros x Hx.
      specialize (Hy _ Hx). lia.
Qed.

Lemma sorted_rows_sorted (l : list nat) :
  NoDup l -> StronglySorted (fun a b => (b < a)%nat) (sorted_rows l).
Proof.
  induction 1 as [|x l Hx Hl IH]; cbn [sorted_rows]; [constructor|].
  apply insert_row_sorted; [assumption|]. now rewrite sorted_rows_in.
Qed.

Lemma unselected_in (A : Type) (selected : nat -> bool) (t : list A) (x : A) :
  forall i, In x (unselected selected i t) -> In x t.
Proof.
  induction t as [|y t IH]; intros i H; [exact H|].
  rewrite unselected_cons in H. destruct (selected i).
  - right. now apply (IH (S i)).
  - destruct H as [H|H]; [now left | right; now apply (IH (S i))].
Qed.

Lemma remove_selected_table (selectedIndexes : list (nat * nat)) (self : VaMathApp) :
  table (fst (remove_selected selectedIndexes self))
  = unselected (fun row => existsb (fun idx => (fst idx =? row)%nat) selectedIndexes)
               0 (table self).
Proof.
  unfold remove_selected.
  set (rows := sorted_rows (nodup Nat.eq_dec (map fst selectedIndexes))).
  assert (M : forall j, existsb (Nat.eqb j) rows
                        = existsb (fun idx => (fst idx =? j)%nat) selectedIndexes).
  { intros j. apply eq_true_iff_eq. rewrite !existsb_exists. split.
    - intros (x & Hx & E). apply Nat.eqb_eq in E. subst x.
      unfold rows in Hx. rewrite sorted_rows_in, nodup_In, in_map_iff in Hx.
      destruct Hx as (idx & E & Hin). exists idx. split; [assumption|].
      now apply Nat.eqb_eq.
    - intros (idx & Hin & E). apply Nat.eqb_eq in E. exists j. split.
      + unfold rows. rewrite sorted_rows_in, nodup_In, in_map_iff. now exists idx.
      + apply Nat.eqb_refl. }
  assert (Hs : StronglySorted (fun a b => (b < a)%nat) rows)
    by apply sorted_rows_sorted, NoDup_nodup.
  assert (T : fold_left (fun t row => removeRow row t) rows (table self)
              = unselected (fun row => existsb (fun idx => (fst idx =? row)%nat)
                                               selectedIndexes) 0 (table self)).
  { rewrite (remove_rows_unselected rows Hs). apply unselected_ext. intros j _. apply M. }
  destruct rows; exact T.
Qed.

Lemma remove_selected_box (selectedIndexes : list (nat * nat)) (self : VaMathApp) :
  snd (remove_selected selectedIndexes self) = None <-> selectedIndexes <> [].
Proof.
  unfold remove_selected. destruct selectedIndexes as [|idx l].
  { cbn. split; [discriminate | intros H; now contradiction H]. }
  destruct (sorted_rows (nodup Nat.eq_dec (map fst (idx :: l)))) as [|r rows] eqn:R.
  - assert (H : In (fst idx) (sorted_rows (nodup Nat.eq_dec (map fst (idx :: l))))).
    { rewrite sorted_rows_in, nodup_In. now left. }
    rewrite R in H. destruct H.
  - cbn [snd]. split; [discriminate | reflexivity].
Qed.

(** X12: [remove_selected] leaves in the table the rows that hold no
    selected index, in their order, and changes nothing else; it opens its
    message box when nothing is selected, and only then. *)
Theorem remove_selected_keeps_unselected
        (selectedIndexes : list (nat * nat)) (self : VaMathApp) :
  exists self' box,
    remove_selected selectedIndexes self = (self', box)
    /\ table self'
       = unselected (fun row => existsb (fun idx => (fst idx =? row)%nat) selectedIndexes)
                    0 (table self)
    /\ condition_input self' = condition_input self
    /\ rating_input self' = rating_input self
    /\ result_label self' = result_label self
    /\ details_box self' = details_box self
    /\ (box = None <-> selectedIndexes <> []).
Proof.
  pose proof (remove_selected_table selectedIndexes self) as T.
  pose proof (remove_selected_box selectedIndexes self) as B.
  destruct (remove_selected selectedIndexes self) as [self' box] eqn:E.
  exists self', box. split; [reflexivity|]. split; [exact T|].
  cbn [snd] in B. unfold remove_selected in E.
  destruct (sorted_rows (nodup Nat.eq_dec (map fst selectedIndexes)));
    injection E as <- <-; repeat split; try reflexivity; apply B.
Qed.

End WindowTable.

Section WindowCalculation.

Import String.
Local Open Scope string_scope.
Local Opaque ulps.

Variable strip : string -> string.
Variable float_of_text : string -> option pyfloat.
Variable str_of_float : pyfloat -> string.
Variable sorted_by_rating : list (string * pyfloat) -> list (string * pyfloat).


Lemma read_rows_spec (rows : list (option string * option string)) :
  forall row ratings conditions,
    match read_rows strip float_of_text row rows ratings conditions with
    | inr (ratings', conditions') =>
        Forall (readable strip float_of_text) rows
        /\ ratings' = (ratings ++ ratings_of strip float_of_text rows)%list
        /\ conditions' = (conditions ++ conditions_of strip float_of_text row rows)%list
    | inl box =>
        exists j r text,
          nth_error rows j = Some r
          /\ Forall (readable strip float_of_text) (firstn j rows)
          /\ ~ readable strip float_of_text r
          /\ box = warning "Data Error" text
          /\ rejection (row + j) text
    end.
Proof.
  induction rows as [|[condition_item [text|]] rest IH]; intros row ratings conditions.
  - cbn. now rewrite !app_nil_r.
  - cbn [read_rows ratings_of conditions_of rating_of snd fst].
    destruct (float_of_text (strip text)) as [rating|] eqn:Hf.
    + destruct (out_of_range rating) eqn:Hr.
      * exists 0%nat, (condition_item, Some text). eexists.
        repeat split; [constructor| |rewrite Nat.add_0_r; right; reflexivity].
        unfold readable. cbn [snd]. intros (rating' & E & F). congruence.
      * match goal with
        | |- context [read_rows _ _ ?a rest ?b ?c] => specialize (IH a b c)
        end.
        destruct (read_rows strip float_of_text (S row) rest _ _) as [box|[ratings' conditions']].
        -- destruct IH as (j & r & msg & Hj & Hall & Hbad & Hbox & Hmsg).
           exists (S j), r, msg. repeat split; try assumption.
           ++ cbn [firstn]. constructor; [|assumption].
              unfold readable. cbn [snd]. now exists rating.
           ++ now rewrite Nat.add_succ_r.
        -- destruct IH as (Hall & -> & ->). rewrite <- !app_assoc. repeat split.
           constructor; [|assumption].
           unfold readable. cbn [snd]. now exists rating.
    + exists 0%nat, (condition_item, Some text). eexists.
      repeat split; [constructor| |rewrite Nat.add_0_r; left; eexists; reflexivity].
      unfold readable. cbn [snd]. intros (rating' & E & F). congruence.
  - cbn [read_rows ratings_of conditions_of rating_of snd fst].
    specialize (IH (S row) ratings conditions).
    destruct (read_rows strip float_of_text (S row) rest ratings conditions)
      as [box|[ratings' conditions']].
    + destruct IH as (j & r & msg & Hj & Hall & Hbad & Hbox & Hmsg).
      exists (S j), r, msg. repeat split; try assumption.
      * cbn [firstn]. constructor; [exact I | assumption].
      * now rewrite Nat.add_succ_r.
    + destruct IH as (Hall & -> & ->). repeat split.
      constructor; [exact I | assumption].
Qed.

Lemma conditions_ratings (rows : list (option string * option string)) :
  forall row,
    map snd (conditions_of strip float_of_text row rows)
    = ratings_of strip float_of_text rows.
Proof.
  induction rows as [|r rest IH]; intros row; [reflexivity|].
  cbn [conditions_of ratings_of]. destruct (rating_of strip float_of_text r); [|apply IH].
  cbn [map snd]. now rewrite IH.
Qed.

Lemma ratings_of_nil (rows : list (option string * option string)) :
  Forall (readable strip float_of_text) rows ->
  ratings_of strip float_of_text rows = [] <-> Forall (fun r => snd r = None) rows.
Proof.
  induction 1 as [|[c [text|]] rest Hr Hrest IH].
  - split; [constructor | reflexivity].
  - unfold readable in Hr. cbn [snd] in Hr. destruct Hr as (rating & E & _).
    cbn [ratings_of rating_of snd]. rewrite E. split; [discriminate|].
    intros H. inversion H as [|? ? H0 _]. discriminate.
  - cbn [ratings_of rating_of snd]. rewrite IH. split.
    + now constructor.
    + intros H. now inversion H.
Qed.

Lemma ratings_of_readable (rows : list (option string * option string)) :
  Forall (readable strip float_of_text) rows ->
  Forall (fun rating => out_of_range rating = false) (ratings_of strip float_of_text rows).
Proof.
  induction 1 as [|[c [text|]] rest Hr Hrest IH]; [constructor| |assumption].
  unfold readable in Hr. cbn [snd] in Hr. destruct Hr as (rating & E & F).
  cbn [ratings_of rating_of snd]. rewrite E. now constructor.
Qed.

(** The value [calculate_rating] returns, case by case. *)
Lemma calculate_rating_cases (self : VaMathApp) :
  (exists j r text,
      calculate_rating strip float_of_text sorted_by_rating self = Ok (self, Some (warning "Data Error" text))
      /\ nth_error (table self) j = Some r
      /\ Forall (readable strip float_of_text) (firstn j (table self))
      /\ ~ readable strip float_of_text r
      /\ rejection j text)
  \/ (calculate_rating strip float_of_text sorted_by_rating self
      = Ok (self, Some (information "No Data" "Please add at least one condition."))
      /\ Forall (readable strip float_of_text) (table self)
      /\ ratings_of strip float_of_text (table self) = [])
  \/ (exists final_rating steps,
         combine (ratings_of strip float_of_text (table self)) = Ok (final_rating, steps)
         /\ Forall (readable strip float_of_text) (table self)
         /\ ratings_of strip float_of_text (table self) <> []
         /\ calculate_rating strip float_of_text sorted_by_rating self
            = Ok ({| condition_input := condition_input self;
                     rating_input := rating_input self;
                     table := table self;
                     result_label := "Combined Rating: " ++ str_of_int final_rating ++ " %";
                     details_box :=
                       concat (String (Ascii.ascii_of_nat 10) "")
                              (details_lines sorted_by_rating
                                 final_rating
                                 (conditions_of strip float_of_text 0 (table self))
                                 steps) |},
                  None)).
Proof.
  unfold calculate_rating.
  pose proof (read_rows_spec (table self) 0 [] []) as H.
  destruct (read_rows strip float_of_text 0 (table self) [] []) as [box|[ratings conditions]].
  - left. destruct H as (j & r & text & Hj & Hall & Hbad & -> & Hmsg).
    exists j, r, text. now repeat split.
  - right. destruct H as (Hall & -> & ->). cbn [app].
    destruct (ratings_of strip float_of_text (table self)) as [|r0 l] eqn:E;
      [left; now repeat split|].
    right. destruct (combine_returns (r0 :: l)) as (steps & C & _).
    eexists _, steps. split; [exact C|]. split; [assumption|]. split; [discriminate|].
    unfold combine in C. rewrite C. reflexivity.
Qed.

(** X13: [calculate_rating] raises no exception and leaves the table and the
    two input fields as they are; when it opens a message box it changes
    nothing at all. *)
Theorem calculate_rating_returns (self : VaMathApp) :
  exists self' box,
    calculate_rating strip float_of_text sorted_by_rating self = Ok (self', box)
    /\ table self' = table self
    /\ condition_input self' = condition_input self
    /\ rating_input self' = rating_input self
    /\ (box <> None -> self' = self).
Proof.
  destruct (calculate_rating_cases self)
    as [(j & r & text & E & _)|[(E & _)|(final & steps & _ & _ & _ & E)]];
    rewrite E; eexists _, _; (split; [reflexivity|]); repeat split.
  intros H. now contradiction H.
Qed.

(** X14: which box [calculate_rating] opens.  A warning names the first row
    whose rating item is not a number or fails the range test; the
    information box is opened when no row has a rating item; no box is
    opened when every rating item is accepted and there is one at least. *)
Theorem calculate_rating_boxes (self : VaMathApp) :
  exists self' box,
    calculate_rating strip float_of_text sorted_by_rating self = Ok (self', box)
    /\ match box with
       | Some (warning title text) =>
           title = "Data Error"
           /\ exists j r, nth_error (table self) j = Some r
                          /\ Forall (readable strip float_of_text) (firstn j (table self))
                          /\ ~ readable strip float_of_text r
                          /\ rejection j text
       | Some (information title text) =>
           Forall (fun r => snd r = None) (table self)
       | None =>
           Forall (readable strip float_of_text) (table self)
           /\ Exists (fun r => snd r <> None) (table self)
       end.
Proof.
  destruct (calculate_rating_cases self)
    as [(j & r & text & E & Hj & Hall & Hbad & Hmsg)
       |[(E & Hall & Hnil)|(final & steps & _ & Hall & Hsome & E)]];
    rewrite E; eexists _, _; (split; [reflexivity|]); cbv beta iota.
  - split; [reflexivity|]. now exists j, r.
  - now apply ratings_of_nil.
  - split; [assumption|]. apply neg_Forall_Exists_neg.
    + intros [c [text|]]; [right; discriminate | now left].
    + intros F. apply Hsome. now apply ratings_of_nil.
Qed.

(** X15: when [calculate_rating] opens no box, the result label and the last
    line of the details show the final rating the engine returns for the
    ratings of the rows, in the order of the rows; it is a multiple of 10
    between 0 and 100. *)
Theorem calculate_rating_shows_final (self : VaMathApp) :
  exists self' box,
    calculate_rating strip float_of_text sorted_by_rating self = Ok (self', box)
    /\ (box = None ->
        exists final_rating steps lines,
          combine (ratings_of strip float_of_text (table self)) = Ok (final_rating, steps)
          /\ (0 <= final_rating <= 100)%Z /\ (final_rating mod 10 = 0)%Z
          /\ result_label self' = "Combined Rating: " ++ str_of_int final_rating ++ " %"
          /\ details_box self' = concat (String (Ascii.ascii_of_nat 10) "") lines
          /\ last lines ""
             = "Final VA combined rating (rounded to nearest 10): "
               ++ str_of_int final_rating ++ "%").
Proof.
  destruct (calculate_rating_cases self)
    as [(j & r & text & E & _)|[(E & _)|(final & steps & C & _ & _ & E)]];
    rewrite E; eexists _, _; (split; [reflexivity|]); try discriminate.
  intros _. exists final, steps. eexists. split; [exact C|].
  destruct (combine_trace _ _ _ C) as (-> & _).
  destruct (final_rounding_range (total_after 0 steps)) as [B M].
  split; [exact B|]. split; [exact M|]. split; [reflexivity|].
  split; [reflexivity|]. unfold details_lines.
  rewrite !app_assoc. apply last_last.
Qed.

Lemma insert_condition_ratings (c : string * pyfloat) (l : list (string * pyfloat)) :
  map snd (insert_condition c l) = insert_desc (snd c) (map snd l).
Proof.
  induction l as [|d l IH]; [reflexivity|]. cbn [insert_condition insert_desc map].
  destruct (fltb (snd c) (snd d)); [|reflexivity]. cbn [map]. now rewrite IH.
Qed.

Lemma sorted_conditions_ratings (l : list (string * pyfloat)) :
  map snd (sorted_conditions l) = sorted_desc (map snd l).
Proof.
  induction l as [|c l IH]; [reflexivity|]. cbn [sorted_conditions sorted_desc map].
  now rewrite insert_condition_ratings, IH.
Qed.

Lemma insert_condition_perm (c : string * pyfloat) (l : list (string * pyfloat)) :
  Permutation (insert_condition c l) (c :: l).
Proof.
  induction l as [|d l IH]; [reflexivity|]. cbn [insert_condition].
  destruct (fltb (snd c) (snd d)); [|reflexivity].
  rewrite IH. apply perm_swap.
Qed.

Lemma sorted_conditions_perm (l : list (string * pyfloat)) :
  Permutation (sorted_conditions l) l.
Proof.
  induction l as [|c l IH]; [reflexivity|]. cbn [sorted_conditions].
  rewrite insert_condition_perm. now constructor.
Qed.

(** X16: when [sorted] returns the stable sort into descending order of
    rating on the lists that hold no NaN, and no rating read from the rows
    is a NaN, the conditions listed at the head of the details are the
    conditions read from the rows, in another order, and their ratings are,
    one by one, the ratings of the steps listed below them. *)
Theorem details_list_conditions_in_step_order (self : VaMathApp) :
  (forall conditions,
      ~ In NaN (map snd conditions) ->
      sorted_by_rating conditions = sorted_conditions conditions) ->
  ~ In NaN (ratings_of strip float_of_text (table self)) ->
  exists self' box,
    calculate_rating strip float_of_text sorted_by_rating self = Ok (self', box)
    /\ (box = None ->
        exists final_rating steps,
          combine (ratings_of strip float_of_text (table self)) = Ok (final_rating, steps)
          /\ details_box self'
             = concat (String (Ascii.ascii_of_nat 10) "")
                      (details_lines sorted_by_rating
                         final_rating
                         (conditions_of strip float_of_text 0 (table self))
                         steps)
          /\ Permutation (sorted_by_rating (conditions_of strip float_of_text 0 (table self)))
                         (conditions_of strip float_of_text 0 (table self))
          /\ map snd (sorted_by_rating (conditions_of strip float_of_text 0 (table self)))
             = map rating steps).
Proof.
  intros Hsort Hnan.
  destruct (calculate_rating_cases self)
    as [(j & r & text & E & _)|[(E & _)|(final & steps & C & Hall & _ & E)]];
    rewrite E; eexists _, _; (split; [reflexivity|]); try discriminate.
  intros _. exists final, steps. split; [exact C|]. split; [reflexivity|].
  rewrite Hsort by now rewrite conditions_ratings.
  split; [apply sorted_conditions_perm|].
  destruct (combine_trace _ _ _ C) as (_ & Hmap & _).
  rewrite Hmap, sorted_conditions_ratings, conditions_ratings.
  rewrite filter_all; [reflexivity|].
  pose proof (ratings_of_readable _ Hall) as R.
  rewrite Forall_forall in *. intros x Hx. apply accepted_in_range.
  - now apply R.
  - intros ->. contradiction.
Qed.

End WindowCalculation.

Section WindowStates.

Import String.
Local Open Scope string_scope.
Local Opaque ulps.

Variable strip : string -> string.
Variable float_of_text : string -> option pyfloat.
Variable str_of_float : pyfloat -> string.
Variable sorted_by_rating : list (string * pyfloat) -> list (string * pyfloat).

Lemma calculate_rating_same_table (a b s : VaMathApp) :
  table a = table b -> condition_input a = condition_input b ->
  rating_input a = rating_input b ->
  calculate_rating strip float_of_text sorted_by_rating a = Ok (s, None) ->
  calculate_rating strip float_of_text sorted_by_rating b = Ok (s, None).
Proof.
  unfold calculate_rating. intros <- <- <-.
  destruct (read_rows strip float_of_text 0 (table a) [] []) as [box|[ratings conditions]];
    [discriminate|].
  destruct ratings as [|r0 l]; [discriminate|]. exact (fun H => H).
Qed.

(** X17: [calculate_rating] run a second time gives the state and the box
    of the first run. *)
Theorem calculate_rating_twice (self : VaMathApp) :
  exists self' box,
    calculate_rating strip float_of_text sorted_by_rating self = Ok (self', box)
    /\ calculate_rating strip float_of_text sorted_by_rating self' = Ok (self', box).
Proof.
  destruct (calculate_rating_cases strip float_of_text sorted_by_rating self)
    as [(j & r & text & E & _)|[(E & _)|(final & steps & C & _ & N & E)]];
    rewrite E; eexists _, _; (split; [reflexivity|]); try exact E.
  now apply (calculate_rating_same_table self).
Qed.

(** What [add_condition] writes into a row. *)
Lemma add_condition_rows (self : VaMathApp) (P : option string * option string -> Prop) :
  Forall P (table self) ->
  (forall name rating, name <> "" -> out_of_range rating = false ->
                       P (Some name, Some (str_of_float rating))) ->
  Forall P (table (fst (add_condition strip float_of_text str_of_float self))).
Proof.
  intros Hall Hnew. unfold add_condition.
  destruct (strip (rating_input self)) as [|a text]; [exact Hall|].
  destruct (float_of_text (String a text)) as [rating|]; [|exact Hall].
  destruct (out_of_range rating) eqn:Hr; [exact Hall|].
  cbn [fst table]. apply Forall_app. split; [exact Hall|].
  constructor; [|constructor]. apply Hnew; [|exact Hr].
  destruct (strip (condition_input self)); [cbn [append]|]; discriminate.
Qed.

(** X18: as long as the cells of the table are not edited by hand, every
    row of the table has its two items: a name that is not empty, and the
    text [str] gives for a rating that passed the range test. *)
Theorem reachable_rows_written (self : VaMathApp) :
  reachable strip float_of_text str_of_float sorted_by_rating self ->
  Forall (fun row => exists name rating,
              row = (Some name, Some (str_of_float rating))
              /\ name <> "" /\ out_of_range rating = false) (table self).
Proof.
  induction 1 as [|self name rating _ IH|self _ IH|self sel _ IH|self _ IH
                  |self self' box _ IH E].
  - constructor.
  - exact IH.
  - apply add_condition_rows; [exact IH|]. intros name rating Hn Hr. now exists name, rating.
  - rewrite remove_selected_table. rewrite Forall_forall in *. intros row Hrow.
    apply IH. eapply unselected_in, Hrow.
  - constructor.
  - destruct (calculate_rating_cases strip float_of_text sorted_by_rating self)
      as [(j & r & text & E' & _)|[(E' & _)|(final & steps & _ & _ & _ & E')]];
      rewrite E in E'; injection E' as -> _; exact IH.
Qed.

(** X19: when [float] reads back what [str] writes, [calculate_rating]
    accepts a table whose rows were written by [add_condition]: it reads one
    rating in every row, and opens a box only when the table is empty. *)
Theorem written_rows_accepted (self : VaMathApp) :
  (forall rating, float_of_text (strip (str_of_float rating)) = Some rating) ->
  Forall (fun row => exists name rating,
              row = (Some name, Some (str_of_float rating))
              /\ name <> "" /\ out_of_range rating = false) (table self) ->
  Forall (readable strip float_of_text) (table self)
  /\ List.length (ratings_of strip float_of_text (table self)) = List.length (table self)
  /\ exists self' box,
       calculate_rating strip float_of_text sorted_by_rating self = Ok (self', box)
       /\ (box = None <-> table self <> []).
Proof.
  intros Hback Hall.
  assert (R : Forall (readable strip float_of_text) (table self)).
  { eapply Forall_impl; [|exact Hall]. cbv beta.
    intros row (name & rating & -> & _ & Hr). unfold readable. cbn [snd].
    exists rating. now rewrite Hback. }
  assert (L : List.length (ratings_of strip float_of_text (table self))
              = List.length (table self)).
  { induction Hall as [|row rest (name & rating & -> & _) _ IH]; [reflexivity|].
    cbn [ratings_of rating_of snd]. rewrite Hback. cbn [List.length]. f_equal.
    apply IH. now inversion R. }
  split; [exact R|]. split; [exact L|].
  destruct (calculate_rating_cases strip float_of_text sorted_by_rating self)
    as [(j & r & text & E & Hj & _ & Hbad & _)|[(E & _ & N)|(final & steps & _ & _ & N & E)]];
    rewrite E; eexists _, _; (split; [reflexivity|]).
  - contradiction Hbad. rewrite Forall_forall in R. apply R. eapply nth_error_In, Hj.
  - rewrite N in L. destruct (table self); [|discriminate].
    split; [discriminate | intros H; now contradiction H].
  - split; [|reflexivity]. intros _ T. rewrite T in N. now apply N.
Qed.

(** X20: a table in which every rating item reads as NaN is accepted by
    [calculate_rating], which shows the combined rating 0: the range test of
    the window lets NaN through and the filter of the engine drops it. *)
Theorem nan_rows_give_zero (self : VaMathApp) :
  table self <> [] ->
  Forall (fun row => rating_of strip float_of_text row = Some NaN) (table self) ->
  exists self',
    calculate_rating strip float_of_text sorted_by_rating self = Ok (self', None)
    /\ combine (ratings_of strip float_of_text (table self)) = Ok (0%Z, [])
    /\ result_label self' = "Combined Rating: 0 %".
Proof.
  intros Hne Hall.
  assert (R : Forall (fun r => ~ valid_rating r)
                     (ratings_of strip float_of_text (table self))).
  { clear Hne. induction Hall as [|row rest Hrow _ IH]; [constructor|].
    cbn [ratings_of]. rewrite Hrow. constructor; [|exact IH].
    intros (k & E & _). discriminate. }
  assert (C : combine (ratings_of strip float_of_text (table self)) = Ok (0%Z, [])).
  { rewrite !combine_unfold; cbv zeta.
    rewrite (filter_no_valid _ R). now destruct (ratings_of _ _ _). }
  destruct (calculate_rating_cases strip float_of_text sorted_by_rating self)
    as [(j & r & text & E & Hj & _ & Hbad & _)|[(E & _ & N)|(final & steps & C' & _ & N & E)]].
  - contradiction Hbad. rewrite Forall_forall in Hall.
    specialize (Hall _ (nth_error_In _ _ Hj)).
    unfold rating_of in Hall. unfold readable.
    destruct (snd r) as [text'|]; [|exact I]. exists NaN. now split.
  - destruct (table self) as [|row rest]; [now contradiction Hne|].
    inversion Hall as [|? ? Hrow _]; subst.
    cbn [ratings_of] in N. rewrite Hrow in N. discriminate.
  - rewrite C in C'. injection C' as <- <-.
    eexists. split; [exact E|]. split; [exact C | reflexivity].
Qed.

End WindowStates.

Section WindowInstances.

Import String.
Local Open Scope string_scope.

Lemma read_write_float (x : pyfloat) : read_float (write_float x) = Some x.
Proof.
  destruct x as [|[]|[] k]; try reflexivity; cbn [write_float read_float];
    unfold read_magnitude;
    now rewrite DecimalString.NilEmpty.usu, DecimalN.Unsigned.of_to.
Qed.

(** [reachable_rows_written] after "PTSD" and a rating are typed and added. *)
Lemma reachable_rows_written_witness :
  Forall (fun row => exists name rating,
              row = (Some name, Some (write_float rating))
              /\ name <> "" /\ out_of_range rating = false)
         (table (fst (add_condition (fun text => text) read_float write_float
                                    {| condition_input := "PTSD";
                                       rating_input := write_float (nat_float 50);
                                       table := [];
                                       result_label := "Combined Rating: -- %";
                                       details_box := "" |}))).
Proof.
  apply (reachable_rows_written (fun text => text) read_float write_float sorted_conditions).
  apply reach_add.
  exact (reach_type (fun text => text) read_float write_float sorted_conditions _build_ui
                    "PTSD" (write_float (nat_float 50))
                    (reach_build (fun text => text) read_float write_float sorted_conditions)).
Defined.

(** [written_rows_accepted] at a table of one row. *)
Lemma written_rows_accepted_witness :
  exists self' box,
    calculate_rating (fun text => text) read_float sorted_conditions
                     {| condition_input := "";
                        rating_input := "";
                        table := [(Some "PTSD", Some (write_float (nat_float 50)))];
                        result_label := "Combined Rating: -- %";
                        details_box := "" |}
    = Ok (self', box)
    /\ (box = None <-> [(Some "PTSD", Some (write_float (nat_float 50)))] <> []).
Proof.
  refine (proj2 (proj2 (written_rows_accepted
                          (fun text => text) read_float write_float sorted_conditions
                          {| condition_input := "";
                             rating_input := "";
                             table := [(Some "PTSD", Some (write_float (nat_float 50)))];
                             result_label := "Combined Rating: -- %";
                             details_box := "" |}
                          read_write_float _))).
  constructor; [|constructor].
  exists "PTSD", (nat_float 50). split; [reflexivity|]. split; [discriminate|].
  vm_compute. reflexivity.
Defined.

(** [nan_rows_give_zero] at a table of one row that reads as NaN. *)
Lemma nan_rows_give_zero_witness :
  exists self',
    calculate_rating (fun text => text) read_float sorted_conditions
                     {| condition_input := "";
                        rating_input := "";
                        table := [(Some "PTSD", Some "n")];
                        result_label := "Combined Rating: -- %";
                        details_box := "" |}
    = Ok (self', None)
    /\ combine [NaN] = Ok (0%Z, [])
    /\ result_label self' = "Combined Rating: 0 %".
Proof.
  apply (nan_rows_give_zero (fun text => text) read_float sorted_conditions
                            {| condition_input := "";
                               rating_input := "";
                               table := [(Some "PTSD", Some "n")];
                               result_label := "Combined Rating: -- %";
                               details_box := "" |}).
  - discriminate.
  - constructor; [reflexivity | constructor].
Defined.

(** [details_list_conditions_in_step_order] at a table of two rows, for a
    [float] that reads 50 in every text. *)
Lemma details_list_conditions_in_step_order_witness :
  exists self' box,
    calculate_rating (fun text => text) (fun _ => Some (nat_float 50)) sorted_conditions
                     {| condition_input := "";
                        rating_input := "";
                        table := [(Some "PTSD", Some "50"); (Some "Knee", Some "50")];
                        result_label := "Combined Rating: -- %";
                        details_box := "" |}
    = Ok (self', box)
    /\ (box = None ->
        exists final_rating steps,
          combine [nat_float 50; nat_float 50] = Ok (final_rating, steps)
          /\ map snd (sorted_conditions [("PTSD", nat_float 50); ("Knee", nat_float 50)])
             = map rating steps).
Proof.
  destruct (details_list_conditions_in_step_order
              (fun text => text) (fun _ => Some (nat_float 50)) sorted_conditions
              {| condition_input := "";
                 rating_input := "";
                 table := [(Some "PTSD", Some "50"); (Some "Knee", Some "50")];
                 result_label := "Combined Rating: -- %";
                 details_box := "" |}
              (fun conditions _ => eq_refl))
    as (self' & box & E & H).
  - cbn. intros [H|[H|[]]]; discriminate.
  - exists self', box. split; [exact E|]. intros B.
    destruct (H B) as (final_rating & steps & C & _ & _ & M).
    exists final_rating, steps. split; [exact C | exact M].
Defined.

End WindowInstances.

Section WindowDetails.

Import String.
Local Open Scope string_scope.
Local Opaque ulps.

Lemma rne_div_multiple (b d : N) : d <> 0%N -> rne_div (b * d) d = b.
Proof.
  intros Hd. apply N.le_antisymm.
  - apply rne_div_le; [assumption | apply N.le_refl].
  - apply rne_div_ge; [assumption | apply N.le_refl].
Qed.

Lemma format_fixed_whole (m : N) :
  format_fixed 2 (nat_float m) = str_of_N m ++ ".00"
  /\ format_fixed 0 (nat_float m) = str_of_N m.
Proof.
  assert (U : ulps <> 0%N) by (pose proof ulps_pos; lia).
  unfold format_fixed, nat_float. split.
  - change (10 ^ N.of_nat 2)%N with 100%N.
    replace (m * ulps * 100)%N with (m * 100 * ulps)%N by lia.
    rewrite rne_div_multiple by assumption.
    rewrite N.div_mul, N.Div0.mod_mul by discriminate. reflexivity.
  - change (10 ^ N.of_nat 0)%N with 1%N.
    rewrite N.mul_1_r, rne_div_multiple, N.div_1_r by assumption.
    cbn [append]. generalize (str_of_N m). intros t.
    induction t as [|a t IH]; [reflexivity|]. cbn [append]. now rewrite IH.
Qed.

(** X21: in the details every step shows its [remaining_before] as a whole
    number between 0 and 100 followed by [.00]. *)
Theorem remaining_before_shown_whole (ratings : list pyfloat) :
  exists final steps,
    combine ratings = Ok (final, steps)
    /\ Forall (fun s =>
                 exists m, (m <= 100)%N
                           /\ forall idx,
                                nth_error (step_lines idx s) 1
                                = Some ("  Remaining before: " ++ str_of_N m ++ ".00%"))
              steps.
Proof.
  destruct (combine_returns ratings) as (steps & E & _ & Htrace).
  eexists _, steps. split; [exact E|].
  destruct (trace_monotone steps 0%N ltac:(lia) Htrace) as (_ & _ & R).
  eapply Forall_impl; [|exact R]. cbv beta. intros s (m & Hm & Hr).
  exists m. split; [lia|]. intros idx. unfold step_lines. cbn [nth_error].
  rewrite Hr, (proj1 (format_fixed_whole m)). do 2 f_equal.
  generalize (str_of_N m). intros t.
  induction t as [|a t IH]; [reflexivity|]. cbn [append]. now rewrite IH.
Qed.

End WindowDetails.
